(** * flippy: a shallow embedding of the dynamically triangulated surface core

    Sources: [Nodes.hpp] (Node, Nodes), [Triangulation.hpp] (BondFlipData,
    Neighbors, Geometry, Triangulation) and [MonteCarloUpdater.hpp].

    Modelling choices.
    - The C++ template parameter [Real] is modelled by the real numbers of
      the Standard Library, so every arithmetic identity is exact.  A
      comparison [x < y] of the code becomes the boolean [Rltb x y].
    - The template parameter [Index] (an unsigned integer) is modelled by
      [N]; positions inside a ring (the differences of iterators) by [nat].
    - A [std::vector] is a [list]; [v[i] = x] is [list_set]; [emplace] and
      [erase] at an iterator are [insert_at] and [erase_at].
    - The mutable [Triangulation] object is a record; every method that
      mutates it is a function returning the new record. *)

From Stdlib Require Import Reals Lra Lia List NArith Permutation Sorting.Sorted ZArith.
From Stdlib Require String Ascii.
Import ListNotations.

Open Scope R_scope.

(** ** Generic list helpers (the std::vector operations used by the code) *)

Fixpoint list_set {A} (l : list A) (i : nat) (x : A) : list A :=
  match l, i with
  | [], _ => []
  | _ :: r, O => x :: r
  | y :: r, S i' => y :: list_set r i' x
  end.

Definition insert_at {A} (i : nat) (x : A) (l : list A) : list A :=
  firstn i l ++ x :: skipn i l.

Definition erase_at {A} (i : nat) (l : list A) : list A :=
  firstn i l ++ skipn (S i) l.

(** [std::find(v.begin(), v.end(), x) - v.begin()]: the position of the first
    occurrence of [x], or [v.size()] when [x] is absent. *)
Fixpoint find_index (x : N) (l : list N) : nat :=
  match l with
  | [] => O
  | y :: r => if N.eqb y x then O else S (find_index x r)
  end.

(** [is_member] of utils.hpp. *)
Definition is_member (l : list N) (x : N) : bool :=
  existsb (N.eqb x) l.

(** [std::sort] on a vector of ids: the sorted permutation (insertion sort). *)
Fixpoint insert_sorted (x : N) (l : list N) : list N :=
  match l with
  | [] => [x]
  | y :: r => if N.leb x y then x :: y :: r else y :: insert_sorted x r
  end.

Fixpoint sort_ids (l : list N) : list N :=
  match l with
  | [] => []
  | x :: r => insert_sorted x (sort_ids r)
  end.

(** [std::set_intersection] of two sorted ranges, as in the C++ standard:
    advance the first range when its head is smaller, copy and advance both
    when the heads are equal, advance the second range otherwise. *)
Fixpoint set_intersection (l1 l2 : list N) : list N :=
  match l1 with
  | [] => []
  | x :: r1 =>
      (fix go (l2 : list N) : list N :=
         match l2 with
         | [] => []
         | y :: r2 =>
             if N.ltb x y then set_intersection r1 (y :: r2)
             else if N.ltb y x then go r2
             else x :: set_intersection r1 r2
         end) l2
  end.

(** Strict comparison of reals as the boolean the C++ [<] returns. *)
Definition Rltb (x y : R) : bool := if Rlt_dec x y then true else false.

(** ** Vec3 *)

(** [fp::vec3] (custom_concepts.hpp): a triple of reals with componentwise
    addition, subtraction, negation, scalar multiplication and division
    ([v / s] scales by [1 / s], which is [x / s] on each component in exact
    reals), dot and cross product, squared norm and norm. *)
Record vec3 := mkV { vx : R; vy : R; vz : R }.

Definition vzero : vec3 := mkV 0 0 0.
Definition vadd (a b : vec3) : vec3 := mkV (vx a + vx b) (vy a + vy b) (vz a + vz b).
Definition vsub (a b : vec3) : vec3 := mkV (vx a - vx b) (vy a - vy b) (vz a - vz b).
Definition vneg (a : vec3) : vec3 := mkV (- vx a) (- vy a) (- vz a).
Definition vscale (s : R) (a : vec3) : vec3 := mkV (s * vx a) (s * vy a) (s * vz a).
Definition vdiv (a : vec3) (s : R) : vec3 := mkV (vx a / s) (vy a / s) (vz a / s).
Definition dot (a b : vec3) : R := vx a * vx b + vy a * vy b + vz a * vz b.
Definition cross (a b : vec3) : vec3 :=
  mkV (vy a * vz b - vz a * vy b) (vz a * vx b - vx a * vz b) (vx a * vy b - vy a * vx b).
Definition norm_square (a : vec3) : R := dot a a.
Definition norm (a : vec3) : R := sqrt (norm_square a).

(** ** Node (Nodes.hpp) *)

Record Node := mkNode {
  id : N;
  area : R;
  volume : R;
  unit_bending_energy : R;
  pos : vec3;
  curvature_vec : vec3;
  nn_ids : list N;
  nn_distances : list vec3;
  verlet_list : list N
}.

Definition default_node : Node := mkNode 0 0 0 0 vzero vzero [] [] [].

Definition set_nn_lists (n : Node) (ids : list N) (ds : list vec3) : Node :=
  mkNode (id n) (area n) (volume n) (unit_bending_energy n) (pos n)
         (curvature_vec n) ids ds (verlet_list n).

Definition set_pos_node (n : Node) (p : vec3) : Node :=
  mkNode (id n) (area n) (volume n) (unit_bending_energy n) p
         (curvature_vec n) (nn_ids n) (nn_distances n) (verlet_list n).

Definition set_verlet_node (n : Node) (vl : list N) : Node :=
  mkNode (id n) (area n) (volume n) (unit_bending_energy n) (pos n)
         (curvature_vec n) (nn_ids n) (nn_distances n) vl.

(** [Node::pop_nn]: erase the first occurrence of the id and the distance
    vector at the same position; nothing happens when the id is absent. *)
Definition pop_nn (n : Node) (to_pop_nn_id : N) : Node :=
  let p := find_index to_pop_nn_id (nn_ids n) in
  if Nat.ltb p (length (nn_ids n))
  then set_nn_lists n (erase_at p (nn_ids n)) (erase_at p (nn_distances n))
  else n.

(** [Node::emplace_nn_id]: insert before position [loc_idx], only when
    [loc_idx < nn_ids.size()]. *)
Definition emplace_nn_id (n : Node) (to_emplace_nn_id : N) (to_emplace_nn_pos : vec3)
    (loc_idx : nat) : Node :=
  if Nat.ltb loc_idx (length (nn_ids n))
  then set_nn_lists n (insert_at loc_idx to_emplace_nn_id (nn_ids n))
                      (insert_at loc_idx (vsub to_emplace_nn_pos (pos n)) (nn_distances n))
  else n.

(** ** Geometry (Triangulation.hpp) *)

Record Geometry := mkGeometry { g_area : R; g_volume : R; g_unit_bending_energy : R }.

Definition geometry_zero : Geometry := mkGeometry 0 0 0.
Definition geometry_of_node (n : Node) : Geometry :=
  mkGeometry (area n) (volume n) (unit_bending_energy n).
Definition geometry_add (l r : Geometry) : Geometry :=
  mkGeometry (g_area l + g_area r) (g_volume l + g_volume r)
             (g_unit_bending_energy l + g_unit_bending_energy r).
Definition geometry_sub (l r : Geometry) : Geometry :=
  mkGeometry (g_area l - g_area r) (g_volume l - g_volume r)
             (g_unit_bending_energy l - g_unit_bending_energy r).

(** ** BondFlipData, Neighbors and the sentinel (Triangulation.hpp) *)

(** [VERY_LARGE_NUMBER_] is [LONG_LONG_MAX]. *)
Definition VERY_LARGE_NUMBER_ : Z := 9223372036854775807%Z.

(** The width of [Index]; the demos and the README use [unsigned int]. *)
Definition index_bits : Z := 32%Z.

(** [static_cast<Index>(z)] for an unsigned [Index]: reduction modulo
    [2^index_bits]. *)
Definition index_cast (z : Z) : N := Z.to_N (Z.modulo z (Z.pow 2 index_bits)).

Definition vln : N := index_cast VERY_LARGE_NUMBER_.

Record BondFlipData := mkBondFlipData {
  flipped : bool;
  common_nn_0 : N;
  common_nn_1 : N
}.

(** [BondFlipData<Index>{}]: the default member initialisers. *)
Definition default_bfd : BondFlipData := mkBondFlipData false vln vln.

Record Neighbors := mkNeighbors { j_m_1 : N; j_p_1 : N }.

(** [Neighbors::plus_one] and [Neighbors::minus_one] on ring positions. *)
Definition plus_one (j ring_size : nat) : nat :=
  if Nat.ltb j (ring_size - 1) then S j else O.
Definition minus_one (j ring_size : nat) : nat :=
  if Nat.eqb j O then (ring_size - 1)%nat else (j - 1)%nat.

(** BOND_DONATION_CUTOFF: a node needs more than this many bonds to donate one. *)
Definition BOND_DONATION_CUTOFF : nat := 4.

(** ** The Triangulation object *)

Inductive TriangulationType := SPHERICAL_TRIANGULATION | EXPERIMENTAL_PLANAR_TRIANGULATION.

Record Tri := mkTri {
  triangulation_type : TriangulationType;
  R_initial : R;
  nodes_ : list Node;
  bulk_nodes_ids : list N;
  global_geometry_ : Geometry;
  pre_update_geometry : Geometry;
  post_update_geometry : Geometry;
  verlet_radius : R;
  verlet_radius_squared : R;
  boundary_nodes_ids_set_ : list N
}.

Definition with_nodes (t : Tri) (s : list Node) : Tri :=
  mkTri (triangulation_type t) (R_initial t) s (bulk_nodes_ids t) (global_geometry_ t)
        (pre_update_geometry t) (post_update_geometry t) (verlet_radius t)
        (verlet_radius_squared t) (boundary_nodes_ids_set_ t).
Definition with_global (t : Tri) (g : Geometry) : Tri :=
  mkTri (triangulation_type t) (R_initial t) (nodes_ t) (bulk_nodes_ids t) g
        (pre_update_geometry t) (post_update_geometry t) (verlet_radius t)
        (verlet_radius_squared t) (boundary_nodes_ids_set_ t).
Definition with_pre (t : Tri) (g : Geometry) : Tri :=
  mkTri (triangulation_type t) (R_initial t) (nodes_ t) (bulk_nodes_ids t) (global_geometry_ t)
        g (post_update_geometry t) (verlet_radius t)
        (verlet_radius_squared t) (boundary_nodes_ids_set_ t).
Definition with_post (t : Tri) (g : Geometry) : Tri :=
  mkTri (triangulation_type t) (R_initial t) (nodes_ t) (bulk_nodes_ids t) (global_geometry_ t)
        (pre_update_geometry t) g (verlet_radius t)
        (verlet_radius_squared t) (boundary_nodes_ids_set_ t).

(** [nodes_[k]] and [nodes_[k] = n] on the node vector. *)
Definition node_at (s : list Node) (k : N) : Node := nth (N.to_nat k) s default_node.
Definition set_node (s : list Node) (k : N) (n : Node) : list Node := list_set s (N.to_nat k) n.
Definition pos_of (s : list Node) (k : N) : vec3 := pos (node_at s k).
Definition ring_of (t : Tri) (k : N) : list N := nn_ids (node_at (nodes_ t) k).

(** [Nodes::displace]. *)
Definition displace (s : list Node) (k : N) (d : vec3) : list Node :=
  set_node s k (set_pos_node (node_at s k) (vadd (pos (node_at s k)) d)).

(** [Nodes::set_nn_distance]. *)
Definition set_nn_distance (s : list Node) (k : N) (i : nat) (v : vec3) : list Node :=
  let n := node_at s k in
  set_node s k (set_nn_lists n (nn_ids n) (list_set (nn_distances n) i v)).

(** [Triangulation::update_nn_distance_vectors]: the range-for over the ring
    with the running local index [i]. *)
Fixpoint refresh_loop (s : list Node) (k : N) (ring : list N) (i : nat) : list Node :=
  match ring with
  | [] => s
  | nn :: r => refresh_loop (set_nn_distance s k i (vsub (pos_of s nn) (pos_of s k))) k r (S i)
  end.

Definition update_nn_distance_vectors (t : Tri) (k : N) : Tri :=
  with_nodes t (refresh_loop (nodes_ t) k (ring_of t k) O).

Definition cot_between_vectors (v1 v2 : vec3) : R := dot v1 v2 / norm (cross v1 v2).

(** [Triangulation::mixed_area] (the overload taking the cotangents). *)
Definition mixed_area (lij lij_p_1 : vec3) (triangle_area cot_at_j cot_at_j_p_1 : R) : R :=
  if (Rltb 0 cot_at_j && Rltb 0 cot_at_j_p_1)%bool then
    if Rltb 0 (dot lij lij_p_1)
    then (cot_at_j_p_1 * dot lij lij + cot_at_j * dot lij_p_1 lij_p_1) / 8
    else triangle_area / 2
  else triangle_area / 4.

(** One iteration of the loop of [update_bulk_node_geometry]; the accumulator
    is [(area_sum, face_normal_sum, local_curvature_vec)]. *)
Definition face_step (lij lij_p_1 : vec3) (acc : R * vec3 * vec3) : R * vec3 * vec3 :=
  let '(area_sum, face_normal_sum, local_curvature_vec) := acc in
  let ljj_p_1 := vsub lij_p_1 lij in
  let cot_at_j := cot_between_vectors lij (vscale (-1) ljj_p_1) in
  let cot_at_j_p_1 := cot_between_vectors lij_p_1 ljj_p_1 in
  let face_normal := cross lij lij_p_1 in
  let face_normal_norm := norm face_normal in
  let face_area := mixed_area lij lij_p_1 ((1/2) * face_normal_norm) cot_at_j cot_at_j_p_1 in
  (area_sum + face_area,
   vadd face_normal_sum (vdiv (vscale face_area face_normal) face_normal_norm),
   vsub local_curvature_vec (vadd (vscale cot_at_j_p_1 lij) (vscale cot_at_j lij_p_1))).

(** [for (Index j = 0; j < nn_number; ++j)] over the stored distance vectors. *)
Definition ring_loop (ds : list vec3) (nn_number : nat) : R * vec3 * vec3 :=
  fold_left (fun acc j => face_step (nth j ds vzero) (nth (plus_one j nn_number) ds vzero) acc)
            (seq 0 nn_number) (0, vzero, vzero).

(** The four setters at the end of [update_bulk_node_geometry]. *)
Definition finish_node (nd : Node) (acc : R * vec3 * vec3) : Node :=
  let '(area_sum, face_normal_sum, local_curvature_vec) := acc in
  mkNode (id nd) area_sum (dot (pos nd) face_normal_sum / 3)
         (dot local_curvature_vec local_curvature_vec / (8 * area_sum))
         (pos nd) (vdiv (vneg local_curvature_vec) (2 * area_sum))
         (nn_ids nd) (nn_distances nd) (verlet_list nd).

(** [Triangulation::update_bulk_node_geometry]. *)
Definition update_bulk_node_geometry (t : Tri) (k : N) : Tri :=
  let t1 := update_nn_distance_vectors t k in
  let nd := node_at (nodes_ t1) k in
  with_nodes t1 (set_node (nodes_ t1) k
                   (finish_node nd (ring_loop (nn_distances nd) (length (nn_ids nd))))).

(** [Triangulation::update_boundary_node_geometry]. *)
Definition update_boundary_node_geometry (t : Tri) (k : N) : Tri :=
  update_nn_distance_vectors t k.

Definition is_boundary (t : Tri) (k : N) : bool := is_member (boundary_nodes_ids_set_ t) k.

(** [update_two_ring_geometry]: the node, then each entry of its ring. *)
Definition update_two_ring_geometry (t : Tri) (k : N) : Tri :=
  match triangulation_type t with
  | SPHERICAL_TRIANGULATION =>
      fold_left (fun t' nn => update_bulk_node_geometry t' nn) (ring_of t k)
                (update_bulk_node_geometry t k)
  | EXPERIMENTAL_PLANAR_TRIANGULATION =>
      let upd := fun t' nn => if is_boundary t' nn then update_boundary_node_geometry t' nn
                              else update_bulk_node_geometry t' nn in
      fold_left upd (ring_of t k) (upd t k)
  end.

(** [get_two_ring_geometry]. *)
Definition get_two_ring_geometry (t : Tri) (k : N) : Geometry :=
  fold_left (fun g nn => geometry_add g (geometry_of_node (node_at (nodes_ t) nn)))
            (ring_of t k) (geometry_of_node (node_at (nodes_ t) k)).

(** [update_global_geometry(lg_old, lg_new)]: [global += lg_new - lg_old]. *)
Definition update_global_geometry (t : Tri) (lg_old lg_new : Geometry) : Tri :=
  with_global t (geometry_add (global_geometry_ t) (geometry_sub lg_new lg_old)).

(** [Triangulation::move_node]. *)
Definition move_node (t : Tri) (k : N) (d : vec3) : Tri :=
  let pre := get_two_ring_geometry t k in
  let t1 := with_pre t pre in
  let t2 := with_nodes t1 (displace (nodes_ t1) k d) in
  let t3 := update_two_ring_geometry t2 k in
  let post := get_two_ring_geometry t3 k in
  let t4 := with_post t3 post in
  update_global_geometry t4 (pre_update_geometry t4) (post_update_geometry t4).

(** ** Bond flips *)

(** [Triangulation::emplace_before]. *)
Definition emplace_before (t : Tri) (center_node_id anchor_id new_value : N) : Tri :=
  let s := nodes_ t in
  let nd := node_at s center_node_id in
  let anchor_pos := find_index anchor_id (nn_ids nd) in
  with_nodes t (set_node s center_node_id (emplace_nn_id nd new_value (pos_of s new_value) anchor_pos)).

(** [delete_connection_between_nodes_of_old_edge]. *)
Definition delete_connection_between_nodes_of_old_edge (t : Tri) (old_node_id0 old_node_id1 : N) : Tri :=
  let s1 := set_node (nodes_ t) old_node_id0 (pop_nn (node_at (nodes_ t) old_node_id0) old_node_id1) in
  with_nodes t (set_node s1 old_node_id1 (pop_nn (node_at s1 old_node_id1) old_node_id0)).

(** [flip_bond_unchecked]. *)
Definition flip_bond_unchecked (t : Tri) (node_id nn_id common_nn_j_m_1 common_nn_j_p_1 : N)
    : Tri * BondFlipData :=
  let t1 := emplace_before t common_nn_j_m_1 node_id common_nn_j_p_1 in
  let t2 := emplace_before t1 common_nn_j_p_1 nn_id common_nn_j_m_1 in
  (delete_connection_between_nodes_of_old_edge t2 node_id nn_id,
   mkBondFlipData true common_nn_j_m_1 common_nn_j_p_1).

(** [previous_and_next_neighbour_global_ids] (through the local ids). *)
Definition previous_and_next_neighbour_global_ids (t : Tri) (node_id nn_id : N) : Neighbors :=
  let nn_ids_view := ring_of t node_id in
  let local_nn_id := find_index nn_id nn_ids_view in
  let nn_number := length nn_ids_view in
  mkNeighbors (nth (minus_one local_nn_id nn_number) nn_ids_view 0%N)
              (nth (plus_one local_nn_id nn_number) nn_ids_view 0%N).

(** [common_neighbours]: sort both rings, then [std::set_intersection]. *)
Definition common_neighbours (t : Tri) (node_id_0 node_id_1 : N) : list N :=
  set_intersection (sort_ids (ring_of t node_id_0)) (sort_ids (ring_of t node_id_1)).

Definition calculate_diamond_geometry (t : Tri) (node_id nn_id cnn_0 cnn_1 : N) : Geometry :=
  let g := fun k => geometry_of_node (node_at (nodes_ t) k) in
  geometry_add (geometry_add (geometry_add (g node_id) (g nn_id)) (g cnn_0)) (g cnn_1).

Definition update_diamond_geometry (t : Tri) (node_id nn_id cnn_0 cnn_1 : N) : Tri :=
  update_bulk_node_geometry
    (update_bulk_node_geometry
       (update_bulk_node_geometry (update_bulk_node_geometry t node_id) nn_id) cnn_0) cnn_1.

(** [flip_bond_in_quadrilateral]. *)
Definition flip_bond_in_quadrilateral (t : Tri) (node_id nn_id : N) (common_nns : Neighbors)
    (min_bond_length_square max_bond_length_square : R) : Tri * BondFlipData :=
  let cm := j_m_1 common_nns in
  let cp := j_p_1 common_nns in
  let bond_length_square := norm_square (vsub (pos_of (nodes_ t) cm) (pos_of (nodes_ t) cp)) in
  if (Rltb bond_length_square max_bond_length_square
      && Rltb min_bond_length_square bond_length_square)%bool then
    if Nat.eqb (length (common_neighbours t node_id nn_id)) 2 then
      let t1 := with_pre t (calculate_diamond_geometry t node_id nn_id cm cp) in
      let (t2, bfd) := flip_bond_unchecked t1 node_id nn_id cm cp in
      if Nat.eqb (length (common_neighbours t2 (common_nn_0 bfd) (common_nn_1 bfd))) 2 then
        let t3 := update_diamond_geometry t2 node_id nn_id cm cp in
        let t4 := with_post t3 (calculate_diamond_geometry t3 node_id nn_id cm cp) in
        (update_global_geometry t4 (pre_update_geometry t4) (post_update_geometry t4), bfd)
      else
        let (t3, _) := flip_bond_unchecked t2 (common_nn_0 bfd) (common_nn_1 bfd) nn_id node_id in
        (t3, mkBondFlipData false (common_nn_0 bfd) (common_nn_1 bfd))
    else (t, default_bfd)
  else (t, default_bfd).

(** [flip_bulk_bond]: the two degree checks; the body inside them is, line
    for line, the body of [flip_bond_in_quadrilateral] with the common
    neighbours taken from [previous_and_next_neighbour_global_ids]. *)
Definition flip_bulk_bond (t : Tri) (node_id nn_id : N)
    (min_bond_length_square max_bond_length_square : R) : Tri * BondFlipData :=
  if Nat.ltb BOND_DONATION_CUTOFF (length (ring_of t node_id)) then
    if Nat.ltb BOND_DONATION_CUTOFF (length (ring_of t nn_id)) then
      flip_bond_in_quadrilateral t node_id nn_id
        (previous_and_next_neighbour_global_ids t node_id nn_id)
        min_bond_length_square max_bond_length_square
    else (t, default_bfd)
  else (t, default_bfd).

(** [Triangulation::flip_bond]. *)
Definition flip_bond (t : Tri) (node_id nn_id : N)
    (min_bond_length_square max_bond_length_square : R) : Tri * BondFlipData :=
  match triangulation_type t with
  | SPHERICAL_TRIANGULATION =>
      flip_bulk_bond t node_id nn_id min_bond_length_square max_bond_length_square
  | EXPERIMENTAL_PLANAR_TRIANGULATION =>
      if (is_boundary t node_id || is_boundary t nn_id)%bool then (t, default_bfd)
      else
        let common_nns := previous_and_next_neighbour_global_ids t node_id nn_id in
        if (is_boundary t (j_m_1 common_nns) || is_boundary t (j_p_1 common_nns))%bool
        then (t, default_bfd)
        else flip_bond_in_quadrilateral t node_id nn_id common_nns
               min_bond_length_square max_bond_length_square
  end.

(** [Triangulation::unflip_bond]. *)
Definition unflip_bond (t : Tri) (node_id nn_id : N) (common_nns : BondFlipData) : Tri :=
  let (t1, _) := flip_bond_unchecked t (common_nn_0 common_nns) (common_nn_1 common_nns)
                   nn_id node_id in
  let t2 := update_diamond_geometry t1 node_id nn_id (common_nn_0 common_nns)
              (common_nn_1 common_nns) in
  update_global_geometry t2 (post_update_geometry t2) (pre_update_geometry t2).

(** ** Construction *)

Definition with_bulk (t : Tri) (b : list N) : Tri :=
  mkTri (triangulation_type t) (R_initial t) (nodes_ t) b (global_geometry_ t)
        (pre_update_geometry t) (post_update_geometry t) (verlet_radius t)
        (verlet_radius_squared t) (boundary_nodes_ids_set_ t).
Definition with_verlet_radius (t : Tri) (r r2 : R) : Tri :=
  mkTri (triangulation_type t) (R_initial t) (nodes_ t) (bulk_nodes_ids t) (global_geometry_ t)
        (pre_update_geometry t) (post_update_geometry t) r r2 (boundary_nodes_ids_set_ t).

(** [Nodes::set_nn_ids] and [Nodes::set_pos]. *)
Definition set_nn_ids (s : list Node) (k : N) (v : list N) : list Node :=
  set_node s k (set_nn_lists (node_at s k) v (nn_distances (node_at s k))).
Definition set_pos (s : list Node) (k : N) (p : vec3) : list Node :=
  set_node s k (set_pos_node (node_at s k) p).

(** The private constructor [Triangulation(verlet_radius_inp)]; the template
    argument [triangulation_type] is passed explicitly, and [R_initial],
    which this constructor leaves uninitialised, starts at [0]. *)
Definition triangulation_base (ty : TriangulationType) (verlet_radius_inp : R) : Tri :=
  mkTri ty 0 [] [] geometry_zero geometry_zero geometry_zero verlet_radius_inp 0 [].

Definition all_nodes_are_bulk (t : Tri) : Tri :=
  with_bulk t (bulk_nodes_ids t ++ map id (nodes_ t)).

Definition calculate_mass_center (s : list Node) : vec3 :=
  vdiv (fold_left (fun mc n => vadd mc (pos n)) s vzero) (INR (length s)).

Definition scale_all_nodes_to_R_init (t : Tri) : Tri :=
  let mass_center := calculate_mass_center (nodes_ t) in
  with_nodes t
    (fold_left (fun s i =>
        let diff := vsub (pos_of s (N.of_nat i)) mass_center in
        let diff' := vadd (vscale (R_initial t / norm diff) diff) mass_center in
        set_pos s (N.of_nat i) diff')
      (seq 0 (length (nodes_ t))) (nodes_ t)).

(** [two_common_neighbours]: the first two entries of the ring of
    [node_id_0] that are members of the ring of [node_id_1]; unfilled slots
    keep the sentinel. *)
Fixpoint two_common_loop (ring1 ring0 : list N) (res : N * N) (res_p : nat) : N * N :=
  match ring0 with
  | [] => res
  | n0_nn_id :: r =>
      if Nat.eqb res_p 2 then res
      else if is_member ring1 n0_nn_id
           then two_common_loop ring1 r
                  (if Nat.eqb res_p 0 then (n0_nn_id, snd res) else (fst res, n0_nn_id))
                  (S res_p)
           else two_common_loop ring1 r res res_p
  end.

Definition two_common_neighbours (t : Tri) (node_id_0 node_id_1 : N) : N * N :=
  two_common_loop (ring_of t node_id_1) (ring_of t node_id_0) (vln, vln) O.

(** [order_nn_ids]. *)
Definition order_nn_ids (t : Tri) (node_id : N) : list N :=
  let nn_ids' := ring_of t node_id in
  let c := two_common_neighbours t node_id (nth 0 nn_ids' 0%N) in
  fold_left (fun ordered_nn_ids _ =>
      let nn_id := last ordered_nn_ids 0%N in
      let c' := two_common_neighbours t node_id nn_id in
      if is_member ordered_nn_ids (fst c') then ordered_nn_ids ++ [snd c']
      else ordered_nn_ids ++ [fst c'])
    (seq 0 (length nn_ids' - 3)) [fst c; nth 0 nn_ids' 0%N; snd c].

(** [orient_surface_of_a_sphere]. *)
Definition orient_surface_of_a_sphere (t : Tri) : Tri :=
  let mass_center := calculate_mass_center (nodes_ t) in
  fold_left (fun t' i =>
      let k := N.of_nat i in
      let s := nodes_ t' in
      let nn_ids_temp := order_nn_ids t' k in
      let li0 := vsub (pos_of s (nth 0 nn_ids_temp 0%N)) (pos_of s k) in
      let li1 := vsub (pos_of s (nth 1 nn_ids_temp 0%N)) (pos_of s k) in
      let nn_ids_temp' :=
        if Rltb (dot (cross li0 li1) (vsub (pos_of s k) mass_center)) 0
        then rev nn_ids_temp else nn_ids_temp in
      with_nodes t' (set_nn_ids s k nn_ids_temp'))
    (seq 0 (length (nodes_ t))) t.

(** [std::vector::resize] of the distance vectors (new entries are zero). *)
Definition resize_vec (l : list vec3) (n : nat) : list vec3 :=
  firstn n l ++ repeat vzero (n - length l).

(** [initiate_distance_vectors]: the loop runs over the node vector and
    refreshes the node that carries the id of the current element. *)
Definition initiate_distance_vectors (t : Tri) : Tri :=
  fold_left (fun t' i =>
      let s := nodes_ t' in
      let nd := node_at s (N.of_nat i) in
      let t'' := with_nodes t' (set_node s (N.of_nat i)
                   (set_nn_lists nd (nn_ids nd) (resize_vec (nn_distances nd) (length (nn_ids nd))))) in
      update_nn_distance_vectors t'' (id nd))
    (seq 0 (length (nodes_ t))) t.

(** [make_global_geometry]. *)
Definition make_global_geometry (t : Tri) : Tri :=
  let empty := geometry_zero in
  let t0 := with_global t empty in
  let t1 := fold_left (fun t' k =>
               let t'' := update_bulk_node_geometry t' k in
               update_global_geometry t'' empty (geometry_of_node (node_at (nodes_ t'') k)))
             (bulk_nodes_ids t) t0 in
  fold_left (fun t' k =>
      let t'' := update_boundary_node_geometry t' k in
      update_global_geometry t'' empty (geometry_of_node (node_at (nodes_ t'') k)))
    (boundary_nodes_ids_set_ t) t1.

Definition set_verlet_radius (t : Tri) (r : R) : Tri := with_verlet_radius t r (r * r).

Definition push_verlet (s : list Node) (k : N) (x : N) : list Node :=
  set_node s k (set_verlet_node (node_at s k) (verlet_list (node_at s k) ++ [x])).

(** [make_verlet_list]: clear all lists, then every pair closer than the
    Verlet radius is entered into both lists. *)
Definition make_verlet_list (t : Tri) : Tri :=
  let s0 := map (fun n => set_verlet_node n []) (nodes_ t) in
  with_nodes t
    (fold_left (fun s i =>
        fold_left (fun s' j =>
            let p := N.of_nat i in
            let o := N.of_nat j in
            if Rltb (norm_square (vsub (pos_of s' p) (pos_of s' o))) (verlet_radius_squared t)
            then let s1 := push_verlet s' p (id (node_at s' o)) in
                 push_verlet s1 o (id (node_at s1 p))
            else s')
          (seq 0 i) s)
      (seq 0 (length s0)) s0).

Definition initiate_advanced_geometry (t : Tri) : Tri :=
  let t1 := make_global_geometry (initiate_distance_vectors t) in
  make_verlet_list (set_verlet_radius t1 (verlet_radius t1)).

(** The spherical constructor [Triangulation(n_nodes_iter, R_initial_input,
    verlet_radius_inp)]; [generated] is the node vector returned by
    [triangulate_sphere_nodes(n_nodes_iter)]. *)
Definition triangulation_sphere (generated : list Node) (R_initial_input verlet_radius_inp : R) : Tri :=
  let t0 := triangulation_base SPHERICAL_TRIANGULATION verlet_radius_inp in
  let t1 := mkTri SPHERICAL_TRIANGULATION R_initial_input generated (bulk_nodes_ids t0)
              (global_geometry_ t0) (pre_update_geometry t0) (post_update_geometry t0)
              (verlet_radius t0) (verlet_radius_squared t0) (boundary_nodes_ids_set_ t0) in
  initiate_advanced_geometry
    (orient_surface_of_a_sphere (scale_all_nodes_to_R_init (all_nodes_are_bulk t1))).

(** The constructor from stored node data [Triangulation(nodes_input,
    verlet_radius_inp)] (spherical only); [nodes_input] is the parsed node
    vector. *)
Definition triangulation_from_nodes (nodes_input : list Node) (verlet_radius_inp : R) : Tri :=
  initiate_advanced_geometry
    (all_nodes_are_bulk (with_nodes (triangulation_base SPHERICAL_TRIANGULATION verlet_radius_inp)
                                    nodes_input)).

(** ** The Monte Carlo updater (MonteCarloUpdater.hpp) *)

Record MC := mkMC {
  triangulation : Tri;
  e_old : R;
  e_new : R;
  e_diff : R;
  kBT_ : R;
  min_bond_length_square : R;
  max_bond_length_square : R;
  move_attempt : nat;
  bond_length_move_rejection : nat;
  move_back : nat;
  rng_draws : nat
}.

Section MonteCarloUpdater.

(** The user supplied energy function, with its parameters [prms] fixed. *)
Variable energy_function : Node -> Tri -> R.
(** [unif_distr_on_01(rng)]: the [n]-th draw of the generator. *)
Variable unif_draw : nat -> R.

(** [move_needs_undoing]; the uniform number is drawn only when the
    left operand of [&&] holds. *)
Definition move_needs_undoing (m : MC) : bool * MC :=
  let ed := e_old m - e_new m in
  let m1 := mkMC (triangulation m) (e_old m) (e_new m) ed (kBT_ m)
              (min_bond_length_square m) (max_bond_length_square m) (move_attempt m)
              (bond_length_move_rejection m) (move_back m) (rng_draws m) in
  if Rltb 0 (kBT_ m) then
    if Rltb ed 0 then
      (Rltb (exp (ed / kBT_ m)) (unif_draw (rng_draws m1)),
       mkMC (triangulation m1) (e_old m1) (e_new m1) (e_diff m1) (kBT_ m1)
            (min_bond_length_square m1) (max_bond_length_square m1) (move_attempt m1)
            (bond_length_move_rejection m1) (move_back m1) (S (rng_draws m1)))
    else (false, m1)
  else (Rltb ed 0, m1).

Definition new_next_neighbour_distances_are_between_min_and_max_length
    (m : MC) (node : Node) (displacement : vec3) : bool :=
  forallb (fun nn_dist =>
      let distance_square_new := norm_square (vsub nn_dist displacement) in
      let distance_square_old := norm_square nn_dist in
      negb ((Rltb (max_bond_length_square m) distance_square_new
             && Rltb distance_square_old (max_bond_length_square m))
            || (Rltb (min_bond_length_square m) distance_square_old
                && Rltb distance_square_new (min_bond_length_square m)))%bool)
    (nn_distances node).

Definition new_verlet_neighbour_distances_are_between_min_and_max_length
    (m : MC) (node : Node) (displacement : vec3) : bool :=
  let s := nodes_ (triangulation m) in
  forallb (fun verlet_neighbour_id =>
      let distance_square_new :=
        norm_square (vsub (vsub (pos_of s verlet_neighbour_id) (pos node)) displacement) in
      let distance_square_old := norm_square (vsub (pos_of s verlet_neighbour_id) (pos node)) in
      negb (Rltb distance_square_new (min_bond_length_square m)
            && Rltb (min_bond_length_square m) distance_square_old)%bool)
    (verlet_list node).

Definition new_neighbour_distances_are_between_min_and_max_length
    (m : MC) (node : Node) (displacement : vec3) : bool :=
  (new_next_neighbour_distances_are_between_min_and_max_length m node displacement
   && new_verlet_neighbour_distances_are_between_min_and_max_length m node displacement)%bool.

(** [move_MC_updater(node, displacement)]: the caller passes a reference to
    the node stored at position [node_ref] of the triangulation, so every read
    of [node] sees the current state of the mesh. *)
Definition move_MC_updater (m : MC) (node_ref : N) (displacement : vec3) : MC :=
  let node := fun (t : Tri) => node_at (nodes_ t) node_ref in
  let m0 := mkMC (triangulation m) (e_old m) (e_new m) (e_diff m) (kBT_ m)
              (min_bond_length_square m) (max_bond_length_square m) (S (move_attempt m))
              (bond_length_move_rejection m) (move_back m) (rng_draws m) in
  let t0 := triangulation m0 in
  if new_neighbour_distances_are_between_min_and_max_length m0 (node t0) displacement then
    let eo := energy_function (node t0) t0 in
    let t1 := move_node t0 (id (node t0)) displacement in
    let en := energy_function (node t1) t1 in
    let m1 := mkMC t1 eo en (e_diff m0) (kBT_ m0) (min_bond_length_square m0)
                (max_bond_length_square m0) (move_attempt m0)
                (bond_length_move_rejection m0) (move_back m0) (rng_draws m0) in
    let (undo, m2) := move_needs_undoing m1 in
    if undo then
      mkMC (move_node (triangulation m2) (id (node (triangulation m2))) (vneg displacement))
           (e_old m2) (e_new m2) (e_diff m2) (kBT_ m2) (min_bond_length_square m2)
           (max_bond_length_square m2) (move_attempt m2) (bond_length_move_rejection m2)
           (S (move_back m2)) (rng_draws m2)
    else m2
  else mkMC (triangulation m0) (e_old m0) (e_new m0) (e_diff m0) (kBT_ m0)
            (min_bond_length_square m0) (max_bond_length_square m0) (move_attempt m0)
            (S (bond_length_move_rejection m0)) (move_back m0) (rng_draws m0).

End MonteCarloUpdater.

(** ** Auxiliary definitions used by the proofs *)

(** The distance list left by the loop of [update_nn_distance_vectors]:
    entry [i + j] becomes [pos(ring[j]) - pk]. *)
Fixpoint write_distances (pk : vec3) (ps : list vec3) (ring : list N) (i : nat)
    (ds : list vec3) : list vec3 :=
  match ring with
  | [] => ds
  | nn :: r => write_distances pk ps r (S i) (list_set ds i (vsub (nth (N.to_nat nn) ps vzero) pk))
  end.

(** The node after [update_nn_distance_vectors], given all positions. *)
Definition refresh_node (ps : list vec3) (n : Node) : Node :=
  set_nn_lists n (nn_ids n) (write_distances (pos n) ps (nn_ids n) O (nn_distances n)).

(** The node after [update_bulk_node_geometry], given all positions. *)
Definition bulk_node (ps : list vec3) (n : Node) : Node :=
  let n' := refresh_node ps n in
  finish_node n' (ring_loop (nn_distances n') (length (nn_ids n'))).

(** Cyclic rotation of a list and of the ring of a node. *)
Definition rot {A} (m : nat) (l : list A) : list A := skipn m l ++ firstn m l.
Definition rotate_node (m : nat) (n : Node) : Node :=
  set_nn_lists n (rot m (nn_ids n)) (rot m (nn_distances n)).

(** The node update applied by [update_two_ring_geometry] to node [k]. *)
Definition two_ring_F (t : Tri) (k : N) : list vec3 -> Node -> Node :=
  match triangulation_type t with
  | SPHERICAL_TRIANGULATION => bulk_node
  | EXPERIMENTAL_PLANAR_TRIANGULATION =>
      if is_boundary t k then refresh_node else bulk_node
  end.

(** The rewrite of [flip_bond_unchecked] as the specification words it:
    [c+] goes before [b] in the ring of [c-], and [c-] before [a] in the
    ring of [c+].  This definition follows the wording of the
    specification, for comparison with the code's [flip_bond_unchecked]. *)
Definition flip_rewrite_as_specified (t : Tri) (a b cm cp : N) : Tri :=
  let t1 := emplace_before t cm b cp in
  let t2 := emplace_before t1 cp a cm in
  delete_connection_between_nodes_of_old_edge t2 a b.

(** ** Small meshes used as examples *)

(** A node with zero geometry, its ring, and the distance vectors to it. *)
Definition mesh_node (ps : list vec3) (k : nat) (ring : list N) : Node :=
  let p := nth k ps vzero in
  mkNode (N.of_nat k) 0 0 0 p vzero ring
         (map (fun j => vsub (nth (N.to_nat j) ps vzero) p) ring) [].

Definition mesh_of (ps : list vec3) (rings : list (list N)) : list Node :=
  map (fun kr => mesh_node ps (fst kr) (snd kr)) (combine (seq 0 (length rings)) rings).

(** The regular octahedron: nodes [+x, -x, +y, -y, +z, -z], every ring
    ordered counterclockwise seen from outside. *)
Definition octahedron_positions : list vec3 :=
  [mkV 1 0 0; mkV (-1) 0 0; mkV 0 1 0; mkV 0 (-1) 0; mkV 0 0 1; mkV 0 0 (-1)].

Definition octahedron_rings : list (list N) :=
  [[2;4;3;5]; [2;5;3;4]; [4;0;5;1]; [4;1;5;0]; [0;2;1;3]; [0;3;1;2]]%N.

Definition octahedron : Tri :=
  mkTri SPHERICAL_TRIANGULATION 1 (mesh_of octahedron_positions octahedron_rings)
        [0;1;2;3;4;5]%N geometry_zero geometry_zero geometry_zero 0 0 [].

(** An icosahedral mesh: node [0] on top, nodes [1..5] on an upper ring,
    nodes [6..10] on a lower ring (node [5+i] between [i] and [i+1]), node
    [11] at the bottom; every node has five neighbours and every ring is
    ordered counterclockwise seen from outside.  Its nodes carry the geometry
    [update_bulk_node_geometry] computes. *)
Definition ico_positions : list vec3 :=
  [mkV 0 0 3;
   mkV 2 0 1; mkV 1 2 1; mkV (-2) 1 1; mkV (-2) (-1) 1; mkV 1 (-2) 1;
   mkV 2 1 (-1); mkV 0 2 (-1); mkV (-2) 0 (-1); mkV 0 (-2) (-1); mkV 2 (-1) (-1);
   mkV 0 0 (-3)].

Definition ico_rings : list (list N) :=
  [[1;2;3;4;5];
   [0;5;10;6;2]; [0;1;6;7;3]; [0;2;7;8;4]; [0;3;8;9;5]; [0;4;9;10;1];
   [1;10;11;7;2]; [2;6;11;8;3]; [3;7;11;9;4]; [4;8;11;10;5]; [5;9;11;6;1];
   [10;9;8;7;6]]%N.

Definition ico : Tri :=
  mkTri SPHERICAL_TRIANGULATION 1
    (map (bulk_node ico_positions) (mesh_of ico_positions ico_rings))
    [0;1;2;3;4;5;6;7;8;9;10;11]%N geometry_zero geometry_zero geometry_zero 0 0 [].

(** ** The global geometry and the nodes' own geometry *)

(** The geometry [(area, volume, unit_bending_energy)] of the node [k]. *)
Definition node_geometry (s : list Node) (k : N) : Geometry := geometry_of_node (node_at s k).

(** The componentwise sum of [f] over a list of ids. *)
Definition gsum (f : N -> Geometry) (ks : list N) : Geometry :=
  fold_left (fun g k => geometry_add g (f k)) ks geometry_zero.

(** The componentwise sum of [(area, volume, unit_bending_energy)] over
    all nodes of the node vector. *)
Definition node_geometry_sum (s : list Node) : Geometry :=
  fold_left (fun g n => geometry_add g (geometry_of_node n)) s geometry_zero.

(** The stored global geometry is the sum over all nodes. *)
Definition geometry_consistent (t : Tri) : Prop :=
  global_geometry_ t = node_geometry_sum (nodes_ t).

(** The icosahedral mesh with its global geometry set to the sum over its
    nodes. *)
Definition ico_consistent : Tri := with_global ico (node_geometry_sum (nodes_ ico)).

(** The icosahedral mesh after the flip of the bond [0]-[1], and then after
    the flip of the bond [3]-[7] (both with the bond-length bounds [0] and
    [100]). *)
Definition ico_t1 : Tri := fst (flip_bond ico 0 1 0 100).

Definition ico_t2 : Tri := fst (flip_bond ico_t1 3 7 0 100).

(** [two_common_neighbour_positions]: the loop of [two_common_neighbours],
    storing [(Index)(pos - begin)] for the [std::find] in the ring of
    [node_id_1] instead of the id. *)
Fixpoint two_common_positions_loop (ring1 ring0 : list N) (res : N * N) (counter : nat) : N * N :=
  match ring0 with
  | [] => res
  | n0_nn_id :: r =>
      if Nat.eqb counter 2 then res
      else
        let p := find_index n0_nn_id ring1 in
        if Nat.ltb p (length ring1)
        then two_common_positions_loop ring1 r
               (if Nat.eqb counter 0 then (index_cast (Z.of_nat p), snd res)
                else (fst res, index_cast (Z.of_nat p)))
               (S counter)
        else two_common_positions_loop ring1 r res counter
  end.

Definition two_common_neighbour_positions (t : Tri) (node_id_0 node_id_1 : N) : N * N :=
  two_common_positions_loop (ring_of t node_id_1) (ring_of t node_id_0) (vln, vln) O.


(** [Triangulation::translate_all_nodes]: [move_node] of every node, in
    index order ([move_node] keeps [nodes_.size()], so the bound of the
    loop is the initial size). *)
Definition translate_all_nodes (t : Tri) (translation_vector : vec3) : Tri :=
  fold_left (fun t' i => move_node t' (N.of_nat i) translation_vector)
    (seq 0 (length (nodes_ t))) t.


(** [Triangulation::scale_node_coordinates]: the range-for over
    [nodes_.data] by reference, so each [node] is read in the current
    store; the displacement is computed from its current position and
    [move_node] is called with its id. *)
Definition scale_node_coordinates (t : Tri) (x_stretch y_stretch z_stretch : R) : Tri :=
  fold_left (fun t' i =>
      let node := nth i (nodes_ t') default_node in
      let displ := mkV (vx (pos node) * (x_stretch - 1)) (vy (pos node) * (y_stretch - 1))
                       (vz (pos node) * (z_stretch - 1)) in
      move_node t' (id node) displ)
    (seq 0 (length (nodes_ t))) t.


(** [Node::get_distance_vector_to]: [None] stands for the [exit(12)] taken
    when [nn_id] is not in the ring; the [nn_distances] access is unchecked
    in the source and reads [vzero] here past the end. *)
Definition get_distance_vector_to (n : Node) (nn_id : N) : option vec3 :=
  let id_pos := find_index nn_id (nn_ids n) in
  if Nat.ltb id_pos (length (nn_ids n)) then Some (nth id_pos (nn_distances n) vzero) else None.


(** Whether the nodes at indices [k] and [j] of a store are closer than
    [sqrt r2], as [make_verlet_list] tests it. *)
Definition verlet_close (s : list Node) (r2 : R) (k j : nat) : bool :=
  Rltb (norm_square (vsub (pos_of s (N.of_nat k)) (pos_of s (N.of_nat j)))) r2.


(** The flip counters of [MonteCarloUpdater], kept beside [MC]. *)
Record FlipCounters := mkFlipCounters {
  flip_attempt : nat;
  bond_length_flip_rejection : nat;
  flip_back : nat
}.

Section FlipMCUpdater.

Variable energy_function : Node -> Tri -> R.
Variable unif_draw : nat -> R.

(** [flip_MC_updater(node, id_in_nn_ids)]: as for [move_MC_updater], [node]
    is a reference to the node stored at [node_ref], read in the current
    mesh. *)
Definition flip_MC_updater (m : MC) (c : FlipCounters) (node_ref id_in_nn_ids : N) : MC * FlipCounters :=
  let node := fun (t : Tri) => node_at (nodes_ t) node_ref in
  let c0 := mkFlipCounters (S (flip_attempt c)) (bond_length_flip_rejection c) (flip_back c) in
  let t0 := triangulation m in
  let eo := energy_function (node t0) t0 in
  let (t1, bfd) := flip_bond t0 (id (node t0)) id_in_nn_ids
                     (min_bond_length_square m) (max_bond_length_square m) in
  if flipped bfd then
    let en := energy_function (node t1) t1 in
    let m1 := mkMC t1 eo en (e_diff m) (kBT_ m) (min_bond_length_square m)
                (max_bond_length_square m) (move_attempt m) (bond_length_move_rejection m)
                (move_back m) (rng_draws m) in
    let (undo, m2) := move_needs_undoing unif_draw m1 in
    if undo then
      (mkMC (unflip_bond (triangulation m2) (id (node (triangulation m2))) id_in_nn_ids bfd)
            (e_old m2) (e_new m2) (e_diff m2) (kBT_ m2) (min_bond_length_square m2)
            (max_bond_length_square m2) (move_attempt m2) (bond_length_move_rejection m2)
            (move_back m2) (rng_draws m2),
       mkFlipCounters (flip_attempt c0) (bond_length_flip_rejection c0) (S (flip_back c0)))
    else (m2, c0)
  else
    (mkMC t1 eo (e_new m) (e_diff m) (kBT_ m) (min_bond_length_square m)
          (max_bond_length_square m) (move_attempt m) (bond_length_move_rejection m)
          (move_back m) (rng_draws m),
     mkFlipCounters (flip_attempt c0) (S (bond_length_flip_rejection c0)) (flip_back c0)).

End FlipMCUpdater.


(** The image of [p] under the stretch [scale_node_coordinates] applies. *)
Definition stretch (xs ys zs : R) (p : vec3) : vec3 := mkV (vx p * xs) (vy p * ys) (vz p * zs).


(** One pass of the inner loop of [make_verlet_list]: node [m] and node
    [j] enter each other's Verlet list when closer than [sqrt r2]. *)
Definition verlet_step (r2 : R) (m : nat) (s' : list Node) (j : nat) : list Node :=
  let p := N.of_nat m in
  let o := N.of_nat j in
  if Rltb (norm_square (vsub (pos_of s' p) (pos_of s' o))) r2
  then let s1 := push_verlet s' p (id (node_at s' o)) in
       push_verlet s1 o (id (node_at s1 p))
  else s'.


Module JsonRead.
Import String Ascii.
Local Open Scope string_scope.
Local Open Scope Z_scope.

(** [std::string::npos], the largest [size_t] ([size_t] being 64 bits wide). *)
Definition npos : Z := 2 ^ 64 - 1.

(** Whether the character [c] is one of the characters of [chars]. *)
Fixpoint is_one_of (c : ascii) (chars : string) : bool :=
  match chars with
  | EmptyString => false
  | String d r => if Ascii.eqb c d then true else is_one_of c r
  end.

Fixpoint find_last_of_from (s chars : string) (i acc : Z) : Z :=
  match s with
  | EmptyString => acc
  | String c r => find_last_of_from r chars (i + 1) (if is_one_of c chars then i else acc)
  end.

(** [std::string::find_last_of(chars)]: the index of the last character of
    [s] that is any of [chars], or [npos]. *)
Definition find_last_of (s chars : string) : Z := find_last_of_from s chars 0 npos.

(** The file name [json_read] opens: [size() - 1] is computed in [size_t]. *)
Definition json_read_file_name (file_name : string) : string :=
  let pos_json := find_last_of file_name ".json" in
  let not_json := negb (Z.eqb ((Z.of_nat (String.length file_name) - 1) mod 2 ^ 64) pos_json) in
  if not_json then file_name ++ ".json" else file_name.

End JsonRead.

(** The members of [fp::implementation::PlanarTriangulation] that
    [triangulate_planar_nodes] reads (the class is not among the sources):
    the grid coordinates of an id, the neighbour ids of every node, and
    whether a node is in the bulk. *)
Record PlanarTriangulation := mkPlanarTriangulation {
  id_to_i : N -> N;
  id_to_j : N -> N;
  planar_nn_ids : list (list N);
  is_bulk : list bool
}.

Definition with_boundary (t : Tri) (b : list N) : Tri :=
  mkTri (triangulation_type t) (R_initial t) (nodes_ t) (bulk_nodes_ids t) (global_geometry_ t)
        (pre_update_geometry t) (post_update_geometry t) (verlet_radius t)
        (verlet_radius_squared t) b.

(** [std::set<Index>::insert] on the sorted, duplicate-free id list. *)
Definition set_insert (k : N) (l : list N) : list N :=
  if is_member l k then l else insert_sorted k l.

(** [Triangulation::triangulate_planar_nodes]; [triang] is the object built
    by [PlanarTriangulation(n_length, n_width)], [N_nodes] is computed in
    [Index], and the single [node{}] reused by the loop keeps its
    value-initialised area, volume, bending energy, curvature vector and
    distance and Verlet lists. *)
Definition triangulate_planar_nodes (t : Tri) (triang : PlanarTriangulation)
    (n_length n_width : N) (length width : R) : Tri :=
  let N_nodes := index_cast (Z.of_N (n_length * n_width)) in
  fold_left (fun t' i =>
      let node_id := N.of_nat i in
      let node := mkNode node_id 0 0 0
                    (mkV (IZR (Z.of_N (id_to_j triang node_id)) * length / IZR (Z.of_N n_length))
                         (IZR (Z.of_N (id_to_i triang node_id)) * width / IZR (Z.of_N n_width)) 0)
                    vzero (nth i (planar_nn_ids triang) []) [] [] in
      let t1 := with_nodes t' (nodes_ t' ++ [node]) in
      if nth i (is_bulk triang) false then with_bulk t1 (bulk_nodes_ids t1 ++ [node_id])
      else with_boundary t1 (set_insert node_id (boundary_nodes_ids_set_ t1)))
    (seq 0 (N.to_nat N_nodes)) t.

(** [orient_plane]: as [orient_surface_of_a_sphere], with the reference
    point raised by [10] along [z] and the boundary nodes skipped. *)
Definition orient_plane (t : Tri) : Tri :=
  let mc := calculate_mass_center (nodes_ t) in
  let mass_center := mkV (vx mc) (vy mc) (vz mc + 10) in
  fold_left (fun t' i =>
      let k := N.of_nat i in
      if is_boundary t' k then t'
      else
        let s := nodes_ t' in
        let nn_ids_temp := order_nn_ids t' k in
        let li0 := vsub (pos_of s (nth 0 nn_ids_temp 0%N)) (pos_of s k) in
        let li1 := vsub (pos_of s (nth 1 nn_ids_temp 0%N)) (pos_of s k) in
        let nn_ids_temp' :=
          if Rltb (dot (cross li0 li1) (vsub (pos_of s k) mass_center)) 0
          then rev nn_ids_temp else nn_ids_temp in
        with_nodes t' (set_nn_ids s k nn_ids_temp'))
    (seq 0 (List.length (nodes_ t))) t.

(** The planar constructor [Triangulation(n_length, n_width, length, width,
    verlet_radius_inp)]; [triang] is the [PlanarTriangulation] its call of
    [triangulate_planar_nodes] builds. *)
Definition triangulation_planar (triang : PlanarTriangulation) (n_length n_width : N)
    (length width verlet_radius_inp : R) : Tri :=
  initiate_advanced_geometry
    (orient_plane (triangulate_planar_nodes
       (triangulation_base EXPERIMENTAL_PLANAR_TRIANGULATION verlet_radius_inp)
       triang n_length n_width length width)).

(** A 3 x 3 grid: node [4] is the only bulk node. *)
Definition grid3 : PlanarTriangulation :=
  mkPlanarTriangulation (fun k => (k / 3)%N) (fun k => (k mod 3)%N)
    [[1;3;4]; [0;2;4;5]; [1;5]; [0;4;6;7]; [1;5;8;7;3;0]; [1;2;4;8]; [3;7]; [3;4;6;8]; [4;5;7]]%N
    [false; false; false; false; true; false; false; false; false].

(** * Proofs *)

(** ** Basic facts *)

Lemma Rltb_true (x y : R) : x < y -> Rltb x y = true.
Proof. intros H. unfold Rltb. destruct (Rlt_dec x y); [reflexivity | contradiction]. Qed.

Lemma Rltb_false (x y : R) : ~ x < y -> Rltb x y = false.
Proof. intros H. unfold Rltb. destruct (Rlt_dec x y); [contradiction | reflexivity]. Qed.

Lemma Rltb_spec (x y : R) : Rltb x y = true <-> x < y.
Proof. unfold Rltb. destruct (Rlt_dec x y); split; intros; auto; discriminate. Qed.

Lemma list_set_nth_same {A} (l : list A) (i : nat) (d : A) : list_set l i (nth i l d) = l.
Proof.
  revert i; induction l as [|x r IH]; intros [|i]; simpl; auto. rewrite IH; reflexivity.
Qed.

Lemma with_nodes_same (t : Tri) : with_nodes t (nodes_ t) = t.
Proof. destruct t; reflexivity. Qed.

Lemma set_node_same (s : list Node) (k : N) : set_node s k (node_at s k) = s.
Proof. apply list_set_nth_same. Qed.

(** ** C7: the mixed area rule *)

(** Claim C7: with both cotangents positive, [mixed_area] is the Voronoi
    area [(c_{j+1} |e_j|^2 + c_j |e_{j+1}|^2)/8] when [e_j . e_{j+1} > 0] and
    half the triangle area otherwise; with a cotangent [<= 0] it is a quarter
    of the triangle area. *)
Theorem mixed_area_rule (lij lij_p_1 : vec3) (T cj cj1 : R) :
  (0 < cj -> 0 < cj1 -> 0 < dot lij lij_p_1 ->
     mixed_area lij lij_p_1 T cj cj1 = (cj1 * norm_square lij + cj * norm_square lij_p_1) / 8) /\
  (0 < cj -> 0 < cj1 -> dot lij lij_p_1 <= 0 -> mixed_area lij lij_p_1 T cj cj1 = T / 2) /\
  (cj <= 0 \/ cj1 <= 0 -> mixed_area lij lij_p_1 T cj cj1 = T / 4).
Proof.
  unfold mixed_area, norm_square. repeat split.
  - intros H1 H2 H3. rewrite (Rltb_true _ _ H1), (Rltb_true _ _ H2), (Rltb_true _ _ H3).
    reflexivity.
  - intros H1 H2 H3. rewrite (Rltb_true _ _ H1), (Rltb_true _ _ H2).
    rewrite (Rltb_false 0 (dot lij lij_p_1)) by lra. reflexivity.
  - intros [H|H].
    + rewrite (Rltb_false 0 cj) by lra. reflexivity.
    + rewrite (Rltb_false 0 cj1) by lra. destruct (Rltb 0 cj); reflexivity.
Qed.

Lemma mixed_area_rule_witness :
  mixed_area (mkV 1 0 0) (mkV 1 1 0) 1 1 1 = (1 * norm_square (mkV 1 0 0) + 1 * norm_square (mkV 1 1 0)) / 8 /\
  mixed_area (mkV 1 0 0) (mkV (-1) 1 0) 1 1 1 = 1 / 2 /\
  mixed_area (mkV 1 0 0) (mkV 1 1 0) 1 (-1) 1 = 1 / 4.
Proof.
  split; [|split].
  - apply (proj1 (mixed_area_rule (mkV 1 0 0) (mkV 1 1 0) 1 1 1)); unfold dot; simpl; lra.
  - apply (proj1 (proj2 (mixed_area_rule (mkV 1 0 0) (mkV (-1) 1 0) 1 1 1))); unfold dot; simpl; lra.
  - apply (proj2 (proj2 (mixed_area_rule (mkV 1 0 0) (mkV 1 1 0) 1 (-1) 1))); lra.
Defined.

(** ** C10: emplacement out of range *)

Lemma find_index_le (x : N) (l : list N) : (find_index x l <= length l)%nat.
Proof. induction l as [|y r IH]; simpl; [lia|]. destruct (N.eqb y x); lia. Qed.

Lemma find_index_absent (x : N) (l : list N) : ~ In x l -> find_index x l = length l.
Proof.
  induction l as [|y r IH]; simpl; intros H; [reflexivity|].
  destruct (N.eqb_spec y x); [exfalso; auto|]. rewrite IH; auto.
Qed.

Lemma find_index_lt (x : N) (l : list N) : In x l -> (find_index x l < length l)%nat.
Proof.
  induction l as [|y r IH]; simpl; intros H; [contradiction|].
  destruct (N.eqb_spec y x); [lia|]. destruct H as [H|H]; [congruence|]. specialize (IH H); lia.
Qed.

(** Claim C10: [Node::emplace_nn_id] with an insertion index not below the
    ring length leaves the node (ids and distance vectors) unchanged, and
    [emplace_before] with an anchor that is not in the ring of the center
    node leaves the whole triangulation unchanged. *)
Theorem emplace_out_of_range_noop :
  (forall (n : Node) (x : N) (p : vec3) (loc : nat),
      (length (nn_ids n) <= loc)%nat -> emplace_nn_id n x p loc = n) /\
  (forall (t : Tri) (c anchor new_value : N),
      ~ In anchor (ring_of t c) -> emplace_before t c anchor new_value = t).
Proof.
  assert (E : forall (n : Node) (x : N) (p : vec3) (loc : nat),
             (length (nn_ids n) <= loc)%nat -> emplace_nn_id n x p loc = n).
  { intros n x p loc H. unfold emplace_nn_id.
    destruct (Nat.ltb_spec loc (length (nn_ids n))); [lia | reflexivity]. }
  split; [exact E|].
  intros t c anchor nv H. unfold emplace_before.
  rewrite E.
  - rewrite set_node_same. apply with_nodes_same.
  - unfold ring_of in H. rewrite find_index_absent by exact H. lia.
Qed.

Lemma emplace_out_of_range_noop_witness :
  emplace_nn_id (mkNode 0 0 0 0 vzero vzero [1%N] [vzero] []) 2%N vzero 1
    = mkNode 0 0 0 0 vzero vzero [1%N] [vzero] [] /\
  emplace_before (mkTri SPHERICAL_TRIANGULATION 0 [mkNode 0 0 0 0 vzero vzero [1%N] [vzero] []]
                    [] geometry_zero geometry_zero geometry_zero 0 0 []) 0 5 2
    = mkTri SPHERICAL_TRIANGULATION 0 [mkNode 0 0 0 0 vzero vzero [1%N] [vzero] []]
                    [] geometry_zero geometry_zero geometry_zero 0 0 [].
Proof.
  split.
  - apply (proj1 emplace_out_of_range_noop). simpl. lia.
  - apply (proj2 emplace_out_of_range_noop). simpl. intros [H|H]; [discriminate|contradiction].
Defined.

(** ** C8: planar flips next to the boundary *)

(** Claim C8: in planar mode, when either donor or either common neighbour
    (as found by [previous_and_next_neighbour_global_ids]) is a boundary
    node, [flip_bond] returns the default report (not flipped) and the
    triangulation unchanged. *)
Theorem flip_bond_planar_boundary_noop (t : Tri) (a b : N) (mn mx : R) :
  triangulation_type t = EXPERIMENTAL_PLANAR_TRIANGULATION ->
  (is_boundary t a = true \/ is_boundary t b = true \/
   is_boundary t (j_m_1 (previous_and_next_neighbour_global_ids t a b)) = true \/
   is_boundary t (j_p_1 (previous_and_next_neighbour_global_ids t a b)) = true) ->
  flip_bond t a b mn mx = (t, default_bfd) /\ flipped (snd (flip_bond t a b mn mx)) = false.
Proof.
  intros Hty Hb.
  assert (E : flip_bond t a b mn mx = (t, default_bfd)).
  { unfold flip_bond. rewrite Hty.
    destruct (is_boundary t a) eqn:Ea; [reflexivity|].
    destruct (is_boundary t b) eqn:Eb; [reflexivity|]. cbn [orb]. cbv zeta.
    destruct Hb as [H|[H|[H|H]]]; try discriminate; rewrite H;
      [reflexivity | rewrite Bool.orb_true_r; reflexivity]. }
  rewrite E. split; reflexivity.
Qed.

Lemma flip_bond_planar_boundary_noop_witness :
  let t := mkTri EXPERIMENTAL_PLANAR_TRIANGULATION 0
             [mkNode 0 0 0 0 vzero vzero [1%N] [vzero] []; mkNode 1 0 0 0 vzero vzero [0%N] [vzero] []]
             [] geometry_zero geometry_zero geometry_zero 0 0 [1%N] in
  flip_bond t 0 1 0 1 = (t, default_bfd) /\ flipped (snd (flip_bond t 0 1 0 1)) = false.
Proof.
  intros t. apply flip_bond_planar_boundary_noop; [reflexivity|].
  right; left. reflexivity.
Defined.

(** ** C2: the acceptance rule of a node move *)

(** Claim C2: once the bond length guard passes, [move_MC_updater] undoes the
    move (moves the node back by [-displacement] and counts a move back)
    exactly when either [kBT > 0], [dE = E_new - E_old > 0] and the uniform
    draw exceeds [exp (- dE / kBT)], or [kBT = 0] and [dE > 0]; otherwise the
    move is kept.  The node handed to the energy function is the node stored
    in the mesh. *)
Theorem move_MC_updater_undo_rule (E : Node -> Tri -> R) (u : nat -> R) (m : MC) (i : N) (d : vec3) :
  0 <= kBT_ m ->
  new_neighbour_distances_are_between_min_and_max_length m (node_at (nodes_ (triangulation m)) i) d = true ->
  let t0 := triangulation m in
  let t1 := move_node t0 (id (node_at (nodes_ t0) i)) d in
  let dE := E (node_at (nodes_ t1) i) t1 - E (node_at (nodes_ t0) i) t0 in
  let undo := (0 < kBT_ m /\ 0 < dE /\ exp (- dE / kBT_ m) < u (rng_draws m)) \/
              (kBT_ m = 0 /\ 0 < dE) in
  let m' := move_MC_updater E u m i d in
  (undo -> move_back m' = S (move_back m) /\
           triangulation m' = move_node t1 (id (node_at (nodes_ t1) i)) (vneg d)) /\
  (~ undo -> move_back m' = move_back m /\ triangulation m' = t1).
Proof.
  intros Hk Hg t0 t1 dE undo m'.
  destruct m as [tri eo en ed k mn mx ma br mb rd].
  cbn [triangulation kBT_ rng_draws move_back] in *.
  assert (Hg' : new_neighbour_distances_are_between_min_and_max_length
                  (mkMC tri eo en ed k mn mx (S ma) br mb rd) (node_at (nodes_ tri) i) d = true)
    by exact Hg.
  unfold m', move_MC_updater. cbv beta zeta.
  cbn [triangulation e_old e_new e_diff kBT_ min_bond_length_square max_bond_length_square
       move_attempt bond_length_move_rejection move_back rng_draws].
  rewrite Hg'. unfold move_needs_undoing.
  cbn [triangulation e_old e_new e_diff kBT_ min_bond_length_square max_bond_length_square
       move_attempt bond_length_move_rejection move_back rng_draws].
  fold t0 t1.
  assert (Hed : E (node_at (nodes_ t0) i) t0 - E (node_at (nodes_ t1) i) t1 = - dE)
    by (unfold dE; ring).
  rewrite Hed.
  destruct (Rlt_dec 0 k) as [Hk0|Hk0].
  - rewrite (Rltb_true _ _ Hk0).
    destruct (Rlt_dec (- dE) 0) as [Hd|Hd].
    + rewrite (Rltb_true _ _ Hd).
      destruct (Rlt_dec (exp (- dE / k)) (u rd)) as [Hu|Hu].
      * rewrite (Rltb_true _ _ Hu). cbn. split; [intros _; split; reflexivity|].
        intros Hn; exfalso; apply Hn; left; repeat split; lra.
      * rewrite (Rltb_false _ _ Hu). cbn. split.
        -- intros [[_ [_ H]]|[H _]]; [contradiction | lra].
        -- intros _; split; reflexivity.
    + rewrite (Rltb_false _ _ Hd). cbn. split.
      * intros [[_ [H _]]|[_ H]]; lra.
      * intros _; split; reflexivity.
  - rewrite (Rltb_false _ _ Hk0).
    destruct (Rlt_dec (- dE) 0) as [Hd|Hd].
    + rewrite (Rltb_true _ _ Hd). cbn. split; [intros _; split; reflexivity|].
      intros Hn; exfalso; apply Hn; right; split; lra.
    + rewrite (Rltb_false _ _ Hd). cbn. split.
      * intros [[H _]|[_ H]]; lra.
      * intros _; split; reflexivity.
Qed.

(** ** Lists: [list_set], [insert_at], [erase_at] *)

Lemma length_list_set {A} (l : list A) i x : length (list_set l i x) = length l.
Proof. revert i; induction l as [|y r IH]; intros [|i]; simpl; auto. Qed.

Lemma nth_list_set_eq {A} (l : list A) i x d : (i < length l)%nat -> nth i (list_set l i x) d = x.
Proof.
  revert i; induction l as [|y r IH]; intros [|i] H; simpl in *; try lia; auto.
  apply IH; lia.
Qed.

Lemma nth_list_set_neq {A} (l : list A) i j x d : i <> j -> nth j (list_set l i x) d = nth j l d.
Proof.
  revert i j; induction l as [|y r IH]; intros [|i] [|j] H; simpl; auto; try congruence.
Qed.

Lemma list_set_out {A} (l : list A) i x : (length l <= i)%nat -> list_set l i x = l.
Proof.
  revert i; induction l as [|y r IH]; intros [|i] H; simpl in *; auto; try lia.
  rewrite IH; auto; lia.
Qed.

Lemma list_set_list_set_same {A} (l : list A) i x y : list_set (list_set l i x) i y = list_set l i y.
Proof. revert i; induction l as [|z r IH]; intros [|i]; simpl; auto. rewrite IH; auto. Qed.

Lemma list_set_comm {A} (l : list A) i j x y :
  i <> j -> list_set (list_set l i x) j y = list_set (list_set l j y) i x.
Proof.
  revert i j; induction l as [|z r IH]; intros [|i] [|j] H; simpl; auto; try congruence.
  rewrite IH; auto.
Qed.

Lemma map_list_set {A B} (f : A -> B) (l : list A) i x :
  map f (list_set l i x) = list_set (map f l) i (f x).
Proof. revert i; induction l as [|z r IH]; intros [|i]; simpl; auto. rewrite IH; auto. Qed.

Lemma list_set_nth_map_same {A B} (f : A -> B) (l : list A) i x d :
  f x = f (nth i l d) -> map f (list_set l i x) = map f l.
Proof.
  revert i; induction l as [|z r IH]; intros [|i] H; simpl in *; auto.
  - rewrite H; auto.
  - rewrite IH; auto.
Qed.

Lemma length_insert_at {A} i (x : A) l : (i <= length l)%nat -> length (insert_at i x l) = S (length l).
Proof.
  intros H. unfold insert_at. rewrite length_app, firstn_length_le by lia. simpl.
  rewrite length_skipn. lia.
Qed.

Lemma length_erase_at {A} i (l : list A) : (i < length l)%nat -> length (erase_at i l) = pred (length l).
Proof.
  intros H. unfold erase_at. rewrite length_app, firstn_length_le, length_skipn by lia. lia.
Qed.

Lemma erase_insert_split {A} (l1 : list A) x r :
  firstn (length l1) (l1 ++ x :: r) ++ skipn (S (length l1)) (l1 ++ x :: r) = l1 ++ r.
Proof. induction l1 as [|y l1 IH]; [reflexivity|]. simpl length. cbn [firstn skipn app]. f_equal. exact IH. Qed.

Lemma erase_at_insert_at {A} i (x : A) l : (i <= length l)%nat -> erase_at i (insert_at i x l) = l.
Proof.
  intros H. unfold erase_at, insert_at.
  assert (Hl : length (firstn i l) = i) by (apply firstn_length_le; lia).
  remember (firstn i l) as l1. remember (skipn i l) as r.
  rewrite <- Hl. rewrite erase_insert_split. subst. apply firstn_skipn.
Qed.

(** ** The node store *)

Definition positions (s : list Node) : list vec3 := map pos s.

Lemma pos_of_positions (s : list Node) k : pos_of s k = nth (N.to_nat k) (positions s) vzero.
Proof.
  unfold pos_of, node_at, positions. change vzero with (pos default_node).
  rewrite map_nth. reflexivity.
Qed.

Lemma length_set_node s k n : length (set_node s k n) = length s.
Proof. apply length_list_set. Qed.

Lemma node_at_set_node_eq s k n : (N.to_nat k < length s)%nat -> node_at (set_node s k n) k = n.
Proof. apply nth_list_set_eq. Qed.

Lemma node_at_set_node_neq s k k' n : k <> k' -> node_at (set_node s k n) k' = node_at s k'.
Proof. intros H. apply nth_list_set_neq. intros E. apply H. lia. Qed.

Lemma set_node_out s k n : ~ (N.to_nat k < length s)%nat -> set_node s k n = s.
Proof. intros H. apply list_set_out. lia. Qed.

Lemma node_at_out s k : ~ (N.to_nat k < length s)%nat -> node_at s k = default_node.
Proof. intros H. apply nth_overflow. lia. Qed.

Lemma set_node_set_node s k n1 n2 : set_node (set_node s k n1) k n2 = set_node s k n2.
Proof. apply list_set_list_set_same. Qed.

Lemma set_node_comm s k k' n n' :
  k <> k' -> set_node (set_node s k n) k' n' = set_node (set_node s k' n') k n.
Proof. intros H. apply list_set_comm. intros E. apply H. lia. Qed.

Lemma positions_set_node s k n :
  pos n = pos (node_at s k) -> positions (set_node s k n) = positions s.
Proof. intros H. unfold positions, set_node. apply (list_set_nth_map_same pos s _ n default_node). exact H. Qed.

Lemma node_at_set_node s k k' n :
  (N.to_nat k < length s)%nat ->
  node_at (set_node s k n) k' = if N.eqb k k' then n else node_at s k'.
Proof.
  intros H. destruct (N.eqb_spec k k') as [<-|Hne].
  - apply node_at_set_node_eq; exact H.
  - apply node_at_set_node_neq; exact Hne.
Qed.

Lemma with_nodes_with_nodes t s1 s2 : with_nodes (with_nodes t s1) s2 = with_nodes t s2.
Proof. destruct t; reflexivity. Qed.

Lemma nodes_with_nodes t s : nodes_ (with_nodes t s) = s.
Proof. reflexivity. Qed.

Lemma set_nn_lists_twice n ids1 ds1 ids2 ds2 :
  set_nn_lists (set_nn_lists n ids1 ds1) ids2 ds2 = set_nn_lists n ids2 ds2.
Proof. destruct n; reflexivity. Qed.

Lemma vec3_eq (a b : vec3) : vx a = vx b -> vy a = vy b -> vz a = vz b -> a = b.
Proof. destruct a, b; simpl; intros; subst; reflexivity. Qed.
(** ** The distance refresh and the bulk update as node functions *)

Lemma refresh_loop_eq s k ring i :
  refresh_loop s k ring i =
  set_node s k (set_nn_lists (node_at s k) (nn_ids (node_at s k))
                  (write_distances (pos_of s k) (positions s) ring i (nn_distances (node_at s k)))).
Proof.
  revert s i. induction ring as [|nn r IH]; intros s i; simpl.
  - destruct (Nat.lt_ge_cases (N.to_nat k) (length s)) as [H|H].
    + replace (set_nn_lists (node_at s k) (nn_ids (node_at s k)) (nn_distances (node_at s k)))
        with (node_at s k) by (destruct (node_at s k); reflexivity).
      symmetry. apply set_node_same.
    + symmetry. apply set_node_out. lia.
  - rewrite IH. unfold set_nn_distance.
    destruct (Nat.lt_ge_cases (N.to_nat k) (length s)) as [H|H].
    + rewrite node_at_set_node_eq by exact H.
      rewrite !pos_of_positions.
      rewrite positions_set_node by reflexivity.
      rewrite set_node_set_node, set_nn_lists_twice. reflexivity.
    + rewrite !(set_node_out s k) by lia. reflexivity.
Qed.

Lemma update_nn_distance_vectors_eq t k :
  update_nn_distance_vectors t k =
  with_nodes t (set_node (nodes_ t) k (refresh_node (positions (nodes_ t)) (node_at (nodes_ t) k))).
Proof.
  unfold update_nn_distance_vectors, refresh_node, ring_of. rewrite refresh_loop_eq. reflexivity.
Qed.

Lemma update_bulk_node_geometry_eq t k :
  update_bulk_node_geometry t k =
  with_nodes t (set_node (nodes_ t) k (bulk_node (positions (nodes_ t)) (node_at (nodes_ t) k))).
Proof.
  unfold update_bulk_node_geometry. rewrite update_nn_distance_vectors_eq.
  rewrite nodes_with_nodes, with_nodes_with_nodes.
  destruct (Nat.lt_ge_cases (N.to_nat k) (length (nodes_ t))) as [H|H].
  - rewrite node_at_set_node_eq by exact H. rewrite set_node_set_node. reflexivity.
  - rewrite !(set_node_out (nodes_ t) k) by lia. reflexivity.
Qed.

Lemma update_boundary_node_geometry_eq t k :
  update_boundary_node_geometry t k =
  with_nodes t (set_node (nodes_ t) k (refresh_node (positions (nodes_ t)) (node_at (nodes_ t) k))).
Proof. apply update_nn_distance_vectors_eq. Qed.

(** ** Facts about [write_distances], [refresh_node] and [bulk_node] *)

Lemma length_write_distances pk ps ring i ds : length (write_distances pk ps ring i ds) = length ds.
Proof.
  revert i ds; induction ring as [|nn r IH]; intros i ds; simpl; auto.
  rewrite IH, length_list_set. reflexivity.
Qed.

Lemma write_distances_list_set pk ps ring i j ds v :
  (j < i)%nat ->
  list_set (write_distances pk ps ring i ds) j v = write_distances pk ps ring i (list_set ds j v).
Proof.
  revert i ds; induction ring as [|nn r IH]; intros i ds H; simpl; auto.
  rewrite IH by lia. rewrite list_set_comm by lia. reflexivity.
Qed.

Lemma write_distances_idem pk ps ring i ds :
  write_distances pk ps ring i (write_distances pk ps ring i ds) = write_distances pk ps ring i ds.
Proof.
  revert i ds; induction ring as [|nn r IH]; intros i ds; simpl; auto.
  rewrite write_distances_list_set by lia. rewrite list_set_list_set_same. apply IH.
Qed.

Lemma firstn_list_set_lt {A} (l : list A) i v :
  (i < length l)%nat -> firstn (S i) (list_set l i v) = firstn i l ++ [v].
Proof.
  revert i; induction l as [|x r IH]; intros [|i] H; simpl in *; try lia; auto.
  rewrite IH by lia. reflexivity.
Qed.

Lemma skipn_list_set_lt {A} (l : list A) i j v :
  (i < j)%nat -> skipn j (list_set l i v) = skipn j l.
Proof.
  revert i j; induction l as [|x r IH]; intros [|i] [|j] H; simpl in *; try lia; auto.
  apply IH; lia.
Qed.

Lemma write_distances_split pk ps ring i ds :
  (i + length ring <= length ds)%nat ->
  write_distances pk ps ring i ds =
  firstn i ds ++ map (fun nn => vsub (nth (N.to_nat nn) ps vzero) pk) ring ++ skipn (i + length ring) ds.
Proof.
  revert i ds; induction ring as [|nn r IH]; intros i ds H; simpl in *.
  - rewrite Nat.add_0_r, firstn_skipn. reflexivity.
  - rewrite IH by (rewrite length_list_set; lia).
    rewrite firstn_list_set_lt by lia. rewrite skipn_list_set_lt by lia.
    rewrite <- app_assoc. cbn [app]. replace (S i + length r)%nat with (i + S (length r))%nat by lia. reflexivity.
Qed.

Lemma write_distances_full pk ps ring ds :
  length ds = length ring ->
  write_distances pk ps ring O ds = map (fun nn => vsub (nth (N.to_nat nn) ps vzero) pk) ring.
Proof.
  intros H. rewrite write_distances_split by lia. simpl.
  rewrite <- H, skipn_all, app_nil_r. reflexivity.
Qed.

Lemma refresh_node_idem ps n : refresh_node ps (refresh_node ps n) = refresh_node ps n.
Proof.
  unfold refresh_node. destruct n; simpl. rewrite write_distances_idem. reflexivity.
Qed.

Lemma refresh_finish ps n acc : refresh_node ps (finish_node n acc) = finish_node (refresh_node ps n) acc.
Proof. destruct n; destruct acc as [[a f] l]; reflexivity. Qed.

Lemma finish_finish n a1 a2 : finish_node (finish_node n a1) a2 = finish_node n a2.
Proof. destruct n; destruct a1 as [[? ?] ?]; destruct a2 as [[? ?] ?]; reflexivity. Qed.

Lemma finish_node_fields n acc :
  id (finish_node n acc) = id n /\ pos (finish_node n acc) = pos n /\
  nn_ids (finish_node n acc) = nn_ids n /\ nn_distances (finish_node n acc) = nn_distances n /\
  verlet_list (finish_node n acc) = verlet_list n.
Proof. destruct n; destruct acc as [[? ?] ?]; repeat split. Qed.

Lemma bulk_node_idem ps n : bulk_node ps (bulk_node ps n) = bulk_node ps n.
Proof.
  unfold bulk_node at 1 2. cbv zeta.
  rewrite refresh_finish, refresh_node_idem.
  destruct (finish_node_fields (refresh_node ps n)
             (ring_loop (nn_distances (refresh_node ps n)) (length (nn_ids (refresh_node ps n)))))
    as (_ & _ & H3 & H4 & _).
  rewrite H3, H4, finish_finish. reflexivity.
Qed.

Lemma refresh_node_fields ps n :
  id (refresh_node ps n) = id n /\ pos (refresh_node ps n) = pos n /\
  nn_ids (refresh_node ps n) = nn_ids n /\ verlet_list (refresh_node ps n) = verlet_list n /\
  geometry_of_node (refresh_node ps n) = geometry_of_node n /\
  length (nn_distances (refresh_node ps n)) = length (nn_distances n).
Proof. destruct n; simpl. repeat split. apply length_write_distances. Qed.

Lemma bulk_node_fields ps n :
  id (bulk_node ps n) = id n /\ pos (bulk_node ps n) = pos n /\
  nn_ids (bulk_node ps n) = nn_ids n /\ verlet_list (bulk_node ps n) = verlet_list n /\
  length (nn_distances (bulk_node ps n)) = length (nn_distances n).
Proof.
  unfold bulk_node. cbv zeta.
  destruct (refresh_node_fields ps n) as (A & B & C & D & _ & F).
  destruct (finish_node_fields (refresh_node ps n)
             (ring_loop (nn_distances (refresh_node ps n)) (length (nn_ids (refresh_node ps n)))))
    as (A' & B' & C' & D' & E').
  rewrite A', B', C', D', E'. auto.
Qed.

(** ** A sequence of single node updates *)

Section UpdateFold.

Variable F : N -> list vec3 -> Node -> Node.
Hypothesis F_pos : forall k ps n, pos (F k ps n) = pos n.
Hypothesis F_idem : forall k ps n, F k ps (F k ps n) = F k ps n.

Definition upd_store (s : list Node) (k : N) : list Node :=
  set_node s k (F k (positions s) (node_at s k)).

Lemma upd_store_positions s k : positions (upd_store s k) = positions s.
Proof. unfold upd_store. apply positions_set_node. apply F_pos. Qed.

Lemma fold_upd_positions ks s : positions (fold_left upd_store ks s) = positions s.
Proof.
  revert s; induction ks as [|k ks IH]; intros s; simpl; auto.
  rewrite IH. apply upd_store_positions.
Qed.

Lemma fold_upd_length ks s : length (fold_left upd_store ks s) = length s.
Proof.
  revert s; induction ks as [|k ks IH]; intros s; simpl; auto.
  rewrite IH. apply length_set_node.
Qed.

Lemma fold_upd_node_at ks s x :
  (N.to_nat x < length s)%nat ->
  node_at (fold_left upd_store ks s) x =
  if is_member ks x then F x (positions s) (node_at s x) else node_at s x.
Proof.
  revert s; induction ks as [|k ks IH]; intros s Hx; simpl; auto.
  rewrite IH by (unfold upd_store; rewrite length_set_node; exact Hx).
  rewrite upd_store_positions. unfold upd_store, is_member. simpl.
  destruct (N.eqb_spec k x) as [<-|Hne].
  - rewrite node_at_set_node_eq by exact Hx. rewrite N.eqb_refl. simpl.
    destruct (existsb (N.eqb k) ks); auto.
  - rewrite node_at_set_node_neq by exact Hne.
    replace (N.eqb x k) with false by (symmetry; apply N.eqb_neq; congruence).
    reflexivity.
Qed.

Lemma fold_upd_node_at_out ks s x :
  ~ (N.to_nat x < length s)%nat -> node_at (fold_left upd_store ks s) x = node_at s x.
Proof.
  intros Hx. rewrite !node_at_out; auto. rewrite fold_upd_length. exact Hx.
Qed.

End UpdateFold.

(** ** Moving a node and moving it back *)

Lemma write_distances_overwrite pk pk' ps ps' ring i ds :
  write_distances pk ps ring i (write_distances pk' ps' ring i ds) = write_distances pk ps ring i ds.
Proof.
  revert i ds; induction ring as [|nn r IH]; intros i ds; simpl; auto.
  rewrite write_distances_list_set by lia. rewrite list_set_list_set_same. apply IH.
Qed.

Lemma refresh_node_absorb ps ps' n p' :
  refresh_node ps (set_pos_node (refresh_node ps' (set_pos_node n p')) (pos n)) = refresh_node ps n.
Proof.
  destruct n; unfold refresh_node, set_pos_node, set_nn_lists; simpl.
  rewrite write_distances_overwrite. reflexivity.
Qed.

Lemma bulk_node_absorb ps ps' n p' :
  bulk_node ps (set_pos_node (bulk_node ps' (set_pos_node n p')) (pos n)) = bulk_node ps n.
Proof.
  destruct n; unfold bulk_node, refresh_node, set_pos_node, set_nn_lists; simpl.
  destruct (ring_loop _ _) as [[a f] l]. simpl.
  rewrite write_distances_overwrite. reflexivity.
Qed.

Lemma two_ring_F_pos t k ps n : pos (two_ring_F t k ps n) = pos n.
Proof.
  unfold two_ring_F. destruct (triangulation_type t); [|destruct (is_boundary t k)];
    first [apply (bulk_node_fields ps n) | apply (refresh_node_fields ps n)].
Qed.

Lemma two_ring_F_idem t k ps n : two_ring_F t k ps (two_ring_F t k ps n) = two_ring_F t k ps n.
Proof.
  unfold two_ring_F. destruct (triangulation_type t); [|destruct (is_boundary t k)];
    first [apply bulk_node_idem | apply refresh_node_idem].
Qed.

Lemma two_ring_F_absorb t k ps ps' n p' :
  two_ring_F t k ps (set_pos_node (two_ring_F t k ps' (set_pos_node n p')) (pos n)) = two_ring_F t k ps n.
Proof.
  unfold two_ring_F. destruct (triangulation_type t); [|destruct (is_boundary t k)];
    first [apply bulk_node_absorb | apply refresh_node_absorb].
Qed.

Lemma set_pos_node_same n : set_pos_node n (pos n) = n.
Proof. destruct n; reflexivity. Qed.

Lemma set_pos_node_twice n p1 p2 : set_pos_node (set_pos_node n p1) p2 = set_pos_node n p2.
Proof. destruct n; reflexivity. Qed.

Lemma fold_tri (t0 : Tri) (G : Tri -> N -> Tri) (F : N -> list vec3 -> Node -> Node) :
  (forall s k, G (with_nodes t0 s) k = with_nodes t0 (upd_store F s k)) ->
  forall ks s, fold_left G ks (with_nodes t0 s) = with_nodes t0 (fold_left (upd_store F) ks s).
Proof.
  intros H ks. induction ks as [|k ks IH]; intros s; simpl; auto.
  rewrite H. apply IH.
Qed.

Lemma update_two_ring_geometry_eq t k :
  update_two_ring_geometry t k =
  with_nodes t (fold_left (upd_store (two_ring_F t)) (k :: ring_of t k) (nodes_ t)).
Proof.
  assert (Hb : forall s k', update_bulk_node_geometry (with_nodes t s) k' =
                with_nodes t (upd_store (fun _ => bulk_node) s k')).
  { intros s k'. rewrite update_bulk_node_geometry_eq, nodes_with_nodes, with_nodes_with_nodes.
    reflexivity. }
  unfold update_two_ring_geometry. destruct (triangulation_type t) eqn:Ht.
  - transitivity (fold_left (fun t' nn => update_bulk_node_geometry t' nn) (k :: ring_of t k) t);
      [reflexivity|].
    rewrite <- (with_nodes_same t) at 2.
    rewrite (fold_tri t _ (fun _ => bulk_node) Hb).
    f_equal. unfold two_ring_F. rewrite Ht. reflexivity.
  - set (upd := fun t' nn => if is_boundary t' nn then update_boundary_node_geometry t' nn
                             else update_bulk_node_geometry t' nn).
    transitivity (fold_left upd (k :: ring_of t k) t); [reflexivity|].
    rewrite <- (with_nodes_same t) at 2.
    rewrite (fold_tri t upd (two_ring_F t)).
    + reflexivity.
    + intros s k'. unfold upd. change (is_boundary (with_nodes t s) k') with (is_boundary t k').
      unfold upd_store, two_ring_F. rewrite Ht.
      destruct (is_boundary t k').
      * rewrite update_boundary_node_geometry_eq, nodes_with_nodes, with_nodes_with_nodes. reflexivity.
      * rewrite Hb. reflexivity.
Qed.

Lemma nn_ids_displace s k d x : nn_ids (node_at (displace s k d) x) = nn_ids (node_at s x).
Proof.
  unfold displace. destruct (Compare_dec.lt_dec (N.to_nat k) (length s)) as [Hk|Hk].
  - rewrite node_at_set_node by exact Hk. destruct (N.eqb_spec k x) as [<-|_]; reflexivity.
  - rewrite set_node_out by exact Hk. reflexivity.
Qed.

Lemma length_displace s k d : length (displace s k d) = length s.
Proof. apply length_set_node. Qed.

Lemma positions_displace s k d :
  positions (displace s k d) =
  list_set (positions s) (N.to_nat k) (vadd (nth (N.to_nat k) (positions s) vzero) d).
Proof.
  unfold displace, positions, set_node. rewrite map_list_set. simpl.
  fold (positions s). rewrite <- pos_of_positions. reflexivity.
Qed.

Lemma move_node_eq t k d :
  let s' := fold_left (upd_store (two_ring_F t)) (k :: ring_of t k) (displace (nodes_ t) k d) in
  move_node t k d =
  mkTri (triangulation_type t) (R_initial t) s' (bulk_nodes_ids t)
        (geometry_add (global_geometry_ t)
           (geometry_sub (get_two_ring_geometry (with_nodes t s') k) (get_two_ring_geometry t k)))
        (get_two_ring_geometry t k) (get_two_ring_geometry (with_nodes t s') k)
        (verlet_radius t) (verlet_radius_squared t) (boundary_nodes_ids_set_ t).
Proof.
  intros s'. unfold move_node. cbv zeta. rewrite update_two_ring_geometry_eq.
  set (t2 := with_nodes (with_pre t (get_two_ring_geometry t k))
               (displace (nodes_ (with_pre t (get_two_ring_geometry t k))) k d)).
  assert (Hr : ring_of t2 k = ring_of t k) by apply nn_ids_displace.
  rewrite Hr. reflexivity.
Qed.

Lemma get_two_ring_geometry_nodes t t' k :
  nodes_ t = nodes_ t' -> get_two_ring_geometry t k = get_two_ring_geometry t' k.
Proof. intros H. unfold get_two_ring_geometry, ring_of. rewrite H. reflexivity. Qed.

Lemma node_list_ext (s s' : list Node) :
  length s = length s' ->
  (forall x, (N.to_nat x < length s)%nat -> node_at s x = node_at s' x) -> s = s'.
Proof.
  intros Hl H. apply nth_ext with (d := default_node) (d' := default_node); auto.
  intros n Hn. specialize (H (N.of_nat n)). unfold node_at in H. rewrite Nat2N.id in H. auto.
Qed.

Lemma two_ring_F_absorb' t k ps ps' n : two_ring_F t k ps (two_ring_F t k ps' n) = two_ring_F t k ps n.
Proof.
  pose proof (two_ring_F_absorb t k ps ps' n (pos n)) as H.
  rewrite (set_pos_node_same n) in H.
  rewrite <- (two_ring_F_pos t k ps' n) in H. rewrite set_pos_node_same in H. exact H.
Qed.

Lemma vadd_vneg p d : vadd (vadd p d) (vneg d) = p.
Proof. apply vec3_eq; simpl; ring. Qed.

Lemma geometry_round_trip g a b :
  geometry_add (geometry_add g (geometry_sub b a)) (geometry_sub a b) = g.
Proof. destruct g, a, b. unfold geometry_add, geometry_sub; simpl. f_equal; ring. Qed.

Lemma two_ring_F_nn_ids t k ps n : nn_ids (two_ring_F t k ps n) = nn_ids n.
Proof.
  unfold two_ring_F. destruct (triangulation_type t); [|destruct (is_boundary t k)];
    first [apply (bulk_node_fields ps n) | apply (refresh_node_fields ps n)].
Qed.

Lemma fold_two_ring_nn_ids t ks s x :
  nn_ids (node_at (fold_left (upd_store (two_ring_F t)) ks s) x) = nn_ids (node_at s x).
Proof.
  destruct (Compare_dec.lt_dec (N.to_nat x) (length s)) as [Hx|Hx].
  - rewrite (fold_upd_node_at _ (two_ring_F_pos t) (two_ring_F_idem t)) by exact Hx.
    destruct (is_member ks x); [apply two_ring_F_nn_ids|reflexivity].
  - rewrite fold_upd_node_at_out by exact Hx. reflexivity.
Qed.

Lemma fold_two_ring_idem t ks s :
  fold_left (upd_store (two_ring_F t)) ks (fold_left (upd_store (two_ring_F t)) ks s) =
  fold_left (upd_store (two_ring_F t)) ks s.
Proof.
  apply node_list_ext.
  { rewrite !fold_upd_length. reflexivity. }
  intros x Hx. rewrite fold_upd_length in Hx.
  rewrite (fold_upd_node_at _ (two_ring_F_pos t) (two_ring_F_idem t)) by exact Hx.
  rewrite (fold_upd_positions _ (two_ring_F_pos t)).
  rewrite (fold_upd_node_at _ (two_ring_F_pos t) (two_ring_F_idem t))
    by (rewrite fold_upd_length in Hx; exact Hx).
  destruct (is_member ks x); [apply two_ring_F_idem|reflexivity].
Qed.

Lemma update_two_ring_geometry_idem t k :
  update_two_ring_geometry (update_two_ring_geometry t k) k = update_two_ring_geometry t k.
Proof.
  rewrite (update_two_ring_geometry_eq t k). rewrite update_two_ring_geometry_eq.
  rewrite with_nodes_with_nodes. f_equal.
  change (two_ring_F (with_nodes t ?s)) with (two_ring_F t).
  unfold ring_of at 1. rewrite nodes_with_nodes, fold_two_ring_nn_ids.
  apply fold_two_ring_idem.
Qed.

(** C9. Moving a node by [d] and then by [-d] gives back the node list and
    the global geometry, on a mesh whose stored geometry around the node is
    the one [update_two_ring_geometry] computes from the positions. *)
Theorem move_node_round_trip (t : Tri) (i : N) (d : vec3) :
  update_two_ring_geometry t i = t ->
  nodes_ (move_node (move_node t i d) i (vneg d)) = nodes_ t /\
  global_geometry_ (move_node (move_node t i d) i (vneg d)) = global_geometry_ t.
Proof.
  intros Hc.
  set (s := nodes_ t). set (F := two_ring_F t). set (U := i :: ring_of t i).
  assert (Hs : fold_left (upd_store F) U s = s).
  { rewrite update_two_ring_geometry_eq in Hc. apply (f_equal nodes_) in Hc. exact Hc. }
  assert (Hcoh : forall x, (N.to_nat x < length s)%nat -> is_member U x = true ->
                 F x (positions s) (node_at s x) = node_at s x).
  { intros x Hx Hm. transitivity (node_at (fold_left (upd_store F) U s) x); [|rewrite Hs; reflexivity].
    rewrite (fold_upd_node_at F (two_ring_F_pos t) (two_ring_F_idem t)) by exact Hx.
    rewrite Hm. reflexivity. }
  set (s1 := fold_left (upd_store F) U (displace s i d)).
  assert (E1 : move_node t i d =
     mkTri (triangulation_type t) (R_initial t) s1 (bulk_nodes_ids t)
        (geometry_add (global_geometry_ t)
           (geometry_sub (get_two_ring_geometry (with_nodes t s1) i) (get_two_ring_geometry t i)))
        (get_two_ring_geometry t i) (get_two_ring_geometry (with_nodes t s1) i)
        (verlet_radius t) (verlet_radius_squared t) (boundary_nodes_ids_set_ t))
    by apply move_node_eq.
  set (t1 := move_node t i d) in *.
  assert (HF1 : two_ring_F t1 = F) by (rewrite E1; reflexivity).
  assert (Hl1 : length s1 = length s).
  { unfold s1. rewrite fold_upd_length, length_displace. reflexivity. }
  assert (Hr1 : ring_of t1 i = ring_of t i).
  { unfold ring_of at 1. rewrite E1. cbn [nodes_].
    destruct (Compare_dec.lt_dec (N.to_nat i) (length s)) as [Hi|Hi].
    - unfold s1. rewrite (fold_upd_node_at F (two_ring_F_pos t) (two_ring_F_idem t)) by (rewrite length_displace; exact Hi).
      destruct (is_member U i).
      + unfold F, two_ring_F. destruct (triangulation_type t); [|destruct (is_boundary t i)];
          first [rewrite (proj1 (proj2 (proj2 (bulk_node_fields _ _))))
                |rewrite (proj1 (proj2 (proj2 (refresh_node_fields _ _))))];
          apply nn_ids_displace.
      + apply nn_ids_displace.
    - unfold ring_of. rewrite !node_at_out by (rewrite ?Hl1; exact Hi). reflexivity. }
  set (s2 := fold_left (upd_store F) U (displace s1 i (vneg d))).
  assert (E2 : move_node t1 i (vneg d) =
     mkTri (triangulation_type t1) (R_initial t1) s2 (bulk_nodes_ids t1)
        (geometry_add (global_geometry_ t1)
           (geometry_sub (get_two_ring_geometry (with_nodes t1 s2) i) (get_two_ring_geometry t1 i)))
        (get_two_ring_geometry t1 i) (get_two_ring_geometry (with_nodes t1 s2) i)
        (verlet_radius t1) (verlet_radius_squared t1) (boundary_nodes_ids_set_ t1)).
  { rewrite move_node_eq. rewrite HF1, Hr1. replace (nodes_ t1) with s1 by (rewrite E1; reflexivity).
    reflexivity. }
  assert (Hs2 : s2 = s).
  { destruct (Compare_dec.lt_dec (N.to_nat i) (length s)) as [Hi|Hi].
    2:{ unfold s2, s1, displace. rewrite (set_node_out s i) by exact Hi. rewrite Hs.
        rewrite (set_node_out s i) by exact Hi. exact Hs. }
    assert (Hp1 : positions s1 = positions (displace s i d)) by apply (fold_upd_positions F (two_ring_F_pos t)).
    assert (Hp2 : positions (displace s1 i (vneg d)) = positions s).
    { rewrite positions_displace, Hp1, positions_displace.
      rewrite nth_list_set_eq by (unfold positions; rewrite length_map; exact Hi).
      rewrite list_set_list_set_same, vadd_vneg. apply list_set_nth_same. }
    apply node_list_ext.
    { unfold s2. rewrite fold_upd_length, length_displace. exact Hl1. }
    intros x Hx.
    assert (Hx' : (N.to_nat x < length s)%nat)
      by (unfold s2 in Hx; rewrite fold_upd_length, length_displace, Hl1 in Hx; exact Hx).
    assert (Hn1 : forall y, (N.to_nat y < length s)%nat ->
              node_at s1 y = if is_member U y then F y (positions (displace s i d)) (node_at (displace s i d) y)
                             else node_at (displace s i d) y).
    { intros y Hy. unfold s1. apply (fold_upd_node_at F (two_ring_F_pos t) (two_ring_F_idem t)).
      rewrite length_displace; exact Hy. }
    unfold s2. rewrite (fold_upd_node_at F (two_ring_F_pos t) (two_ring_F_idem t))
      by (rewrite length_displace, Hl1; exact Hx').
    rewrite Hp2. unfold displace at 1. rewrite node_at_set_node by (rewrite Hl1; exact Hi).
    rewrite !Hn1 by assumption.
    unfold displace. rewrite !node_at_set_node by exact Hi.
    assert (HiU : is_member U i = true) by (unfold U, is_member; simpl; rewrite N.eqb_refl; reflexivity).
    destruct (N.eqb_spec i x) as [<-|Hne].
    - rewrite HiU, N.eqb_refl. unfold F. rewrite two_ring_F_pos. cbn [pos set_pos_node].
      rewrite vadd_vneg.
      rewrite two_ring_F_absorb. apply Hcoh; assumption.
    - destruct (is_member U x) eqn:Hm.
      + unfold F. rewrite two_ring_F_absorb'. apply Hcoh; assumption.
      + rewrite ?node_at_set_node_neq by exact Hne. rewrite ?Hn1 by assumption. rewrite ?Hm.
        unfold displace. rewrite ?node_at_set_node_neq by exact Hne. reflexivity. }
  split.
  - rewrite E2. exact Hs2.
  - rewrite E2. cbn [global_geometry_].
    rewrite (get_two_ring_geometry_nodes (with_nodes t1 s2) t) by (rewrite Hs2; reflexivity).
    rewrite (get_two_ring_geometry_nodes t1 (with_nodes t s1)) by (rewrite E1; reflexivity).
    rewrite E1. cbn [global_geometry_]. apply geometry_round_trip.
Qed.

(** ** The topology rewrite of a flip *)

Lemma find_index_app x l1 l2 : ~ In x l1 -> find_index x (l1 ++ x :: l2) = length l1.
Proof.
  induction l1 as [|y r IH]; intros H; simpl.
  - rewrite N.eqb_refl. reflexivity.
  - destruct (N.eqb_spec y x) as [->|_]; [exfalso; apply H; left; reflexivity|].
    rewrite IH by (intros Hi; apply H; right; exact Hi). reflexivity.
Qed.

Lemma insert_at_app {A} (l1 l2 : list A) x : insert_at (length l1) x (l1 ++ l2) = l1 ++ x :: l2.
Proof.
  unfold insert_at. rewrite firstn_app, skipn_app, Nat.sub_diag, firstn_all, skipn_all.
  simpl. rewrite app_nil_r. reflexivity.
Qed.

Lemma erase_at_app {A} (l1 l2 : list A) y : erase_at (length l1) (l1 ++ y :: l2) = l1 ++ l2.
Proof.
  unfold erase_at. rewrite firstn_app, Nat.sub_diag, firstn_all. simpl. rewrite app_nil_r.
  f_equal. induction l1 as [|z r IH]; simpl; auto.
Qed.

Lemma emplace_nn_id_app n a x p l1 l2 :
  nn_ids n = l1 ++ a :: l2 -> ~ In a l1 ->
  emplace_nn_id n x p (find_index a (nn_ids n)) =
  set_nn_lists n (l1 ++ x :: a :: l2) (insert_at (length l1) (vsub p (pos n)) (nn_distances n)).
Proof.
  intros H Ha. unfold emplace_nn_id. rewrite H, find_index_app by exact Ha.
  replace (Nat.ltb (length l1) (length (l1 ++ a :: l2))) with true
    by (symmetry; apply Nat.ltb_lt; rewrite length_app; simpl; lia).
  rewrite insert_at_app. reflexivity.
Qed.

Lemma pop_nn_app n b l1 l2 :
  nn_ids n = l1 ++ b :: l2 -> ~ In b l1 ->
  pop_nn n b = set_nn_lists n (l1 ++ l2) (erase_at (length l1) (nn_distances n)).
Proof.
  intros H Hb. unfold pop_nn. rewrite H, find_index_app by exact Hb.
  replace (Nat.ltb (length l1) (length (l1 ++ b :: l2))) with true
    by (symmetry; apply Nat.ltb_lt; rewrite length_app; simpl; lia).
  rewrite erase_at_app. reflexivity.
Qed.

Lemma pos_emplace_nn_id n x p loc : pos (emplace_nn_id n x p loc) = pos n.
Proof. unfold emplace_nn_id. destruct (Nat.ltb _ _); reflexivity. Qed.

Lemma pos_pop_nn n x : pos (pop_nn n x) = pos n.
Proof. unfold pop_nn. destruct (Nat.ltb _ _); reflexivity. Qed.

(** The node list after [flip_bond_unchecked], for four distinct ids. *)
Lemma flip_bond_unchecked_nodes t a b cm cp :
  NoDup [a; b; cm; cp] ->
  let s := nodes_ t in
  nodes_ (fst (flip_bond_unchecked t a b cm cp)) =
  set_node (set_node (set_node (set_node s
     cm (emplace_nn_id (node_at s cm) cp (pos_of s cp) (find_index a (nn_ids (node_at s cm)))))
     cp (emplace_nn_id (node_at s cp) cm (pos_of s cm) (find_index b (nn_ids (node_at s cp)))))
     a (pop_nn (node_at s a) b))
     b (pop_nn (node_at s b) a).
Proof.
  intros Hd s.
  assert (Hab : a <> b) by (intros ->; inversion Hd as [|? ? H1 _]; apply H1; simpl; auto).
  assert (Hacm : a <> cm) by (intros ->; inversion Hd as [|? ? H1 _]; apply H1; simpl; auto).
  assert (Hacp : a <> cp) by (intros ->; inversion Hd as [|? ? H1 _]; apply H1; simpl; auto).
  inversion Hd as [|? ? _ Hd1]; subst.
  assert (Hbcm : b <> cm) by (intros ->; inversion Hd1 as [|? ? H1 _]; apply H1; simpl; auto).
  assert (Hbcp : b <> cp) by (intros ->; inversion Hd1 as [|? ? H1 _]; apply H1; simpl; auto).
  inversion Hd1 as [|? ? _ Hd2]; subst.
  assert (Hcc : cm <> cp) by (intros ->; inversion Hd2 as [|? ? H1 _]; apply H1; simpl; auto).
  unfold flip_bond_unchecked, delete_connection_between_nodes_of_old_edge, emplace_before.
  cbn [fst nodes_ with_nodes]. unfold s.
  rewrite !node_at_set_node_neq by congruence.
  unfold pos_of at 2.
  destruct (Compare_dec.lt_dec (N.to_nat cm) (length (nodes_ t))) as [Hcm|Hcm].
  - rewrite node_at_set_node_eq by exact Hcm. rewrite pos_emplace_nn_id. reflexivity.
  - rewrite (set_node_out (nodes_ t) cm) by exact Hcm. reflexivity.
Qed.

Lemma ring_in_range s k : nn_ids (node_at s k) <> [] -> (N.to_nat k < length s)%nat.
Proof.
  intros H. destruct (Compare_dec.lt_dec (N.to_nat k) (length s)) as [Hk|Hk]; auto.
  exfalso. apply H. rewrite node_at_out by exact Hk. reflexivity.
Qed.

Lemma NoDup4 (a b c d : N) :
  NoDup [a; b; c; d] -> a <> b /\ a <> c /\ a <> d /\ b <> c /\ b <> d /\ c <> d.
Proof.
  intros H. inversion H as [|? ? Ha H1]; subst. inversion H1 as [|? ? Hb H2]; subst.
  inversion H2 as [|? ? Hc _]; subst. simpl in *.
  repeat split; intros ->; tauto.
Qed.

(** C5. The rewrite of [flip_bond_unchecked t a b cm cp]: [cp] is inserted
    into the ring of [cm] just before [a], [cm] into the ring of [cp] just
    before [b] (each with the distance vector to the new neighbour at the
    same position), the first [b] is removed from the ring of [a] and the
    first [a] from the ring of [b] (with their distance vectors); nothing
    else changes, and the report is [{true, cm, cp}]. *)
Theorem flip_bond_unchecked_rewrite (t : Tri) (a b cm cp : N) (l1 l2 m1 m2 p1 p2 q1 q2 : list N) :
  NoDup [a; b; cm; cp] ->
  ring_of t cm = l1 ++ a :: l2 -> ~ In a l1 ->
  ring_of t cp = m1 ++ b :: m2 -> ~ In b m1 ->
  ring_of t a = p1 ++ b :: p2 -> ~ In b p1 ->
  ring_of t b = q1 ++ a :: q2 -> ~ In a q1 ->
  let s := nodes_ t in
  let s' := nodes_ (fst (flip_bond_unchecked t a b cm cp)) in
  snd (flip_bond_unchecked t a b cm cp) = mkBondFlipData true cm cp /\
  node_at s' cm = set_nn_lists (node_at s cm) (l1 ++ cp :: a :: l2)
     (insert_at (length l1) (vsub (pos_of s cp) (pos_of s cm)) (nn_distances (node_at s cm))) /\
  node_at s' cp = set_nn_lists (node_at s cp) (m1 ++ cm :: b :: m2)
     (insert_at (length m1) (vsub (pos_of s cm) (pos_of s cp)) (nn_distances (node_at s cp))) /\
  node_at s' a = set_nn_lists (node_at s a) (p1 ++ p2)
     (erase_at (length p1) (nn_distances (node_at s a))) /\
  node_at s' b = set_nn_lists (node_at s b) (q1 ++ q2)
     (erase_at (length q1) (nn_distances (node_at s b))) /\
  (forall x, ~ In x [a; b; cm; cp] -> node_at s' x = node_at s x) /\
  length s' = length s.
Proof.
  intros Hd Hcm Hcm' Hcp Hcp' Ha Ha' Hb Hb'. cbv zeta. unfold ring_of in *.
  set (s := nodes_ t) in *. set (s' := nodes_ (fst (flip_bond_unchecked t a b cm cp))).
  destruct (NoDup4 _ _ _ _ Hd) as (Hab & Hacm & Hacp & Hbcm & Hbcp & Hcc).
  assert (Rcm : (N.to_nat cm < length s)%nat)
    by (apply ring_in_range; rewrite Hcm; destruct l1; discriminate).
  assert (Rcp : (N.to_nat cp < length s)%nat)
    by (apply ring_in_range; rewrite Hcp; destruct m1; discriminate).
  assert (Ra : (N.to_nat a < length s)%nat)
    by (apply ring_in_range; rewrite Ha; destruct p1; discriminate).
  assert (Rb : (N.to_nat b < length s)%nat)
    by (apply ring_in_range; rewrite Hb; destruct q1; discriminate).
  assert (Es : s' = set_node (set_node (set_node (set_node s
     cm (emplace_nn_id (node_at s cm) cp (pos_of s cp) (find_index a (nn_ids (node_at s cm)))))
     cp (emplace_nn_id (node_at s cp) cm (pos_of s cm) (find_index b (nn_ids (node_at s cp)))))
     a (pop_nn (node_at s a) b))
     b (pop_nn (node_at s b) a)) by (apply flip_bond_unchecked_nodes; exact Hd).
  split; [reflexivity|].
  rewrite Es. repeat split.
  - rewrite !node_at_set_node_neq by congruence.
    rewrite node_at_set_node_eq by exact Rcm.
    rewrite (emplace_nn_id_app _ a cp _ l1 l2 Hcm Hcm'). reflexivity.
  - rewrite !node_at_set_node_neq by congruence.
    rewrite node_at_set_node_eq by (rewrite length_set_node; exact Rcp).
    rewrite (emplace_nn_id_app _ b cm _ m1 m2 Hcp Hcp'). reflexivity.
  - rewrite node_at_set_node_neq by congruence.
    rewrite node_at_set_node_eq by (rewrite !length_set_node; exact Ra).
    apply (pop_nn_app _ b p1 p2 Ha Ha').
  - rewrite node_at_set_node_eq by (rewrite !length_set_node; exact Rb).
    apply (pop_nn_app _ a q1 q2 Hb Hb').
  - intros x Hx. simpl in Hx.
    rewrite !node_at_set_node_neq by (intros ->; tauto). reflexivity.
  - rewrite !length_set_node. reflexivity.
Qed.

Lemma flip_bond_unchecked_rewrite_witness :
  NoDup [0; 4; 2; 3]%N /\
  (let s' := nodes_ (fst (flip_bond_unchecked octahedron 0 4 2 3)) in
   node_at s' 2 = set_nn_lists (node_at (nodes_ octahedron) 2) ([4] ++ 3 :: 0 :: [5; 1])%N
     (insert_at 1 (vsub (pos_of (nodes_ octahedron) 3) (pos_of (nodes_ octahedron) 2))
        (nn_distances (node_at (nodes_ octahedron) 2)))).
Proof.
  assert (Hd : NoDup [0; 4; 2; 3]%N).
  { constructor; [simpl; intuition discriminate|].
    constructor; [simpl; intuition discriminate|].
    constructor; [simpl; intuition discriminate|].
    constructor; [simpl; tauto|constructor]. }
  split; [exact Hd|].
  exact (proj1 (proj2 (flip_bond_unchecked_rewrite octahedron 0 4 2 3
           [4]%N [5; 1]%N [] [1; 5; 0]%N [2]%N [3; 5]%N [] [2; 1; 3]%N Hd
           eq_refl (fun H => match H with or_introl E => ltac:(discriminate) | or_intror F => F end)
           eq_refl (fun H => H)
           eq_refl (fun H => match H with or_introl E => ltac:(discriminate) | or_intror F => F end)
           eq_refl (fun H => H)))).
Defined.

(** C5, the specification's wording against the code, on the octahedron:
    flipping the edge [(+x, +z)], whose ring at [+x] reads [+y, +z, -y],
    the code puts [-y] before [+x] in the ring of [+y]; the specification's
    order puts it before [+z]. *)
Lemma flip_rewrite_counterexample :
  ring_of octahedron 0 = [2; 4; 3; 5]%N /\
  ring_of octahedron 2 = [4; 0; 5; 1]%N /\
  ring_of (fst (flip_bond_unchecked octahedron 0 4 2 3)) 2 = [4; 3; 0; 5; 1]%N /\
  ring_of (flip_rewrite_as_specified octahedron 0 4 2 3) 2 = [3; 4; 0; 5; 1]%N /\
  fst (flip_bond_unchecked octahedron 0 4 2 3) <> flip_rewrite_as_specified octahedron 0 4 2 3.
Proof.
  split; [reflexivity|]. split; [reflexivity|]. split; [reflexivity|]. split; [reflexivity|].
  intros H. apply (f_equal (fun t => ring_of t 2)) in H.
  change (ring_of (fst (flip_bond_unchecked octahedron 0 4 2 3)) 2) with [4; 3; 0; 5; 1]%N in H.
  change (ring_of (flip_rewrite_as_specified octahedron 0 4 2 3) 2) with [3; 4; 0; 5; 1]%N in H.
  discriminate H.
Qed.

(** ** Rotating a ring does not change the node geometry *)

Lemma face_step_comm x y x' y' acc :
  face_step x y (face_step x' y' acc) = face_step x' y' (face_step x y acc).
Proof.
  destruct acc as [[a f] l]. unfold face_step. cbv zeta. f_equal; [f_equal|].
  - ring.
  - apply vec3_eq; simpl; ring.
  - apply vec3_eq; simpl; ring.
Qed.

Lemma fold_left_perm_comm {A B} (f : A -> B -> A) :
  (forall a x y, f (f a x) y = f (f a y) x) ->
  forall l l', Permutation l l' -> forall a, fold_left f l a = fold_left f l' a.
Proof.
  intros Hc l l' P. induction P; intros a; simpl; auto.
  - rewrite Hc. reflexivity.
  - rewrite IHP1. apply IHP2.
Qed.

Lemma fold_left_map_l {A B C} (f : A -> B -> A) (g : C -> B) l a :
  fold_left f (map g l) a = fold_left (fun acc x => f acc (g x)) l a.
Proof. revert a; induction l as [|x r IH]; intros a; simpl; auto. Qed.

(** The pairs of consecutive distance vectors visited by [ring_loop]. *)
Lemma ring_loop_pairs ds :
  ring_loop ds (length ds) =
  fold_left (fun acc p => face_step (fst p) (snd p) acc)
            (combine ds (tl ds ++ [hd vzero ds])) (0, vzero, vzero).
Proof.
  unfold ring_loop.
  assert (E : map (fun j => (nth j ds vzero, nth (plus_one j (length ds)) ds vzero)) (seq 0 (length ds)) =
              combine ds (tl ds ++ [hd vzero ds])).
  { destruct ds as [|x r]; [reflexivity|].
    apply nth_ext with (d := (vzero, vzero)) (d' := (vzero, vzero)).
    - rewrite length_map, length_seq, length_combine, length_app. cbn [length tl].
      rewrite Nat.min_l by lia. reflexivity.
    - intros j Hj. rewrite length_map, length_seq in Hj.
      set (f := fun j => (nth j (x :: r) vzero, nth (plus_one j (length (x :: r))) (x :: r) vzero)).
      rewrite (nth_indep (map f (seq 0 (length (x :: r)))) (vzero, vzero) (f O))
        by (rewrite length_map, length_seq; exact Hj).
      rewrite map_nth, seq_nth by exact Hj. unfold f. rewrite Nat.add_0_l. rewrite combine_nth by (cbn [tl length]; rewrite length_app; cbn [length]; lia).
      simpl tl. simpl hd. f_equal. unfold plus_one. cbn [length].
      replace (S (length r) - 1)%nat with (length r) by lia.
      destruct (Nat.ltb_spec j (length r)) as [H|H].
      + cbn [nth]. rewrite app_nth1 by lia. reflexivity.
      + assert (j = length r) by (cbn [length] in Hj; lia). subst j. rewrite nth_middle. reflexivity. }
  rewrite <- E. rewrite fold_left_map_l. reflexivity.
Qed.

Lemma combine_app {A B} (l1 l2 : list A) (m1 m2 : list B) :
  length l1 = length m1 -> combine (l1 ++ l2) (m1 ++ m2) = combine l1 m1 ++ combine l2 m2.
Proof.
  revert m1; induction l1 as [|x r IH]; intros [|y m1] H; simpl in *; try lia; auto.
  rewrite IH by lia. reflexivity.
Qed.

Lemma ring_loop_rot1 x r :
  ring_loop (r ++ [x]) (length (r ++ [x])) = ring_loop (x :: r) (length (x :: r)).
Proof.
  rewrite !ring_loop_pairs. symmetry. apply fold_left_perm_comm.
  { intros a p q. apply face_step_comm. }
  destruct r as [|y r'].
  - reflexivity.
  - change (Permutation (combine (x :: y :: r') ((y :: r') ++ [x]))
                        (combine ((y :: r') ++ [x]) ((r' ++ [x]) ++ [y]))).
    rewrite combine_app by (simpl; rewrite length_app; simpl; lia).
    change (combine (x :: y :: r') ((y :: r') ++ [x])) with ((x, y) :: combine (y :: r') (r' ++ [x])).
    apply Permutation_cons_append.
Qed.

Lemma rot_0 {A} (l : list A) : rot 0 l = l.
Proof. unfold rot. simpl. apply app_nil_r. Qed.

Lemma rot_ge {A} m (l : list A) : (length l <= m)%nat -> rot m l = l.
Proof. intros H. unfold rot. rewrite skipn_all2, firstn_all2 by exact H. reflexivity. Qed.

Lemma length_rot {A} m (l : list A) : length (rot m l) = length l.
Proof.
  unfold rot. rewrite length_app, length_skipn, length_firstn.
  destruct (Nat.le_gt_cases (length l) m); [rewrite Nat.min_r|rewrite Nat.min_l]; lia.
Qed.

Lemma rot_S {A} m (l : list A) :
  (m < length l)%nat -> exists y r, rot m l = y :: r /\ rot (S m) l = r ++ [y].
Proof.
  intros H. unfold rot.
  destruct (skipn m l) as [|y rest] eqn:E.
  - exfalso. apply (f_equal (@length A)) in E. rewrite length_skipn in E. simpl in E. lia.
  - exists y, (rest ++ firstn m l). split; [reflexivity|].
    assert (Hs : skipn (S m) l = rest).
    { replace (S m) with (1 + m)%nat by lia. rewrite <- skipn_skipn, E. reflexivity. }
    assert (Hf : firstn (S m) l = firstn m l ++ [y]).
    { rewrite <- (firstn_skipn m l) at 1. rewrite E.
      rewrite firstn_app, length_firstn, Nat.min_l by lia.
      rewrite firstn_firstn, Nat.min_r by lia. replace (S m - m)%nat with 1%nat by lia.
      reflexivity. }
    rewrite Hs, Hf, app_assoc. reflexivity.
Qed.

Lemma ring_loop_rot m ds : ring_loop (rot m ds) (length ds) = ring_loop ds (length ds).
Proof.
  induction m as [|m IH].
  - rewrite rot_0. reflexivity.
  - destruct (Nat.lt_ge_cases m (length ds)) as [H|H].
    + destruct (rot_S m ds H) as (y & r & E1 & E2).
      rewrite E2. rewrite <- IH. rewrite E1.
      rewrite <- (length_rot m ds), E1.
      replace (length (y :: r)) with (length (r ++ [y])) by (rewrite length_app; simpl; lia).
      rewrite ring_loop_rot1. replace (length (r ++ [y])) with (length (y :: r))
        by (rewrite length_app; simpl; lia). reflexivity.
    + rewrite rot_ge by lia. reflexivity.
Qed.

Lemma map_rot {A B} (f : A -> B) m l : map f (rot m l) = rot m (map f l).
Proof. unfold rot. rewrite map_app, firstn_map, skipn_map. reflexivity. Qed.

Lemma bulk_node_rotate ps m n :
  length (nn_distances n) = length (nn_ids n) ->
  bulk_node ps (rotate_node m n) = rotate_node m (bulk_node ps n).
Proof.
  intros H. destruct n as [i ar vo ub p cv ring ds vl]; simpl in H.
  unfold bulk_node, refresh_node, rotate_node, set_nn_lists. cbn [nn_ids nn_distances pos id area volume
    unit_bending_energy curvature_vec verlet_list].
  rewrite !write_distances_full by (rewrite ?length_rot; exact H).
  rewrite map_rot, length_rot.
  replace (length ring) with (length (map (fun nn => vsub (nth (N.to_nat nn) ps vzero) p) ring))
    by apply length_map.
  rewrite ring_loop_rot.
  destruct (ring_loop _ _) as [[a f] l]. reflexivity.
Qed.

Lemma bulk_node_ext ps n1 n2 :
  id n1 = id n2 -> pos n1 = pos n2 -> nn_ids n1 = nn_ids n2 -> verlet_list n1 = verlet_list n2 ->
  length (nn_distances n1) = length (nn_ids n1) -> length (nn_distances n2) = length (nn_ids n2) ->
  bulk_node ps n1 = bulk_node ps n2.
Proof.
  destruct n1 as [i ar vo ub p cv ring ds vl], n2 as [i' ar' vo' ub' p' cv' ring' ds' vl'].
  simpl. intros -> -> -> -> H1 H2.
  unfold bulk_node, refresh_node, set_nn_lists. cbn [nn_ids nn_distances pos id verlet_list].
  rewrite !write_distances_full by assumption. reflexivity.
Qed.

(** ** Rings after a flip and its undo *)

Lemma split_at_nth {A} (l : list A) i d :
  (i < length l)%nat -> l = firstn i l ++ nth i l d :: skipn (S i) l.
Proof.
  revert i; induction l as [|x r IH]; intros [|i] H; simpl in *; try lia; auto.
  f_equal. apply IH. lia.
Qed.

Lemma find_index_nth x l : In x l -> nth (find_index x l) l 0%N = x.
Proof.
  induction l as [|y r IH]; intros H; simpl in *; [contradiction|].
  destruct (N.eqb_spec y x) as [->|Hne]; auto.
  apply IH. destruct H; [congruence|auto].
Qed.

Lemma find_index_not_in_firstn x l : ~ In x (firstn (find_index x l) l).
Proof.
  induction l as [|y r IH]; simpl; auto.
  destruct (N.eqb_spec y x) as [->|Hne]; simpl; auto.
  intros [H|H]; [congruence|contradiction].
Qed.

Lemma find_index_split x l :
  In x l -> l = firstn (find_index x l) l ++ x :: skipn (S (find_index x l)) l.
Proof.
  intros H. rewrite <- (find_index_nth x l H) at 2. apply split_at_nth. apply find_index_lt. exact H.
Qed.

(** Inserting [y] before [a] and removing the first [y] again. *)
Lemma erase_insert_find l a y :
  In a l -> ~ In y l ->
  (find_index a l < length l)%nat /\
  find_index y (insert_at (find_index a l) y l) = find_index a l /\
  (find_index y (insert_at (find_index a l) y l) < length (insert_at (find_index a l) y l))%nat /\
  erase_at (find_index a l) (insert_at (find_index a l) y l) = l.
Proof.
  intros Ha Hy. pose proof (find_index_lt a l Ha) as Hlt.
  set (p := find_index a l) in *.
  assert (Hl1 : length (firstn p l) = p) by (rewrite length_firstn; lia).
  assert (Hins : insert_at p y l = firstn p l ++ y :: skipn p l) by reflexivity.
  assert (Hyf : ~ In y (firstn p l)) by (intros H; apply Hy; rewrite <- (firstn_skipn p l); apply in_or_app; left; exact H).
  split; [exact Hlt|].
  assert (Hf : find_index y (insert_at p y l) = p).
  { rewrite Hins. rewrite find_index_app by exact Hyf. exact Hl1. }
  split; [exact Hf|]. split.
  - rewrite Hf, length_insert_at by lia. lia.
  - rewrite Hins. rewrite <- Hl1 at 1. rewrite erase_at_app. apply firstn_skipn.
Qed.

(** Removing the entry at [i] and inserting it again before its successor
    gives the ring back, up to a rotation. *)
Lemma reinsert_rot (l : list N) i :
  NoDup l -> (i < length l)%nat -> (2 <= length l)%nat ->
  let y := nth (plus_one i (length l)) l 0%N in
  (find_index y (erase_at i l) < length (erase_at i l))%nat /\
  exists m, insert_at (find_index y (erase_at i l)) (nth i l 0%N) (erase_at i l) = rot m l.
Proof.
  intros Hnd Hi H2 y.
  pose proof (split_at_nth l i 0%N Hi) as Hs.
  set (l1 := firstn i l) in *. set (x := nth i l 0%N) in *. set (l2 := skipn (S i) l) in *.
  assert (Hl1 : length l1 = i) by (unfold l1; rewrite length_firstn; lia).
  assert (He : erase_at i l = l1 ++ l2) by reflexivity.
  assert (Hlen : length l = (length l1 + S (length l2))%nat) by (rewrite Hs at 1; rewrite length_app; reflexivity).
  rewrite He.
  destruct l2 as [|z l2'] eqn:E2.
  - (* [x] is the last entry: its successor is the first one *)
    assert (Hp : plus_one i (length l) = O).
    { unfold plus_one. destruct (Nat.ltb_spec i (length l - 1)); simpl in Hlen; lia. }
    unfold y. rewrite Hp.
    destruct l1 as [|w l1'] eqn:E1; [simpl in Hlen; lia|].
    assert (Hw : nth 0 l 0%N = w) by (rewrite Hs; reflexivity).
    rewrite Hw, app_nil_r. cbn [find_index]. rewrite N.eqb_refl.
    split; [simpl; lia|].
    exists i. unfold rot, insert_at. cbn [firstn skipn app].
    rewrite Hs. rewrite skipn_app, firstn_app. rewrite <- Hl1.
    rewrite skipn_all, firstn_all, Nat.sub_diag. simpl. rewrite app_nil_r. reflexivity.
  - (* the successor is the next entry *)
    assert (Hp : plus_one i (length l) = S i).
    { unfold plus_one. destruct (Nat.ltb_spec i (length l - 1)); simpl in Hlen; lia. }
    unfold y. rewrite Hp.
    assert (Hz : nth (S i) l 0%N = z).
    { rewrite Hs. rewrite app_nth2 by lia. rewrite Hl1. replace (S i - i)%nat with 1%nat by lia. reflexivity. }
    rewrite Hz.
    assert (Hzl1 : ~ In z l1).
    { rewrite Hs in Hnd. intros Hin.
      apply (NoDup_remove_2 (l1 ++ [x]) l2' z); [rewrite <- app_assoc; exact Hnd|].
      rewrite <- app_assoc. apply in_or_app. left. exact Hin. }
    rewrite find_index_app by exact Hzl1.
    split; [rewrite length_app; simpl; lia|].
    exists O. rewrite rot_0. rewrite insert_at_app. symmetry. exact Hs.
Qed.

Lemma pop_nn_fields n x :
  id (pop_nn n x) = id n /\ pos (pop_nn n x) = pos n /\ verlet_list (pop_nn n x) = verlet_list n /\
  nn_ids (pop_nn n x) =
    (if Nat.ltb (find_index x (nn_ids n)) (length (nn_ids n))
     then erase_at (find_index x (nn_ids n)) (nn_ids n) else nn_ids n) /\
  (length (nn_distances n) = length (nn_ids n) ->
   length (nn_distances (pop_nn n x)) = length (nn_ids (pop_nn n x))).
Proof.
  unfold pop_nn. destruct (Nat.ltb_spec (find_index x (nn_ids n)) (length (nn_ids n))) as [H|H];
    simpl; repeat split; auto.
  intros E. rewrite !length_erase_at by lia. lia.
Qed.

Lemma emplace_nn_id_fields n x p loc :
  id (emplace_nn_id n x p loc) = id n /\ pos (emplace_nn_id n x p loc) = pos n /\
  verlet_list (emplace_nn_id n x p loc) = verlet_list n /\
  nn_ids (emplace_nn_id n x p loc) =
    (if Nat.ltb loc (length (nn_ids n)) then insert_at loc x (nn_ids n) else nn_ids n) /\
  (length (nn_distances n) = length (nn_ids n) ->
   length (nn_distances (emplace_nn_id n x p loc)) = length (nn_ids (emplace_nn_id n x p loc))).
Proof.
  unfold emplace_nn_id. destruct (Nat.ltb_spec loc (length (nn_ids n))) as [H|H];
    simpl; repeat split; auto.
  intros E. rewrite !length_insert_at by lia. lia.
Qed.

Lemma flip_bond_unchecked_fst t a b c d :
  fst (flip_bond_unchecked t a b c d) = with_nodes t (nodes_ (fst (flip_bond_unchecked t a b c d))).
Proof. reflexivity. Qed.

Lemma positions_flip_bond_unchecked t a b c d :
  positions (nodes_ (fst (flip_bond_unchecked t a b c d))) = positions (nodes_ t).
Proof.
  unfold flip_bond_unchecked, delete_connection_between_nodes_of_old_edge, emplace_before.
  cbn [fst nodes_ with_nodes].
  rewrite !positions_set_node; auto; try apply pos_pop_nn; try apply pos_emplace_nn_id.
Qed.

Lemma length_flip_bond_unchecked t a b c d :
  length (nodes_ (fst (flip_bond_unchecked t a b c d))) = length (nodes_ t).
Proof.
  unfold flip_bond_unchecked, delete_connection_between_nodes_of_old_edge, emplace_before.
  cbn [fst nodes_ with_nodes]. rewrite !length_set_node. reflexivity.
Qed.

Lemma bulk_F_pos (k : N) ps n : pos ((fun _ : N => bulk_node) k ps n) = pos n.
Proof. apply (bulk_node_fields ps n). Qed.

Lemma bulk_F_idem (k : N) ps n :
  (fun _ : N => bulk_node) k ps ((fun _ : N => bulk_node) k ps n) = (fun _ : N => bulk_node) k ps n.
Proof. apply bulk_node_idem. Qed.

Lemma update_diamond_geometry_eq t a b c d :
  update_diamond_geometry t a b c d =
  with_nodes t (fold_left (upd_store (fun _ => bulk_node)) [a; b; c; d] (nodes_ t)).
Proof.
  transitivity (fold_left (fun t' k => update_bulk_node_geometry t' k) [a; b; c; d] t); [reflexivity|].
  rewrite <- (with_nodes_same t) at 1.
  apply fold_tri. intros s k. rewrite update_bulk_node_geometry_eq, nodes_with_nodes, with_nodes_with_nodes.
  reflexivity.
Qed.

(** A flip that reports success went through the success branch of
    [flip_bond_in_quadrilateral], with the neighbours before and after [b]
    in the ring of [a]. *)
Lemma flip_bond_in_quadrilateral_flipped t a b nb mn mx :
  flipped (snd (flip_bond_in_quadrilateral t a b nb mn mx)) = true ->
  let cm := j_m_1 nb in
  let cp := j_p_1 nb in
  let t1 := with_pre t (calculate_diamond_geometry t a b cm cp) in
  let t2 := fst (flip_bond_unchecked t1 a b cm cp) in
  let t3 := update_diamond_geometry t2 a b cm cp in
  let t4 := with_post t3 (calculate_diamond_geometry t3 a b cm cp) in
  flip_bond_in_quadrilateral t a b nb mn mx =
  (update_global_geometry t4 (pre_update_geometry t4) (post_update_geometry t4),
   mkBondFlipData true cm cp).
Proof.
  unfold flip_bond_in_quadrilateral. cbv zeta.
  destruct (_ && _)%bool; [|simpl; discriminate].
  destruct (Nat.eqb _ 2); [|simpl; discriminate].
  cbn [flip_bond_unchecked snd fst common_nn_0 common_nn_1].
  destruct (Nat.eqb _ 2); [reflexivity|simpl; discriminate].
Qed.

Lemma flip_bond_flipped t a b mn mx :
  flipped (snd (flip_bond t a b mn mx)) = true ->
  flip_bond t a b mn mx =
  flip_bond_in_quadrilateral t a b (previous_and_next_neighbour_global_ids t a b) mn mx.
Proof.
  unfold flip_bond. destruct (triangulation_type t).
  - unfold flip_bulk_bond.
    destruct (Nat.ltb _ _); [|simpl; discriminate].
    destruct (Nat.ltb _ _); [reflexivity|simpl; discriminate].
  - destruct (_ || _)%bool; [simpl; discriminate|]. cbv zeta.
    destruct (_ || _)%bool; [simpl; discriminate|reflexivity].
Qed.

Lemma ring_positions_distinct (l : list N) i :
  NoDup l -> (i < length l)%nat -> (3 <= length l)%nat ->
  let n := length l in
  nth (minus_one i n) l 0%N <> nth i l 0%N /\ nth (plus_one i n) l 0%N <> nth i l 0%N /\
  nth (minus_one i n) l 0%N <> nth (plus_one i n) l 0%N /\
  In (nth (minus_one i n) l 0%N) l /\ In (nth (plus_one i n) l 0%N) l.
Proof.
  intros Hnd Hi H3 n.
  assert (Hm : (minus_one i n < n)%nat)
    by (unfold minus_one; destruct (Nat.eqb_spec i 0); unfold n in *; lia).
  assert (Hp : (plus_one i n < n)%nat)
    by (unfold plus_one; destruct (Nat.ltb_spec i (n - 1)); unfold n in *; lia).
  assert (Hmi : minus_one i n <> i)
    by (unfold minus_one; destruct (Nat.eqb_spec i 0); unfold n in *; lia).
  assert (Hpi : plus_one i n <> i)
    by (unfold plus_one; destruct (Nat.ltb_spec i (n - 1)); unfold n in *; lia).
  assert (Hmp : minus_one i n <> plus_one i n)
    by (unfold minus_one, plus_one; destruct (Nat.eqb_spec i 0); destruct (Nat.ltb_spec i (n - 1));
        unfold n in *; lia).
  pose proof (proj1 (NoDup_nth l 0%N) Hnd) as Hinj.
  repeat split.
  - intros E. apply Hmi. apply Hinj; auto.
  - intros E. apply Hpi. apply Hinj; auto.
  - intros E. apply Hmp. apply Hinj; auto.
  - apply nth_In. exact Hm.
  - apply nth_In. exact Hp.
Qed.


Lemma node_at_in_range s k : nn_ids (node_at s k) <> [] -> (N.to_nat k < length s)%nat.
Proof.
  intros H. destruct (Compare_dec.lt_dec (N.to_nat k) (length s)) as [L|L]; auto.
  rewrite node_at_out in H by exact L. simpl in H. congruence.
Qed.

Lemma node_at_set4 s k1 k2 k3 k4 n1 n2 n3 n4 :
  NoDup [k1; k2; k3; k4] ->
  (forall k, In k [k1; k2; k3; k4] -> (N.to_nat k < length s)%nat) ->
  let s' := set_node (set_node (set_node (set_node s k1 n1) k2 n2) k3 n3) k4 n4 in
  length s' = length s /\ node_at s' k1 = n1 /\ node_at s' k2 = n2 /\ node_at s' k3 = n3 /\
  node_at s' k4 = n4 /\ (forall x, ~ In x [k1; k2; k3; k4] -> node_at s' x = node_at s x).
Proof.
  intros Hnd Hr s'.
  apply NoDup4 in Hnd. destruct Hnd as (H12 & H13 & H14 & H23 & H24 & H34).
  assert (R1 := Hr k1 ltac:(simpl; tauto)). assert (R2 := Hr k2 ltac:(simpl; tauto)).
  assert (R3 := Hr k3 ltac:(simpl; tauto)). assert (R4 := Hr k4 ltac:(simpl; tauto)).
  unfold s'. rewrite !length_set_node. split; [reflexivity|].
  repeat split.
  - rewrite !node_at_set_node_neq by congruence. apply node_at_set_node_eq. exact R1.
  - rewrite !node_at_set_node_neq by congruence. apply node_at_set_node_eq.
    rewrite length_set_node. exact R2.
  - rewrite !node_at_set_node_neq by congruence. apply node_at_set_node_eq.
    rewrite !length_set_node. exact R3.
  - apply node_at_set_node_eq. rewrite !length_set_node. exact R4.
  - intros x Hx. simpl in Hx. rewrite !node_at_set_node_neq by tauto. reflexivity.
Qed.

Lemma fold_bulk4 s k1 k2 k3 k4 x :
  (N.to_nat x < length s)%nat ->
  node_at (fold_left (upd_store (fun _ => bulk_node)) [k1; k2; k3; k4] s) x =
  if is_member [k1; k2; k3; k4] x then bulk_node (positions s) (node_at s x) else node_at s x.
Proof.
  intros Hx. exact (fold_upd_node_at (fun _ => bulk_node) bulk_F_pos bulk_F_idem _ s x Hx).
Qed.

Lemma is_member_true l x : In x l -> is_member l x = true.
Proof.
  intros H. unfold is_member. apply existsb_exists. exists x. split; [exact H|apply N.eqb_refl].
Qed.

Lemma is_member_false l x : ~ In x l -> is_member l x = false.
Proof.
  intros H. unfold is_member. destruct (existsb (N.eqb x) l) eqn:E; [|reflexivity].
  apply existsb_exists in E. destruct E as (y & Hy & Ey). apply N.eqb_eq in Ey. subst. contradiction.
Qed.

(** Removing [x] from a ring and inserting it again before the neighbour
    that followed it rotates the ring. *)
Lemma reinsert_node ps n x p :
  NoDup (nn_ids n) -> In x (nn_ids n) -> (2 <= length (nn_ids n))%nat ->
  length (nn_distances n) = length (nn_ids n) -> bulk_node ps n = n ->
  let l := nn_ids n in
  let y := nth (plus_one (find_index x l) (length l)) l 0%N in
  exists m, bulk_node ps (emplace_nn_id (bulk_node ps (pop_nn n x)) x p
                            (find_index y (nn_ids (bulk_node ps (pop_nn n x))))) = rotate_node m n.
Proof.
  intros Hnd Hx H2 Hsz Hcoh l y.
  pose proof (find_index_lt x l Hx) as Hi.
  destruct (reinsert_rot l (find_index x l) Hnd Hi H2) as [Hlt [m Hm]].
  fold y in Hlt, Hm. rewrite (find_index_nth x l Hx) in Hm.
  destruct (pop_nn_fields n x) as (P1 & P2 & P3 & P4 & P5).
  fold l in P4. destruct (Nat.ltb_spec (find_index x l) (length l)) as [_|]; [|lia].
  destruct (bulk_node_fields ps (pop_nn n x)) as (B1 & B2 & B3 & B4 & B5).
  set (n1 := bulk_node ps (pop_nn n x)) in *.
  assert (L1 : nn_ids n1 = erase_at (find_index x l) l) by (rewrite B3; exact P4).
  destruct (emplace_nn_id_fields n1 x p (find_index y (nn_ids n1))) as (E1 & E2 & E3 & E4 & E5).
  rewrite L1 in E1, E2, E3, E4, E5. destruct (Nat.ltb_spec (find_index y (erase_at (find_index x l) l))
                                (length (erase_at (find_index x l) l))) as [_|]; [|lia].
  exists m.
  transitivity (bulk_node ps (rotate_node m n)).
  2:{ rewrite (bulk_node_rotate ps m n Hsz), Hcoh. reflexivity. }
  rewrite L1. apply bulk_node_ext.
  - rewrite E1, B1, P1. reflexivity.
  - rewrite E2, B2, P2. reflexivity.
  - rewrite E4, Hm. reflexivity.
  - rewrite E3, B4, P3. reflexivity.
  - apply E5. rewrite B5, (P5 Hsz), P4. reflexivity.
  - unfold rotate_node, set_nn_lists. simpl. rewrite !length_rot. exact Hsz.
Qed.

(** Inserting [y] before [x] and removing it again gives the ring back. *)
Lemma restore_node ps n x y p :
  In x (nn_ids n) -> ~ In y (nn_ids n) ->
  length (nn_distances n) = length (nn_ids n) -> bulk_node ps n = n ->
  bulk_node ps (pop_nn (bulk_node ps (emplace_nn_id n y p (find_index x (nn_ids n)))) y) = n.
Proof.
  intros Hx Hy Hsz Hcoh.
  destruct (erase_insert_find (nn_ids n) x y Hx Hy) as (Hlt & Hf & Hlt2 & He).
  destruct (emplace_nn_id_fields n y p (find_index x (nn_ids n))) as (E1 & E2 & E3 & E4 & E5).
  destruct (Nat.ltb_spec (find_index x (nn_ids n)) (length (nn_ids n))) as [_|]; [|lia].
  set (n1 := emplace_nn_id n y p (find_index x (nn_ids n))) in *.
  destruct (bulk_node_fields ps n1) as (B1 & B2 & B3 & B4 & B5).
  set (n2 := bulk_node ps n1) in *.
  destruct (pop_nn_fields n2 y) as (P1 & P2 & P3 & P4 & P5).
  rewrite B3, E4, Hf in P4.
  destruct (Nat.ltb_spec (find_index x (nn_ids n)) (length (insert_at (find_index x (nn_ids n)) y (nn_ids n))))
    as [_|]; [|lia].
  rewrite He in P4.
  transitivity (bulk_node ps n); [|exact Hcoh]. apply bulk_node_ext.
  - rewrite P1, B1, E1. reflexivity.
  - rewrite P2, B2, E2. reflexivity.
  - exact P4.
  - rewrite P3, B4, E3. reflexivity.
  - apply P5. rewrite B5, B3. apply E5. exact Hsz.
  - exact Hsz.
Qed.
Lemma fields_flip_bond_unchecked T a b c d :
  global_geometry_ (fst (flip_bond_unchecked T a b c d)) = global_geometry_ T /\
  pre_update_geometry (fst (flip_bond_unchecked T a b c d)) = pre_update_geometry T /\
  post_update_geometry (fst (flip_bond_unchecked T a b c d)) = post_update_geometry T.
Proof. rewrite flip_bond_unchecked_fst. repeat split. Qed.

Lemma fields_update_diamond_geometry T a b c d :
  global_geometry_ (update_diamond_geometry T a b c d) = global_geometry_ T /\
  pre_update_geometry (update_diamond_geometry T a b c d) = pre_update_geometry T /\
  post_update_geometry (update_diamond_geometry T a b c d) = post_update_geometry T.
Proof. rewrite update_diamond_geometry_eq. repeat split. Qed.

Lemma unflip_bond_global T a b bfd :
  global_geometry_ (unflip_bond T a b bfd) =
  geometry_add (global_geometry_ T) (geometry_sub (pre_update_geometry T) (post_update_geometry T)).
Proof.
  unfold unflip_bond.
  destruct (flip_bond_unchecked T (common_nn_0 bfd) (common_nn_1 bfd) b a) as [T6 x] eqn:E6.
  assert (ET6 : T6 = fst (flip_bond_unchecked T (common_nn_0 bfd) (common_nn_1 bfd) b a))
    by (rewrite E6; reflexivity).
  clear E6.
  unfold update_global_geometry, with_global. cbn [global_geometry_].
  destruct (fields_update_diamond_geometry T6 a b (common_nn_0 bfd) (common_nn_1 bfd)) as (G1 & G2 & G3).
  rewrite G1, G2, G3, ET6.
  destruct (fields_flip_bond_unchecked T (common_nn_0 bfd) (common_nn_1 bfd) b a) as (F1 & F2 & F3).
  rewrite F1, F2, F3. reflexivity.
Qed.

Lemma fields_update_global_geometry T x y :
  global_geometry_ (update_global_geometry T x y) = geometry_add (global_geometry_ T) (geometry_sub y x) /\
  pre_update_geometry (update_global_geometry T x y) = pre_update_geometry T /\
  post_update_geometry (update_global_geometry T x y) = post_update_geometry T.
Proof. repeat split. Qed.

Lemma fields_with_pre T g :
  global_geometry_ (with_pre T g) = global_geometry_ T /\ pre_update_geometry (with_pre T g) = g.
Proof. split; reflexivity. Qed.

Lemma fields_with_post T g :
  global_geometry_ (with_post T g) = global_geometry_ T /\
  pre_update_geometry (with_post T g) = pre_update_geometry T /\ post_update_geometry (with_post T g) = g.
Proof. repeat split. Qed.

Lemma flip_bond_global t a b mn mx :
  flipped (snd (flip_bond t a b mn mx)) = true ->
  global_geometry_ (fst (flip_bond t a b mn mx)) =
  geometry_add (global_geometry_ t)
    (geometry_sub (post_update_geometry (fst (flip_bond t a b mn mx)))
                  (pre_update_geometry (fst (flip_bond t a b mn mx)))).
Proof.
  intros Hfl. rewrite (flip_bond_flipped t a b mn mx Hfl) in Hfl |- *.
  rewrite (flip_bond_in_quadrilateral_flipped t a b _ mn mx Hfl). cbv zeta. cbn [fst].
  set (cm := j_m_1 _). set (cp := j_p_1 _).
  set (T1 := with_pre t _).
  set (T3 := update_diamond_geometry _ a b cm cp).
  set (T4 := with_post T3 _).
  destruct (fields_update_global_geometry T4 (pre_update_geometry T4) (post_update_geometry T4))
    as (U1 & U2 & U3).
  rewrite U1, U2, U3.
  destruct (fields_with_post T3 (calculate_diamond_geometry T3 a b cm cp)) as (W1 & _).
  unfold T4. rewrite W1. unfold T3.
  destruct (fields_update_diamond_geometry (fst (flip_bond_unchecked T1 a b cm cp)) a b cm cp)
    as (G1 & _).
  rewrite G1.
  destruct (fields_flip_bond_unchecked T1 a b cm cp) as (F1 & _).
  rewrite F1. unfold T1. rewrite (proj1 (fields_with_pre _ _)). reflexivity.
Qed.

(** The node list and the global geometry after a flip and its immediate
    unflip. *)
Lemma flip_unflip_nodes_rotated (t : Tri) (a b : N) (mn mx : R) :
  let nb := previous_and_next_neighbour_global_ids t a b in
  let cm := j_m_1 nb in
  let cp := j_p_1 nb in
  let s := nodes_ t in
  NoDup (a :: ring_of t a) -> In b (ring_of t a) -> (3 <= length (ring_of t a))%nat ->
  NoDup (ring_of t b) -> In a (ring_of t b) ->
  nth (plus_one (find_index a (ring_of t b)) (length (ring_of t b))) (ring_of t b) 0%N = cm ->
  In a (ring_of t cm) -> ~ In cp (ring_of t cm) ->
  In b (ring_of t cp) -> ~ In cm (ring_of t cp) ->
  (forall k, In k [a; b; cm; cp] ->
     length (nn_distances (node_at s k)) = length (nn_ids (node_at s k)) /\
     bulk_node (positions s) (node_at s k) = node_at s k) ->
  flipped (snd (flip_bond t a b mn mx)) = true ->
  (exists ma mb,
     nodes_ (unflip_bond (fst (flip_bond t a b mn mx)) a b (snd (flip_bond t a b mn mx))) =
     set_node (set_node s a (rotate_node ma (node_at s a))) b (rotate_node mb (node_at s b))) /\
  global_geometry_ (unflip_bond (fst (flip_bond t a b mn mx)) a b (snd (flip_bond t a b mn mx))) =
  global_geometry_ t.
Proof.
  intros nb cm cp s Hnda Hba H3 Hndb Hab Hcmb Hacm Hcpcm Hbcp Hcmcp Hcoh Hfl.
  split; [|rewrite unflip_bond_global, (flip_bond_global t a b mn mx Hfl); apply geometry_round_trip].
  rewrite (flip_bond_flipped t a b mn mx Hfl) in Hfl |- *.
  rewrite (flip_bond_in_quadrilateral_flipped t a b _ mn mx Hfl). fold nb.
  fold cm cp. cbn [fst snd]. clear Hfl.
  set (P := calculate_diamond_geometry t a b cm cp).
  set (T1 := with_pre t P).
  set (T2 := fst (flip_bond_unchecked T1 a b cm cp)).
  set (T3 := update_diamond_geometry T2 a b cm cp).
  set (Q := calculate_diamond_geometry T3 a b cm cp).
  set (T5 := update_global_geometry (with_post T3 Q) (pre_update_geometry (with_post T3 Q))
                (post_update_geometry (with_post T3 Q))).
  unfold unflip_bond. cbn [common_nn_0 common_nn_1].
  destruct (flip_bond_unchecked T5 cm cp b a) as [T6 bfd6] eqn:E6.
  assert (ET6 : T6 = fst (flip_bond_unchecked T5 cm cp b a)) by (rewrite E6; reflexivity).
  clear E6.
  set (T7 := update_diamond_geometry T6 a b cm cp).

  (* identities of the diamond *)
  set (Ra := ring_of t a) in *.
  assert (Hnda' : NoDup Ra) by (inversion Hnda; assumption).
  assert (HaRa : ~ In a Ra) by (inversion Hnda; assumption).
  pose proof (find_index_lt b Ra Hba) as Hi.
  destruct (ring_positions_distinct Ra (find_index b Ra) Hnda' Hi H3) as (Dmb & Dpb & Dmp & Im & Ip).
  rewrite (find_index_nth b Ra Hba) in Dmb, Dpb.
  assert (Ecm : cm = nth (minus_one (find_index b Ra) (length Ra)) Ra 0%N) by reflexivity.
  assert (Ecp : cp = nth (plus_one (find_index b Ra) (length Ra)) Ra 0%N) by reflexivity.
  rewrite <- Ecm, <- Ecp in *.
  assert (Hnd4 : NoDup [a; b; cm; cp]).
  { constructor; [simpl; intros [E|[E|[E|[]]]]; apply HaRa; rewrite <- E; assumption|].
    constructor; [simpl; intros [E|[E|[]]]; congruence|].
    constructor; [simpl; intros [E|[]]; congruence|].
    constructor; [simpl; tauto|constructor]. }
  assert (Hnd4' : NoDup [cm; cp; b; a]).
  { apply NoDup4 in Hnd4. destruct Hnd4 as (X1 & X2 & X3 & X4 & X5 & X6).
    constructor; [simpl; intros [E|[E|[E|[]]]]; congruence|].
    constructor; [simpl; intros [E|[E|[]]]; congruence|].
    constructor; [simpl; intros [E|[]]; congruence|].
    constructor; [simpl; tauto|constructor]. }
  assert (Hrange : forall k, In k [a; b; cm; cp] -> (N.to_nat k < length s)%nat).
  { intros k Hk. apply node_at_in_range.
    simpl in Hk; destruct Hk as [<-|[<-|[<-|[<-|[]]]]]; intros E;
      [unfold Ra, ring_of in Hba; fold s in Hba; rewrite E in Hba
      |unfold ring_of in Hab; fold s in Hab; rewrite E in Hab
      |unfold ring_of in Hacm; fold s in Hacm; rewrite E in Hacm
      |unfold ring_of in Hbcp; fold s in Hbcp; rewrite E in Hbcp]; exact Hba || exact Hab || exact Hacm || exact Hbcp. }
  apply NoDup4 in Hnd4 as Dist. destruct Dist as (Dab & Dacm & Dacp & Dbcm & Dbcp & Dcmcp).
  assert (Hr : forall k, In k [a; b; cm; cp] ->
            length (nn_distances (node_at s k)) = length (nn_ids (node_at s k)) /\
            bulk_node (positions s) (node_at s k) = node_at s k) by exact Hcoh.
  clear Hcoh.
  set (ps := positions s) in *.
  (* the flip *)
  assert (Hnd2 : NoDup [cm; cp; a; b]).
  { constructor; [simpl; intros [E|[E|[E|[]]]]; congruence|].
    constructor; [simpl; intros [E|[E|[]]]; congruence|].
    constructor; [simpl; intros [E|[]]; congruence|].
    constructor; [simpl; tauto|constructor]. }
  assert (Hr2 : forall k, In k [cm; cp; a; b] -> (N.to_nat k < length s)%nat)
    by (intros k Hk; apply Hrange; destruct Hk as [<-|[<-|[<-|[<-|[]]]]]; simpl; tauto).
  pose proof (flip_bond_unchecked_nodes T1 a b cm cp Hnd4) as ES2. cbv zeta in ES2.
  change (nodes_ T1) with s in ES2. fold T2 in ES2.
  pose proof (node_at_set4 s cm cp a b
     (emplace_nn_id (node_at s cm) cp (pos_of s cp) (find_index a (nn_ids (node_at s cm))))
     (emplace_nn_id (node_at s cp) cm (pos_of s cm) (find_index b (nn_ids (node_at s cp))))
     (pop_nn (node_at s a) b) (pop_nn (node_at s b) a) Hnd2 Hr2) as N2.
  cbv zeta in N2. rewrite <- ES2 in N2. clear ES2.
  destruct N2 as (L2 & N2cm & N2cp & N2a & N2b & N2o).
  assert (PS2 : positions (nodes_ T2) = ps) by exact (positions_flip_bond_unchecked T1 a b cm cp).
  (* the geometry update of the diamond *)
  assert (ES5 : nodes_ T5 = fold_left (upd_store (fun _ => bulk_node)) [a; b; cm; cp] (nodes_ T2))
    by (unfold T5, T3; rewrite update_diamond_geometry_eq; reflexivity).
  assert (L5 : length (nodes_ T5) = length s)
    by (rewrite ES5, fold_upd_length; exact L2).
  assert (PS5 : positions (nodes_ T5) = ps)
    by (rewrite ES5, (fold_upd_positions _ bulk_F_pos); exact PS2).
  assert (N5 : forall x, In x [a; b; cm; cp] ->
            node_at (nodes_ T5) x = bulk_node ps (node_at (nodes_ T2) x)).
  { intros x Hx. rewrite ES5, fold_bulk4, is_member_true, PS2 by (auto; rewrite L2; auto). reflexivity. }
  (* the unflip *)
  assert (Hnd6 : NoDup [b; a; cm; cp]).
  { constructor; [simpl; intros [E|[E|[E|[]]]]; congruence|].
    constructor; [simpl; intros [E|[E|[]]]; congruence|].
    constructor; [simpl; intros [E|[]]; congruence|].
    constructor; [simpl; tauto|constructor]. }
  assert (Hr6 : forall k, In k [b; a; cm; cp] -> (N.to_nat k < length (nodes_ T5))%nat)
    by (intros k Hk; rewrite L5; apply Hrange; destruct Hk as [<-|[<-|[<-|[<-|[]]]]]; simpl; tauto).
  unfold update_global_geometry at 1, with_global. cbn [nodes_].
  unfold T7. rewrite update_diamond_geometry_eq. cbn [nodes_ with_nodes].
  rewrite ET6, (flip_bond_unchecked_nodes T5 cm cp b a Hnd4'). cbv zeta.
  set (s5 := nodes_ T5) in *.
  pose proof (node_at_set4 s5 b a cm cp
     (emplace_nn_id (node_at s5 b) a (pos_of s5 a) (find_index cm (nn_ids (node_at s5 b))))
     (emplace_nn_id (node_at s5 a) b (pos_of s5 b) (find_index cp (nn_ids (node_at s5 a))))
     (pop_nn (node_at s5 cm) cp) (pop_nn (node_at s5 cp) cm) Hnd6 Hr6) as N6.
  cbv zeta in N6.
  set (s6 := set_node (set_node (set_node (set_node s5 b _) a _) cm _) cp _) in *.
  destruct N6 as (L6 & N6b & N6a & N6cm & N6cp & N6o).
  assert (PS6 : positions s6 = ps).
  { rewrite <- PS5. unfold s6, s5. rewrite <- (flip_bond_unchecked_nodes T5 cm cp b a Hnd4').
    apply positions_flip_bond_unchecked. }
  assert (N5o : forall x, ~ In x [a; b; cm; cp] -> (N.to_nat x < length s)%nat ->
            node_at s5 x = node_at (nodes_ T2) x).
  { intros x Hx Hx'. rewrite ES5, fold_bulk4, is_member_false by (auto; rewrite L2; auto). reflexivity. }
  destruct (Hr a ltac:(simpl; tauto)) as [Sza Coha].
  destruct (Hr b ltac:(simpl; tauto)) as [Szb Cohb].
  destruct (Hr cm ltac:(simpl; tauto)) as [Szcm Cohcm].
  destruct (Hr cp ltac:(simpl; tauto)) as [Szcp Cohcp].
  (* the rings of a and b come back rotated *)
  destruct (reinsert_node ps (node_at s a) b (pos_of s5 b) Hnda' Hba ltac:(change (2 <= length Ra)%nat; lia)
              Sza Coha) as [ma Ha].
  change (nn_ids (node_at s a)) with Ra in Ha. rewrite <- Ecp in Ha.
  set (Rb := ring_of t b) in *.
  assert (H2b : (2 <= length Rb)%nat).
  { destruct Rb as [|r0 [|r1 rest]] eqn:ERb; simpl; try lia.
    - contradiction.
    - destruct Hab as [<-|[]]. unfold find_index in Hcmb. rewrite N.eqb_refl in Hcmb.
      simpl in Hcmb. exfalso. exact (Dacm Hcmb). }
  destruct (reinsert_node ps (node_at s b) a (pos_of s5 a) Hndb Hab H2b Szb Cohb) as [mb Hb].
  change (nn_ids (node_at s b)) with Rb in Hb. rewrite Hcmb in Hb.
  (* the rings of cm and cp come back as they were *)
  pose proof (restore_node ps (node_at s cm) a cp (pos_of s cp) Hacm Hcpcm Szcm Cohcm) as Hcm.
  pose proof (restore_node ps (node_at s cp) b cm (pos_of s cm) Hbcp Hcmcp Szcp Cohcp) as Hcp.
  exists ma, mb. apply node_list_ext.
  { rewrite fold_upd_length, L6, L5, !length_set_node. reflexivity. }
  intros x Hx. rewrite fold_upd_length, L6, L5 in Hx.
  rewrite fold_bulk4 by (rewrite L6, L5; exact Hx). rewrite PS6.
  assert (Ra' : (N.to_nat a < length s)%nat) by (apply Hrange; simpl; tauto).
  assert (Rb' : (N.to_nat b < length s)%nat) by (apply Hrange; simpl; tauto).
  rewrite node_at_set_node by (rewrite length_set_node; exact Rb').
  rewrite node_at_set_node by exact Ra'.
  destruct (N.eq_dec x a) as [->|Xa].
  { rewrite is_member_true by (simpl; tauto). rewrite (proj2 (N.eqb_neq b a)) by congruence.
    rewrite N.eqb_refl, N6a, N5, N2a by (simpl; tauto). exact Ha. }
  destruct (N.eq_dec x b) as [->|Xb].
  { rewrite is_member_true by (simpl; tauto). rewrite N.eqb_refl, N6b, N5, N2b by (simpl; tauto).
    exact Hb. }
  rewrite (proj2 (N.eqb_neq b x)) by congruence. rewrite (proj2 (N.eqb_neq a x)) by congruence.
  destruct (N.eq_dec x cm) as [->|Xcm].
  { rewrite is_member_true by (simpl; tauto). rewrite N6cm, N5, N2cm by (simpl; tauto). exact Hcm. }
  destruct (N.eq_dec x cp) as [->|Xcp].
  { rewrite is_member_true by (simpl; tauto). rewrite N6cp, N5, N2cp by (simpl; tauto). exact Hcp. }
  assert (Hx4 : ~ In x [a; b; cm; cp]) by (simpl; intros [E|[E|[E|[E|[]]]]]; congruence).
  rewrite is_member_false by exact Hx4.
  rewrite N6o by (simpl; intros [E|[E|[E|[E|[]]]]]; congruence).
  rewrite N5o by assumption.
  apply N2o. simpl; intros [E|[E|[E|[E|[]]]]]; congruence.
Qed.

(** C3. A flip reported as applied, undone at once by [unflip_bond], gives
    back every node and the global geometry, except that the rings of [a]
    and [b] (with their distance vectors) may come back rotated.  The mesh
    around the diamond is a consistent oriented triangulation and its four
    nodes carry the geometry [update_bulk_node_geometry] computes. *)
Theorem flip_unflip_restores_up_to_rotation (t : Tri) (a b : N) (mn mx : R) :
  let nb := previous_and_next_neighbour_global_ids t a b in
  let cm := j_m_1 nb in
  let cp := j_p_1 nb in
  let s := nodes_ t in
  NoDup (a :: ring_of t a) -> In b (ring_of t a) -> (3 <= length (ring_of t a))%nat ->
  NoDup (ring_of t b) -> In a (ring_of t b) ->
  nth (plus_one (find_index a (ring_of t b)) (length (ring_of t b))) (ring_of t b) 0%N = cm ->
  In a (ring_of t cm) -> ~ In cp (ring_of t cm) ->
  In b (ring_of t cp) -> ~ In cm (ring_of t cp) ->
  (forall k, In k [a; b; cm; cp] ->
     length (nn_distances (node_at s k)) = length (nn_ids (node_at s k)) /\
     bulk_node (positions s) (node_at s k) = node_at s k) ->
  flipped (snd (flip_bond t a b mn mx)) = true ->
  (exists ma mb,
     nodes_ (unflip_bond (fst (flip_bond t a b mn mx)) a b (snd (flip_bond t a b mn mx))) =
     set_node (set_node s a (rotate_node ma (node_at s a))) b (rotate_node mb (node_at s b))) /\
  global_geometry_ (unflip_bond (fst (flip_bond t a b mn mx)) a b (snd (flip_bond t a b mn mx))) =
  global_geometry_ t.
Proof. exact (flip_unflip_nodes_rotated t a b mn mx). Qed.

Lemma nn_ids_node_at_map_bulk ps s k :
  nn_ids (node_at (map (bulk_node ps) s) k) = nn_ids (node_at s k).
Proof.
  unfold node_at. destruct (Compare_dec.lt_dec (N.to_nat k) (length s)) as [L|L].
  - rewrite (nth_indep _ default_node (bulk_node ps default_node)) by (rewrite length_map; exact L).
    rewrite map_nth. apply bulk_node_fields.
  - rewrite !nth_overflow by (rewrite ?length_map; lia). reflexivity.
Qed.

Lemma pos_node_at_map_bulk ps s k :
  pos (node_at (map (bulk_node ps) s) k) = pos (node_at s k).
Proof.
  unfold node_at. destruct (Compare_dec.lt_dec (N.to_nat k) (length s)) as [L|L].
  - rewrite (nth_indep _ default_node (bulk_node ps default_node)) by (rewrite length_map; exact L).
    rewrite map_nth. apply bulk_node_fields.
  - rewrite !nth_overflow by (rewrite ?length_map; lia). reflexivity.
Qed.

Lemma mesh_of_aux ps rings st i :
  nth i (map (fun kr => mesh_node ps (fst kr) (snd kr)) (combine (seq st (length rings)) rings))
      default_node =
  if Compare_dec.lt_dec i (length rings) then mesh_node ps (st + i) (nth i rings []) else default_node.
Proof.
  revert st i; induction rings as [|r rs IH]; intros st i; simpl.
  - destruct i; reflexivity.
  - destruct i as [|i].
    + rewrite Nat.add_0_r. reflexivity.
    + rewrite IH. destruct (Compare_dec.lt_dec i (length rs)), (Compare_dec.lt_dec (S i) (S (length rs)));
        try lia; [rewrite Nat.add_succ_r; reflexivity|reflexivity].
Qed.

Lemma ring_of_mesh_of ps rings k :
  nn_ids (node_at (mesh_of ps rings) k) = nth (N.to_nat k) rings [].
Proof.
  unfold node_at, mesh_of. rewrite mesh_of_aux.
  destruct (Compare_dec.lt_dec (N.to_nat k) (length rings)) as [L|L]; [reflexivity|].
  rewrite nth_overflow by lia. reflexivity.
Qed.

Lemma pos_of_mesh_of ps rings k :
  (N.to_nat k < length rings)%nat -> pos (node_at (mesh_of ps rings) k) = nth (N.to_nat k) ps vzero.
Proof.
  intros L. unfold node_at, mesh_of. rewrite mesh_of_aux.
  destruct (Compare_dec.lt_dec (N.to_nat k) (length rings)) as [_|]; [reflexivity|lia].
Qed.

Lemma length_mesh_of ps rings : length (mesh_of ps rings) = length rings.
Proof. unfold mesh_of. rewrite length_map, length_combine, length_seq. lia. Qed.

Lemma ring_of_ico k : ring_of ico k = nth (N.to_nat k) ico_rings [].
Proof. unfold ring_of, ico. cbn [nodes_]. rewrite nn_ids_node_at_map_bulk. apply ring_of_mesh_of. Qed.

Lemma pos_of_ico k :
  (N.to_nat k < 12)%nat -> pos_of (nodes_ ico) k = nth (N.to_nat k) ico_positions vzero.
Proof.
  intros L. unfold pos_of, ico. cbn [nodes_]. rewrite pos_node_at_map_bulk. apply pos_of_mesh_of. exact L.
Qed.

Lemma positions_map_bulk ps s : positions (map (bulk_node ps) s) = positions s.
Proof.
  unfold positions. rewrite map_map. apply map_ext. intros n. apply bulk_node_fields.
Qed.

Lemma positions_mesh_of ps rings :
  length ps = length rings -> positions (mesh_of ps rings) = ps.
Proof.
  intros L. apply nth_ext with (d := vzero) (d' := vzero).
  - unfold positions. rewrite length_map, length_mesh_of. lia.
  - intros i Hi. unfold positions in *. rewrite length_map, length_mesh_of in Hi.
    rewrite (nth_indep _ vzero (pos default_node)) by (rewrite length_map, length_mesh_of; exact Hi).
    rewrite map_nth. unfold mesh_of. rewrite mesh_of_aux.
    destruct (Compare_dec.lt_dec i (length rings)) as [_|]; [reflexivity|lia].
Qed.

(** A mesh whose nodes all went through [update_bulk_node_geometry] once
    carries, at every node, the geometry that function computes. *)
Lemma coherent_map_bulk ps s k :
  positions s = ps -> (N.to_nat k < length s)%nat ->
  length (nn_distances (node_at s k)) = length (nn_ids (node_at s k)) ->
  length (nn_distances (node_at (map (bulk_node ps) s) k)) =
    length (nn_ids (node_at (map (bulk_node ps) s) k)) /\
  bulk_node (positions (map (bulk_node ps) s)) (node_at (map (bulk_node ps) s) k) =
    node_at (map (bulk_node ps) s) k.
Proof.
  intros Hps L Hsz. rewrite positions_map_bulk, Hps.
  unfold node_at in *.
  rewrite (nth_indep _ default_node (bulk_node ps default_node)) by (rewrite length_map; exact L).
  rewrite map_nth. destruct (bulk_node_fields ps (nth (N.to_nat k) s default_node)) as (_ & _ & B3 & _ & B5).
  split; [rewrite B3, B5; exact Hsz|apply bulk_node_idem].
Qed.

Lemma mesh_of_sized ps rings k :
  length (nn_distances (node_at (mesh_of ps rings) k)) = length (nn_ids (node_at (mesh_of ps rings) k)).
Proof.
  unfold node_at, mesh_of. rewrite mesh_of_aux.
  destruct (Compare_dec.lt_dec (N.to_nat k) (length rings)); simpl; [apply length_map|reflexivity].
Qed.

Lemma ico_coherent k :
  (N.to_nat k < 12)%nat ->
  length (nn_distances (node_at (nodes_ ico) k)) = length (nn_ids (node_at (nodes_ ico) k)) /\
  bulk_node (positions (nodes_ ico)) (node_at (nodes_ ico) k) = node_at (nodes_ ico) k.
Proof.
  intros L. apply coherent_map_bulk.
  - apply positions_mesh_of. reflexivity.
  - rewrite length_mesh_of. exact L.
  - apply mesh_of_sized.
Qed.

Lemma flip_bond_unchecked_snd t a b c d :
  snd (flip_bond_unchecked t a b c d) = mkBondFlipData true c d.
Proof. reflexivity. Qed.

(** When every check of [flip_bulk_bond] passes, the flip is applied. *)
Lemma flip_bond_spherical_applied t a b mn mx :
  triangulation_type t = SPHERICAL_TRIANGULATION ->
  (BOND_DONATION_CUTOFF < length (ring_of t a))%nat ->
  (BOND_DONATION_CUTOFF < length (ring_of t b))%nat ->
  let nb := previous_and_next_neighbour_global_ids t a b in
  let cm := j_m_1 nb in
  let cp := j_p_1 nb in
  let bl := norm_square (vsub (pos_of (nodes_ t) cm) (pos_of (nodes_ t) cp)) in
  bl < mx -> mn < bl ->
  length (common_neighbours t a b) = 2%nat ->
  length (common_neighbours
            (fst (flip_bond_unchecked (with_pre t (calculate_diamond_geometry t a b cm cp)) a b cm cp))
            cm cp) = 2%nat ->
  flipped (snd (flip_bond t a b mn mx)) = true.
Proof.
  intros Hty H1 H2 nb cm cp bl Hmx Hmn Hc1 Hc2.
  unfold flip_bond. rewrite Hty. unfold flip_bulk_bond.
  rewrite (proj2 (Nat.ltb_lt _ _) H1), (proj2 (Nat.ltb_lt _ _) H2).
  unfold flip_bond_in_quadrilateral. cbv zeta. fold nb. fold cm cp. fold bl.
  unfold Rltb. destruct (Rlt_dec bl mx) as [_|C]; [|contradiction].
  destruct (Rlt_dec mn bl) as [_|C]; [|contradiction]. cbn [andb].
  rewrite Hc1. cbn [Nat.eqb].
  rewrite (surjective_pairing (flip_bond_unchecked _ a b cm cp)).
  rewrite flip_bond_unchecked_snd. cbn [common_nn_0 common_nn_1].
  rewrite Hc2. reflexivity.
Qed.

Lemma ico_neighbours_0_1 : previous_and_next_neighbour_global_ids ico 0 1 = mkNeighbors 5 2.
Proof. unfold previous_and_next_neighbour_global_ids. rewrite ring_of_ico. reflexivity. Qed.

Lemma ico_neighbours_0_5 : previous_and_next_neighbour_global_ids ico 0 5 = mkNeighbors 4 1.
Proof. unfold previous_and_next_neighbour_global_ids. rewrite ring_of_ico. reflexivity. Qed.

Lemma ico_flip_0_1_applied : flipped (snd (flip_bond ico 0 1 0 100)) = true.
Proof.
  apply flip_bond_spherical_applied; cbv zeta; rewrite ?ico_neighbours_0_1; cbn [j_m_1 j_p_1].
  - reflexivity.
  - rewrite ring_of_ico. cbv. lia.
  - rewrite ring_of_ico. cbv. lia.
  - rewrite !pos_of_ico by (cbv; lia). simpl. unfold norm_square, dot, vsub; simpl. lra.
  - rewrite !pos_of_ico by (cbv; lia). simpl. unfold norm_square, dot, vsub; simpl. lra.
  - unfold common_neighbours. rewrite !ring_of_ico. reflexivity.
  - reflexivity.
Qed.

Lemma ico_flip_0_5_applied : flipped (snd (flip_bond ico 0 5 0 100)) = true.
Proof.
  apply flip_bond_spherical_applied; cbv zeta; rewrite ?ico_neighbours_0_5; cbn [j_m_1 j_p_1].
  - reflexivity.
  - rewrite ring_of_ico. cbv. lia.
  - rewrite ring_of_ico. cbv. lia.
  - rewrite !pos_of_ico by (cbv; lia). simpl. unfold norm_square, dot, vsub; simpl. lra.
  - rewrite !pos_of_ico by (cbv; lia). simpl. unfold norm_square, dot, vsub; simpl. lra.
  - unfold common_neighbours. rewrite !ring_of_ico. reflexivity.
  - reflexivity.
Qed.

Lemma flip_unflip_restores_up_to_rotation_witness :
  flipped (snd (flip_bond ico 0 1 0 100)) = true /\
  (exists ma mb,
     nodes_ (unflip_bond (fst (flip_bond ico 0 1 0 100)) 0 1 (snd (flip_bond ico 0 1 0 100))) =
     set_node (set_node (nodes_ ico) 0 (rotate_node ma (node_at (nodes_ ico) 0)))
       1 (rotate_node mb (node_at (nodes_ ico) 1))) /\
  global_geometry_ (unflip_bond (fst (flip_bond ico 0 1 0 100)) 0 1 (snd (flip_bond ico 0 1 0 100))) =
  global_geometry_ ico.
Proof.
  split; [exact ico_flip_0_1_applied|].
  apply (flip_unflip_restores_up_to_rotation ico 0 1 0 100); cbv zeta; rewrite ?ico_neighbours_0_1;
    cbn [j_m_1 j_p_1]; rewrite ?ring_of_ico.
  - simpl. repeat constructor; simpl; intuition discriminate.
  - simpl. tauto.
  - simpl. lia.
  - simpl. repeat constructor; simpl; intuition discriminate.
  - simpl. tauto.
  - reflexivity.
  - simpl. tauto.
  - simpl. intuition discriminate.
  - simpl. tauto.
  - simpl. intuition discriminate.
  - intros k Hk. apply ico_coherent.
    simpl in Hk. destruct Hk as [<-|[<-|[<-|[<-|[]]]]]; cbv; lia.
  - exact ico_flip_0_1_applied.
Defined.

(** C3 does not hold as stated: flipping the bond [0]-[5] of the
    icosahedral mesh and unflipping it at once leaves the ring of node [0]
    rotated ([5;1;2;3;4] instead of [1;2;3;4;5]). *)
Lemma flip_unflip_ring_rotated :
  flipped (snd (flip_bond ico 0 5 0 100)) = true /\
  ring_of (unflip_bond (fst (flip_bond ico 0 5 0 100)) 0 5 (snd (flip_bond ico 0 5 0 100))) 0 =
    [5; 1; 2; 3; 4]%N /\
  ring_of ico 0 = [1; 2; 3; 4; 5]%N /\
  ring_of (unflip_bond (fst (flip_bond ico 0 5 0 100)) 0 5 (snd (flip_bond ico 0 5 0 100))) 0 <>
    ring_of ico 0.
Proof.
  pose proof ico_flip_0_5_applied as Hfl.
  assert (E0 : ring_of ico 0 = [1; 2; 3; 4; 5]%N) by (rewrite ring_of_ico; reflexivity).
  assert (E1 : ring_of (unflip_bond (fst (flip_bond ico 0 5 0 100)) 0 5 (snd (flip_bond ico 0 5 0 100))) 0 =
               [5; 1; 2; 3; 4]%N).
  { rewrite (flip_bond_flipped ico 0 5 0 100 Hfl) in Hfl |- *.
    rewrite (flip_bond_in_quadrilateral_flipped ico 0 5 _ 0 100 Hfl).
    cbv zeta. rewrite ico_neighbours_0_5. reflexivity. }
  split; [exact Hfl|]. split; [exact E1|]. split; [exact E0|].
  rewrite E0, E1. discriminate.
Qed.

Lemma move_node_round_trip_witness :
  update_two_ring_geometry (update_two_ring_geometry ico 0) 0 = update_two_ring_geometry ico 0 /\
  nodes_ (move_node (move_node (update_two_ring_geometry ico 0) 0 (mkV 1 0 0)) 0 (vneg (mkV 1 0 0))) =
    nodes_ (update_two_ring_geometry ico 0) /\
  global_geometry_ (move_node (move_node (update_two_ring_geometry ico 0) 0 (mkV 1 0 0)) 0
                      (vneg (mkV 1 0 0))) =
    global_geometry_ (update_two_ring_geometry ico 0).
Proof.
  pose proof (update_two_ring_geometry_idem ico 0) as H.
  split; [exact H|].
  exact (move_node_round_trip (update_two_ring_geometry ico 0) 0 (mkV 1 0 0) H).
Defined.

(** ** Sums of geometries *)

Lemma geometry_ext (g1 g2 : Geometry) :
  g_area g1 = g_area g2 -> g_volume g1 = g_volume g2 ->
  g_unit_bending_energy g1 = g_unit_bending_energy g2 -> g1 = g2.
Proof. destruct g1, g2; simpl; intros -> -> ->; reflexivity. Qed.

Ltac geo :=
  apply geometry_ext;
  cbn [g_area g_volume g_unit_bending_energy geometry_add geometry_sub geometry_zero
       geometry_of_node node_geometry];
  ring.

Lemma gsum_acc f l g0 :
  fold_left (fun g k => geometry_add g (f k)) l g0 = geometry_add g0 (gsum f l).
Proof.
  unfold gsum. revert g0; induction l as [|x l IH]; intros g0; cbn [fold_left].
  - geo.
  - rewrite (IH (geometry_add g0 (f x))), (IH (geometry_add geometry_zero (f x))). geo.
Qed.

Lemma gsum_nil f : gsum f [] = geometry_zero.
Proof. reflexivity. Qed.

Lemma gsum_cons f x l : gsum f (x :: l) = geometry_add (f x) (gsum f l).
Proof. unfold gsum at 1. cbn [fold_left]. rewrite gsum_acc. geo. Qed.

Lemma gsum_app f l1 l2 : gsum f (l1 ++ l2) = geometry_add (gsum f l1) (gsum f l2).
Proof. unfold gsum at 1. rewrite fold_left_app, gsum_acc. reflexivity. Qed.

Lemma gsum_ext f f' l : (forall x, In x l -> f x = f' x) -> gsum f l = gsum f' l.
Proof.
  induction l as [|x l IH]; intros H; [reflexivity|].
  rewrite !gsum_cons, (H x (or_introl eq_refl)), IH; [reflexivity|].
  intros y Hy. apply H. right. exact Hy.
Qed.

Lemma gsum_zero f l : (forall x, In x l -> f x = geometry_zero) -> gsum f l = geometry_zero.
Proof.
  induction l as [|x l IH]; intros H; [reflexivity|].
  rewrite gsum_cons, (H x (or_introl eq_refl)), IH; [geo|].
  intros y Hy. apply H. right. exact Hy.
Qed.

Lemma gsum_perm f l l' : Permutation l l' -> gsum f l = gsum f l'.
Proof.
  induction 1 as [|x l l' _ IH|x y l|l l' l'' _ IH1 _ IH2].
  - reflexivity.
  - rewrite !gsum_cons, IH. reflexivity.
  - rewrite !gsum_cons. geo.
  - rewrite IH1. exact IH2.
Qed.

Lemma gsum_filter f (p : N -> bool) l :
  gsum f l = geometry_add (gsum f (filter p l)) (gsum f (filter (fun x => negb (p x)) l)).
Proof.
  induction l as [|x l IH]; [cbn [filter]; rewrite !gsum_nil; geo|].
  cbn [filter]. destruct (p x); cbn [negb]; rewrite !gsum_cons, IH; geo.
Qed.

Lemma fold_left_map' {A B C} (f : A -> B -> A) (h : C -> B) l a :
  fold_left f (map h l) a = fold_left (fun x y => f x (h y)) l a.
Proof. revert a; induction l as [|y l IH]; intros a; [reflexivity|apply IH]. Qed.

Lemma gsum_map f (h : N -> N) l : gsum f (map h l) = gsum (fun x => f (h x)) l.
Proof. unfold gsum. rewrite fold_left_map'. reflexivity. Qed.

Lemma node_geometry_sum_acc s g0 :
  fold_left (fun g n => geometry_add g (geometry_of_node n)) s g0 =
  geometry_add g0 (node_geometry_sum s).
Proof.
  unfold node_geometry_sum. revert g0; induction s as [|x s IH]; intros g0; cbn [fold_left].
  - geo.
  - rewrite (IH (geometry_add g0 (geometry_of_node x))),
            (IH (geometry_add geometry_zero (geometry_of_node x))). geo.
Qed.

Lemma node_geometry_sum_cons n s :
  node_geometry_sum (n :: s) = geometry_add (geometry_of_node n) (node_geometry_sum s).
Proof. unfold node_geometry_sum at 1. cbn [fold_left]. rewrite node_geometry_sum_acc. geo. Qed.

Lemma node_geometry_sum_ids s :
  node_geometry_sum s = gsum (node_geometry s) (map N.of_nat (seq 0 (length s))).
Proof.
  induction s as [|n s IH]; [reflexivity|].
  rewrite node_geometry_sum_cons, IH. simpl length. simpl seq. simpl map.
  rewrite gsum_cons. f_equal.
  replace (map N.of_nat (seq 1 (length s))) with (map N.succ (map N.of_nat (seq 0 (length s)))).
  - rewrite gsum_map. apply gsum_ext.
    intros x _. unfold node_geometry, node_at. rewrite N2Nat.inj_succ. reflexivity.
  - rewrite <- seq_shift, !map_map. apply map_ext. intros i. symmetry. apply Nat2N.inj_succ.
Qed.

Lemma In_ids x n : In x (map N.of_nat (seq 0 n)) <-> (N.to_nat x < n)%nat.
Proof.
  split.
  - intros H. apply in_map_iff in H as (i & <- & Hi). apply in_seq in Hi.
    rewrite Nat2N.id. lia.
  - intros H. apply in_map_iff. exists (N.to_nat x). split; [apply N2Nat.id|].
    apply in_seq. lia.
Qed.

Lemma NoDup_map_inj {A B} (f : A -> B) l :
  (forall x y, f x = f y -> x = y) -> NoDup l -> NoDup (map f l).
Proof.
  intros Hf. induction 1 as [|x l Hx _ IH]; simpl; constructor; auto.
  intros Hin. apply in_map_iff in Hin as (y & E & Hy). apply Hf in E. subst. contradiction.
Qed.

Lemma NoDup_ids n : NoDup (map N.of_nat (seq 0 n)).
Proof. apply NoDup_map_inj; [apply Nat2N.inj|apply seq_NoDup]. Qed.

Lemma is_member_In l x : is_member l x = true -> In x l.
Proof.
  unfold is_member. intros H. apply existsb_exists in H as (y & Hy & E).
  apply N.eqb_eq in E. subst. exact Hy.
Qed.

Lemma gsum_as_ids s U :
  NoDup U ->
  gsum (node_geometry s) U =
  gsum (node_geometry s) (filter (is_member U) (map N.of_nat (seq 0 (length s)))).
Proof.
  intros Hnd.
  rewrite (gsum_filter _ (fun x => Nat.ltb (N.to_nat x) (length s)) U).
  cbv beta.
  rewrite (gsum_zero (node_geometry s) (filter (fun x => negb (Nat.ltb (N.to_nat x) (length s))) U)).
  2:{ intros x Hx. apply filter_In in Hx as [_ H]. apply Bool.negb_true_iff, Nat.ltb_ge in H.
      unfold node_geometry. rewrite node_at_out by lia. reflexivity. }
  assert (P : Permutation (filter (fun x => Nat.ltb (N.to_nat x) (length s)) U)
                          (filter (is_member U) (map N.of_nat (seq 0 (length s))))).
  { apply NoDup_Permutation; [apply NoDup_filter; exact Hnd|apply NoDup_filter, NoDup_ids|].
    intros x. rewrite !filter_In, In_ids, Nat.ltb_lt. split; intros [A B].
    - split; [exact B|apply is_member_true; exact A].
    - split; [apply is_member_In; exact B|exact A]. }
  rewrite (gsum_perm _ _ _ P). geo.
Qed.

(** Changing the nodes of a set [U] of distinct ids changes the sum over all
    nodes by the change of the sum over [U]. *)
Lemma node_geometry_sum_frame s s' U :
  length s' = length s -> NoDup U ->
  (forall x, (N.to_nat x < length s)%nat -> ~ In x U -> node_geometry s' x = node_geometry s x) ->
  node_geometry_sum s' =
  geometry_add (geometry_sub (node_geometry_sum s) (gsum (node_geometry s) U))
               (gsum (node_geometry s') U).
Proof.
  intros Hl Hnd Hfr.
  rewrite !node_geometry_sum_ids, (gsum_as_ids s U Hnd), (gsum_as_ids s' U Hnd), Hl.
  set (I := map N.of_nat (seq 0 (length s))).
  rewrite (gsum_filter (node_geometry s') (is_member U) I),
          (gsum_filter (node_geometry s) (is_member U) I).
  rewrite (gsum_ext (node_geometry s') (node_geometry s) (filter (fun x => negb (is_member U x)) I)).
  - geo.
  - intros x Hx. apply filter_In in Hx as [Hx Hm]. apply Hfr.
    + apply In_ids. exact Hx.
    + intros HU. rewrite is_member_true in Hm by exact HU. discriminate.
Qed.

Lemma node_geometry_sum_map s s' :
  map geometry_of_node s = map geometry_of_node s' -> node_geometry_sum s = node_geometry_sum s'.
Proof.
  intros H. unfold node_geometry_sum.
  rewrite <- !(fold_left_map' (fun g x => geometry_add g x) geometry_of_node), H. reflexivity.
Qed.

Lemma node_geometry_map s s' k :
  map geometry_of_node s = map geometry_of_node s' -> node_geometry s k = node_geometry s' k.
Proof.
  intros H. unfold node_geometry, node_at.
  rewrite <- (map_nth geometry_of_node s default_node), <- (map_nth geometry_of_node s' default_node), H.
  reflexivity.
Qed.

Lemma map_geometry_set_node s k n :
  geometry_of_node n = node_geometry s k ->
  map geometry_of_node (set_node s k n) = map geometry_of_node s.
Proof. unfold set_node, node_geometry, node_at. apply list_set_nth_map_same. Qed.

(** ** The nodes' geometry under the mutators *)

Lemma geometry_emplace_nn_id n x p loc : geometry_of_node (emplace_nn_id n x p loc) = geometry_of_node n.
Proof. unfold emplace_nn_id. destruct (Nat.ltb _ _); reflexivity. Qed.

Lemma geometry_pop_nn n x : geometry_of_node (pop_nn n x) = geometry_of_node n.
Proof. unfold pop_nn. destruct (Nat.ltb _ _); reflexivity. Qed.

Lemma map_geometry_flip_bond_unchecked t a b c d :
  map geometry_of_node (nodes_ (fst (flip_bond_unchecked t a b c d))) = map geometry_of_node (nodes_ t).
Proof.
  unfold flip_bond_unchecked, delete_connection_between_nodes_of_old_edge, emplace_before.
  cbn [fst nodes_ with_nodes].
  rewrite !map_geometry_set_node
    by (unfold node_geometry; first [apply geometry_pop_nn | apply geometry_emplace_nn_id]).
  reflexivity.
Qed.

(** A flip that is not reported as applied leaves the global geometry and
    the geometry of every node as they were (the rollback branch rewrites
    the rings twice and touches no geometry). *)
Lemma flip_quad_not_flipped t a b nb mn mx :
  flipped (snd (flip_bond_in_quadrilateral t a b nb mn mx)) = false ->
  global_geometry_ (fst (flip_bond_in_quadrilateral t a b nb mn mx)) = global_geometry_ t /\
  map geometry_of_node (nodes_ (fst (flip_bond_in_quadrilateral t a b nb mn mx))) =
  map geometry_of_node (nodes_ t).
Proof.
  unfold flip_bond_in_quadrilateral. cbv zeta.
  destruct (_ && _)%bool; [|intros _; split; reflexivity].
  destruct (Nat.eqb _ 2); [|intros _; split; reflexivity].
  set (T1 := with_pre t _).
  destruct (flip_bond_unchecked T1 a b (j_m_1 nb) (j_p_1 nb)) as [T2 bfd] eqn:E.
  pose proof (flip_bond_unchecked_snd T1 a b (j_m_1 nb) (j_p_1 nb)) as Es.
  rewrite E in Es. cbn [snd] in Es. subst bfd.
  pose proof (f_equal fst E) as ET. cbn [fst] in ET.
  cbn [common_nn_0 common_nn_1].
  destruct (Nat.eqb _ 2); [cbn [snd flipped]; intros H; discriminate H|].
  destruct (flip_bond_unchecked T2 (j_m_1 nb) (j_p_1 nb) b a) as [T3 x] eqn:E3.
  pose proof (f_equal fst E3) as ET3. cbn [fst] in ET3.
  intros _. cbn [fst]. rewrite <- ET3. split.
  - rewrite (proj1 (fields_flip_bond_unchecked _ _ _ _ _)), <- ET,
      (proj1 (fields_flip_bond_unchecked _ _ _ _ _)). reflexivity.
  - rewrite map_geometry_flip_bond_unchecked, <- ET, map_geometry_flip_bond_unchecked. reflexivity.
Qed.

Lemma flip_bond_not_flipped t a b mn mx :
  flipped (snd (flip_bond t a b mn mx)) = false ->
  global_geometry_ (fst (flip_bond t a b mn mx)) = global_geometry_ t /\
  map geometry_of_node (nodes_ (fst (flip_bond t a b mn mx))) = map geometry_of_node (nodes_ t).
Proof.
  unfold flip_bond. destruct (triangulation_type t).
  - unfold flip_bulk_bond.
    destruct (Nat.ltb _ _); [|intros _; split; reflexivity].
    destruct (Nat.ltb _ _); [apply flip_quad_not_flipped|intros _; split; reflexivity].
  - destruct (_ || _)%bool; [intros _; split; reflexivity|]. cbv zeta.
    destruct (_ || _)%bool; [intros _; split; reflexivity|apply flip_quad_not_flipped].
Qed.

Lemma calculate_diamond_geometry_gsum T a b c d :
  calculate_diamond_geometry T a b c d = gsum (node_geometry (nodes_ T)) [a; b; c; d].
Proof. unfold calculate_diamond_geometry. rewrite !gsum_cons, gsum_nil. geo. Qed.

(** The four nodes of the diamond around a bond of a ring without
    repetitions are distinct. *)
Lemma diamond_NoDup t a b :
  NoDup (a :: ring_of t a) -> In b (ring_of t a) -> (3 <= length (ring_of t a))%nat ->
  NoDup [a; b; j_m_1 (previous_and_next_neighbour_global_ids t a b);
         j_p_1 (previous_and_next_neighbour_global_ids t a b)].
Proof.
  intros Hnd Hb H3. inversion Hnd as [|? ? Ha Hr]; subst.
  unfold previous_and_next_neighbour_global_ids. cbn [j_m_1 j_p_1].
  destruct (ring_positions_distinct (ring_of t a) (find_index b (ring_of t a)) Hr
              (find_index_lt _ _ Hb) H3) as (D1 & D2 & D3 & I1 & I2).
  rewrite find_index_nth in D1, D2 by exact Hb.
  constructor; [|constructor; [|constructor; [|constructor; [|constructor]]]].
  - intros [E|[E|[E|[]]]]; apply Ha; rewrite <- E at 1; assumption.
  - intros [E|[E|[]]]; [exact (D1 E)|exact (D2 E)].
  - intros [E|[]]. exact (D3 (eq_sym E)).
  - intros [].
Qed.

Lemma flip_bond_flipped_consistent t a b mn mx :
  geometry_consistent t ->
  NoDup [a; b; j_m_1 (previous_and_next_neighbour_global_ids t a b);
         j_p_1 (previous_and_next_neighbour_global_ids t a b)] ->
  flipped (snd (flip_bond t a b mn mx)) = true ->
  geometry_consistent (fst (flip_bond t a b mn mx)).
Proof.
  intros Hc Hnd Hfl. rewrite (flip_bond_flipped t a b mn mx Hfl) in Hfl |- *.
  rewrite (flip_bond_in_quadrilateral_flipped t a b _ mn mx Hfl). cbv zeta. cbn [fst].
  set (nb := previous_and_next_neighbour_global_ids t a b) in *.
  set (cm := j_m_1 nb) in *. set (cp := j_p_1 nb) in *.
  set (T1 := with_pre t (calculate_diamond_geometry t a b cm cp)).
  set (T2 := fst (flip_bond_unchecked T1 a b cm cp)).
  set (T3 := update_diamond_geometry T2 a b cm cp).
  assert (G3 : global_geometry_ T3 = global_geometry_ t).
  { unfold T3, T2. rewrite (proj1 (fields_update_diamond_geometry _ _ _ _ _)),
      (proj1 (fields_flip_bond_unchecked _ _ _ _ _)). reflexivity. }
  assert (P3 : pre_update_geometry T3 = calculate_diamond_geometry t a b cm cp).
  { unfold T3, T2. rewrite (proj1 (proj2 (fields_update_diamond_geometry _ _ _ _ _))),
      (proj1 (proj2 (fields_flip_bond_unchecked _ _ _ _ _))). reflexivity. }
  assert (N3 : nodes_ T3 = fold_left (upd_store (fun _ => bulk_node)) [a; b; cm; cp] (nodes_ T2)).
  { unfold T3. rewrite update_diamond_geometry_eq. reflexivity. }
  assert (M2 : map geometry_of_node (nodes_ T2) = map geometry_of_node (nodes_ t)).
  { unfold T2. rewrite map_geometry_flip_bond_unchecked. reflexivity. }
  unfold geometry_consistent.
  change (global_geometry_ (update_global_geometry _ _ _)) with
    (geometry_add (global_geometry_ T3)
       (geometry_sub (calculate_diamond_geometry T3 a b cm cp) (pre_update_geometry T3))).
  change (nodes_ (update_global_geometry _ _ _)) with (nodes_ T3).
  rewrite G3, P3, Hc, !calculate_diamond_geometry_gsum, N3.
  rewrite (node_geometry_sum_frame (nodes_ T2)
    (fold_left (upd_store (fun _ => bulk_node)) [a; b; cm; cp] (nodes_ T2)) [a; b; cm; cp]).
  - rewrite (node_geometry_sum_map (nodes_ T2) (nodes_ t) M2).
    rewrite (gsum_ext (node_geometry (nodes_ T2)) (node_geometry (nodes_ t)))
      by (intros x _; apply node_geometry_map, M2).
    geo.
  - apply fold_upd_length.
  - exact Hnd.
  - intros x Hx Hn. unfold node_geometry.
    rewrite (fold_upd_node_at (fun _ => bulk_node) bulk_F_pos bulk_F_idem) by exact Hx.
    rewrite is_member_false by exact Hn. reflexivity.
Qed.

Lemma flip_bond_consistent t a b mn mx :
  geometry_consistent t ->
  NoDup (a :: ring_of t a) -> In b (ring_of t a) -> (3 <= length (ring_of t a))%nat ->
  geometry_consistent (fst (flip_bond t a b mn mx)).
Proof.
  intros Hc Hnd Hb H3. destruct (flipped (snd (flip_bond t a b mn mx))) eqn:Hf.
  - apply flip_bond_flipped_consistent; auto. apply diamond_NoDup; auto.
  - destruct (flip_bond_not_flipped t a b mn mx Hf) as [G M].
    unfold geometry_consistent. rewrite G, Hc. apply node_geometry_sum_map. symmetry. exact M.
Qed.

Lemma get_two_ring_geometry_gsum t k :
  get_two_ring_geometry t k = gsum (node_geometry (nodes_ t)) (k :: ring_of t k).
Proof.
  unfold get_two_ring_geometry. rewrite gsum_cons.
  transitivity (fold_left (fun g k => geometry_add g (node_geometry (nodes_ t) k)) (ring_of t k)
                  (node_geometry (nodes_ t) k)); [reflexivity|].
  rewrite gsum_acc. reflexivity.
Qed.

Lemma move_node_consistent t k d :
  geometry_consistent t -> NoDup (k :: ring_of t k) -> geometry_consistent (move_node t k d).
Proof.
  intros Hc Hnd. pose proof (move_node_eq t k d) as E. cbv zeta in E. rewrite E. clear E.
  set (s' := fold_left (upd_store (two_ring_F t)) (k :: ring_of t k) (displace (nodes_ t) k d)).
  unfold geometry_consistent. cbn [global_geometry_ nodes_].
  rewrite !get_two_ring_geometry_gsum, Hc.
  assert (Hr : ring_of (with_nodes t s') k = ring_of t k).
  { unfold ring_of at 1. rewrite nodes_with_nodes. unfold s'.
    rewrite fold_two_ring_nn_ids, nn_ids_displace. reflexivity. }
  rewrite Hr, nodes_with_nodes.
  rewrite (node_geometry_sum_frame (nodes_ t) s' (k :: ring_of t k)).
  - geo.
  - unfold s'. rewrite fold_upd_length, length_displace. reflexivity.
  - exact Hnd.
  - intros x Hx Hn. unfold s', node_geometry.
    rewrite (fold_upd_node_at _ (two_ring_F_pos t) (two_ring_F_idem t))
      by (rewrite length_displace; exact Hx).
    rewrite is_member_false by exact Hn. unfold displace.
    rewrite node_at_set_node_neq; [reflexivity|].
    intros Ek. apply Hn. left. exact Ek.
Qed.

Lemma unflip_after_flip_consistent (t : Tri) (a b : N) (mn mx : R) :
  let nb := previous_and_next_neighbour_global_ids t a b in
  let cm := j_m_1 nb in
  let cp := j_p_1 nb in
  let s := nodes_ t in
  NoDup (a :: ring_of t a) -> In b (ring_of t a) -> (3 <= length (ring_of t a))%nat ->
  NoDup (ring_of t b) -> In a (ring_of t b) ->
  nth (plus_one (find_index a (ring_of t b)) (length (ring_of t b))) (ring_of t b) 0%N = cm ->
  In a (ring_of t cm) -> ~ In cp (ring_of t cm) ->
  In b (ring_of t cp) -> ~ In cm (ring_of t cp) ->
  (forall k, In k [a; b; cm; cp] ->
     length (nn_distances (node_at s k)) = length (nn_ids (node_at s k)) /\
     bulk_node (positions s) (node_at s k) = node_at s k) ->
  flipped (snd (flip_bond t a b mn mx)) = true ->
  geometry_consistent t ->
  geometry_consistent (unflip_bond (fst (flip_bond t a b mn mx)) a b (snd (flip_bond t a b mn mx))).
Proof.
  intros nb cm cp s H1 H2 H3 H4 H5 H6 H7 H8 H9 H10 H11 H12 Hc.
  destruct (flip_unflip_nodes_rotated t a b mn mx H1 H2 H3 H4 H5 H6 H7 H8 H9 H10 H11 H12)
    as [(ma & mb & En) Eg].
  unfold geometry_consistent. rewrite En, Eg, Hc. apply node_geometry_sum_map. symmetry.
  rewrite map_geometry_set_node.
  - apply map_geometry_set_node. reflexivity.
  - change (geometry_of_node (rotate_node mb (node_at s b))) with (node_geometry s b).
    apply node_geometry_map. symmetry. apply map_geometry_set_node. reflexivity.
Qed.

(** ** Construction *)

Lemma fold_left_inv {A B} (P : A -> Prop) (f : A -> B -> A) l a :
  P a -> (forall a b, P a -> P (f a b)) -> P (fold_left f l a).
Proof. intros Ha Hf. revert a Ha; induction l as [|x l IH]; intros a Ha; [exact Ha|apply IH, Hf, Ha]. Qed.

Lemma make_verlet_list_geometry t :
  global_geometry_ (make_verlet_list t) = global_geometry_ t /\
  map geometry_of_node (nodes_ (make_verlet_list t)) = map geometry_of_node (nodes_ t).
Proof.
  unfold make_verlet_list. cbn [nodes_ with_nodes global_geometry_]. split; [reflexivity|].
  set (s0 := map (fun n => set_verlet_node n []) (nodes_ t)).
  transitivity (map geometry_of_node s0).
  2:{ unfold s0. rewrite map_map. reflexivity. }
  apply (fold_left_inv (fun s => map geometry_of_node s = map geometry_of_node s0)); [reflexivity|].
  intros s i Hs.
  apply (fold_left_inv (fun s => map geometry_of_node s = map geometry_of_node s0)); [exact Hs|].
  intros s' j Hs'. cbv beta zeta. destruct (Rltb _ _); [|exact Hs'].
  unfold push_verlet. rewrite !map_geometry_set_node by reflexivity. exact Hs'.
Qed.

Lemma initiate_distance_vectors_shape t :
  bulk_nodes_ids (initiate_distance_vectors t) = bulk_nodes_ids t /\
  boundary_nodes_ids_set_ (initiate_distance_vectors t) = boundary_nodes_ids_set_ t /\
  length (nodes_ (initiate_distance_vectors t)) = length (nodes_ t).
Proof.
  unfold initiate_distance_vectors.
  apply (fold_left_inv (fun T => bulk_nodes_ids T = bulk_nodes_ids t /\
           boundary_nodes_ids_set_ T = boundary_nodes_ids_set_ t /\
           length (nodes_ T) = length (nodes_ t))); [auto|].
  intros T i (B & Bd & L). cbv beta zeta. rewrite update_nn_distance_vectors_eq.
  cbn [bulk_nodes_ids boundary_nodes_ids_set_ nodes_ with_nodes]. rewrite !length_set_node. auto.
Qed.

Lemma orient_surface_of_a_sphere_shape t :
  bulk_nodes_ids (orient_surface_of_a_sphere t) = bulk_nodes_ids t /\
  boundary_nodes_ids_set_ (orient_surface_of_a_sphere t) = boundary_nodes_ids_set_ t /\
  length (nodes_ (orient_surface_of_a_sphere t)) = length (nodes_ t).
Proof.
  unfold orient_surface_of_a_sphere.
  apply (fold_left_inv (fun T => bulk_nodes_ids T = bulk_nodes_ids t /\
           boundary_nodes_ids_set_ T = boundary_nodes_ids_set_ t /\
           length (nodes_ T) = length (nodes_ t))); [auto|].
  intros T i (B & Bd & L). cbv beta zeta.
  cbn [bulk_nodes_ids boundary_nodes_ids_set_ nodes_ with_nodes]. unfold set_nn_ids.
  rewrite !length_set_node. auto.
Qed.

Lemma scale_all_nodes_to_R_init_shape t :
  bulk_nodes_ids (scale_all_nodes_to_R_init t) = bulk_nodes_ids t /\
  boundary_nodes_ids_set_ (scale_all_nodes_to_R_init t) = boundary_nodes_ids_set_ t /\
  length (nodes_ (scale_all_nodes_to_R_init t)) = length (nodes_ t).
Proof.
  unfold scale_all_nodes_to_R_init. cbv zeta.
  cbn [bulk_nodes_ids boundary_nodes_ids_set_ nodes_ with_nodes]. split; [reflexivity|].
  split; [reflexivity|].
  apply (fold_left_inv (fun s => length s = length (nodes_ t))); [reflexivity|].
  intros s i L. cbv beta zeta. unfold set_pos. rewrite length_set_node. exact L.
Qed.

(** [make_global_geometry] on a mesh whose bulk ids are the indices of the
    node vector and which has no boundary: the global geometry is the sum
    over the nodes. *)
Lemma make_global_geometry_consistent t :
  boundary_nodes_ids_set_ t = [] ->
  bulk_nodes_ids t = map N.of_nat (seq 0 (length (nodes_ t))) ->
  geometry_consistent (make_global_geometry t).
Proof.
  intros Hb Hbulk. unfold make_global_geometry. cbv zeta. rewrite Hb. cbn [fold_left].
  set (G := fun t' k =>
              update_global_geometry (update_bulk_node_geometry t' k) geometry_zero
                (geometry_of_node (node_at (nodes_ (update_bulk_node_geometry t' k)) k))).
  assert (Inv : forall l T P, NoDup (P ++ l) ->
            global_geometry_ T = gsum (node_geometry (nodes_ T)) P ->
            length (nodes_ (fold_left G l T)) = length (nodes_ T) /\
            global_geometry_ (fold_left G l T) = gsum (node_geometry (nodes_ (fold_left G l T))) (P ++ l)).
  { induction l as [|k l IH]; intros T P Hnd Hg.
    - cbn [fold_left]. rewrite app_nil_r. auto.
    - cbn [fold_left].
      assert (HG : length (nodes_ (G T k)) = length (nodes_ T) /\
                   global_geometry_ (G T k) = gsum (node_geometry (nodes_ (G T k))) (P ++ [k])).
      { unfold G. rewrite update_bulk_node_geometry_eq.
        cbn [update_global_geometry with_global with_nodes global_geometry_ nodes_].
        rewrite length_set_node. split; [reflexivity|].
        rewrite Hg, gsum_app, gsum_cons, gsum_nil.
        rewrite (gsum_ext (node_geometry (set_node _ k _)) (node_geometry (nodes_ T)) P).
        - geo.
        - intros x Hx. unfold node_geometry. rewrite node_at_set_node_neq; [reflexivity|].
          intros E. subst x. apply (NoDup_remove_2 P l k Hnd). apply in_or_app. left. exact Hx. }
      destruct HG as [L1 G1].
      destruct (IH (G T k) (P ++ [k])) as [L2 G2].
      + rewrite <- app_assoc. exact Hnd.
      + exact G1.
      + split; [rewrite L2; exact L1|]. rewrite G2, <- app_assoc. reflexivity. }
  rewrite Hbulk.
  destruct (Inv (map N.of_nat (seq 0 (length (nodes_ t)))) (with_global t geometry_zero) [])
    as [L G1]; [apply NoDup_ids|reflexivity|].
  unfold geometry_consistent. rewrite G1, node_geometry_sum_ids, L. reflexivity.
Qed.

Lemma initiate_advanced_geometry_consistent t :
  boundary_nodes_ids_set_ t = [] ->
  bulk_nodes_ids t = map N.of_nat (seq 0 (length (nodes_ t))) ->
  geometry_consistent (initiate_advanced_geometry t).
Proof.
  intros Hb Hbulk. unfold initiate_advanced_geometry. cbv zeta.
  destruct (initiate_distance_vectors_shape t) as (B & Bd & L).
  assert (HT : geometry_consistent (make_global_geometry (initiate_distance_vectors t))).
  { apply make_global_geometry_consistent; [rewrite Bd; exact Hb|rewrite B, L; exact Hbulk]. }
  set (T := make_global_geometry (initiate_distance_vectors t)) in *.
  destruct (make_verlet_list_geometry (set_verlet_radius T (verlet_radius T))) as [G M].
  unfold geometry_consistent. rewrite G, (node_geometry_sum_map _ _ M). exact HT.
Qed.

Lemma triangulation_sphere_consistent gen R0 vr :
  map id gen = map N.of_nat (seq 0 (length gen)) ->
  geometry_consistent (triangulation_sphere gen R0 vr).
Proof.
  intros H. unfold triangulation_sphere. cbv zeta.
  set (T1 := all_nodes_are_bulk _).
  destruct (orient_surface_of_a_sphere_shape (scale_all_nodes_to_R_init T1)) as (B1 & Bd1 & L1).
  destruct (scale_all_nodes_to_R_init_shape T1) as (B2 & Bd2 & L2).
  apply initiate_advanced_geometry_consistent.
  - rewrite Bd1, Bd2. reflexivity.
  - rewrite B1, B2, L1, L2. exact H.
Qed.

Lemma triangulation_from_nodes_consistent nodes_input vr :
  map id nodes_input = map N.of_nat (seq 0 (length nodes_input)) ->
  geometry_consistent (triangulation_from_nodes nodes_input vr).
Proof.
  intros H. unfold triangulation_from_nodes. apply initiate_advanced_geometry_consistent.
  - reflexivity.
  - exact H.
Qed.

Lemma insert_sorted_last k l :
  Forall (fun y => (y < k)%N) l -> insert_sorted k l = l ++ [k].
Proof.
  induction l as [|y l IH]; intros H; [reflexivity|].
  inversion H as [|? ? Hy Hl]; subst. cbn [insert_sorted app].
  rewrite (proj2 (N.leb_gt k y)) by exact Hy. rewrite IH by exact Hl. reflexivity.
Qed.

Lemma set_insert_last k l :
  Forall (fun y => (y < k)%N) l -> set_insert k l = l ++ [k].
Proof.
  intros H. unfold set_insert.
  destruct (is_member l k) eqn:E.
  - exfalso. apply is_member_In in E. rewrite Forall_forall in H. specialize (H k E). lia.
  - apply insert_sorted_last, H.
Qed.

Lemma triangulate_planar_prefix vr triang nl nw len wid m :
  let f := fun i => nth i (is_bulk triang) false in
  let T := fold_left (fun t' i =>
      let node_id := N.of_nat i in
      let node := mkNode node_id 0 0 0
                    (mkV (IZR (Z.of_N (id_to_j triang node_id)) * len / IZR (Z.of_N nl))
                         (IZR (Z.of_N (id_to_i triang node_id)) * wid / IZR (Z.of_N nw)) 0)
                    vzero (nth i (planar_nn_ids triang) []) [] [] in
      let t1 := with_nodes t' (nodes_ t' ++ [node]) in
      if nth i (is_bulk triang) false then with_bulk t1 (bulk_nodes_ids t1 ++ [node_id])
      else with_boundary t1 (set_insert node_id (boundary_nodes_ids_set_ t1)))
    (seq 0 m) (triangulation_base EXPERIMENTAL_PLANAR_TRIANGULATION vr) in
  List.length (nodes_ T) = m /\
  bulk_nodes_ids T = map N.of_nat (filter f (seq 0 m)) /\
  boundary_nodes_ids_set_ T = map N.of_nat (filter (fun i => negb (f i)) (seq 0 m)).
Proof.
  intros f. induction m as [|m IH]; [cbn; auto|].
  cbv zeta in *. rewrite seq_S, fold_left_app. cbn [fold_left Nat.add].
  destruct IH as (L & B & Bd).
  match goal with |- context [fold_left ?F (seq 0 m) ?t0] => set (X := fold_left F (seq 0 m) t0) in * end.
  rewrite !filter_app. cbn [filter].
  change (nth m (is_bulk triang) false) with (f m).
  destruct (f m) eqn:E; cbn [negb].
  - cbn [with_bulk with_nodes nodes_ bulk_nodes_ids boundary_nodes_ids_set_].
    rewrite length_app, L, B, Bd, !map_app, app_nil_r. cbn [map List.length].
    split; [lia|]. split; reflexivity.
  - cbn [with_boundary with_nodes nodes_ bulk_nodes_ids boundary_nodes_ids_set_].
    rewrite length_app, L, B, Bd, !map_app, app_nil_r. cbn [map List.length].
    split; [lia|]. split; [reflexivity|].
    apply set_insert_last. apply Forall_forall. intros y Hy.
    apply in_map_iff in Hy as (i & <- & Hi). apply filter_In in Hi as [Hi _].
    apply in_seq in Hi. lia.
Qed.

Lemma orient_plane_shape t :
  bulk_nodes_ids (orient_plane t) = bulk_nodes_ids t /\
  boundary_nodes_ids_set_ (orient_plane t) = boundary_nodes_ids_set_ t /\
  List.length (nodes_ (orient_plane t)) = List.length (nodes_ t).
Proof.
  unfold orient_plane.
  apply (fold_left_inv (fun T => bulk_nodes_ids T = bulk_nodes_ids t /\
           boundary_nodes_ids_set_ T = boundary_nodes_ids_set_ t /\
           List.length (nodes_ T) = List.length (nodes_ t))); [auto|].
  intros T i (B & Bd & L). cbv beta zeta. destruct (is_boundary T (N.of_nat i)); [auto|].
  cbn [bulk_nodes_ids boundary_nodes_ids_set_ nodes_ with_nodes]. unfold set_nn_ids.
  rewrite !length_set_node. auto.
Qed.

Lemma filter_partition_perm {A} (f : A -> bool) l :
  Permutation (filter f l ++ filter (fun x => negb (f x)) l) l.
Proof.
  induction l as [|x l IH]; [reflexivity|]. cbn [filter].
  destruct (f x); cbn [negb app].
  - constructor. exact IH.
  - symmetry. apply Permutation_cons_app. symmetry. exact IH.
Qed.

Lemma fold_global_sum (F : Tri -> N -> Tri) :
  (forall T k, exists n', nodes_ (F T k) = set_node (nodes_ T) k n' /\
     global_geometry_ (F T k) =
       geometry_add (global_geometry_ T) (geometry_sub (node_geometry (nodes_ (F T k)) k) geometry_zero)) ->
  forall l T P, NoDup (P ++ l) ->
    global_geometry_ T = gsum (node_geometry (nodes_ T)) P ->
    List.length (nodes_ (fold_left F l T)) = List.length (nodes_ T) /\
    global_geometry_ (fold_left F l T) = gsum (node_geometry (nodes_ (fold_left F l T))) (P ++ l).
Proof.
  intros HF. induction l as [|k l IH]; intros T P Hnd Hg.
  - cbn [fold_left]. rewrite app_nil_r. auto.
  - cbn [fold_left].
    assert (HG : List.length (nodes_ (F T k)) = List.length (nodes_ T) /\
                 global_geometry_ (F T k) = gsum (node_geometry (nodes_ (F T k))) (P ++ [k])).
    { destruct (HF T k) as (n' & En & Eg). rewrite Eg, En, length_set_node.
      split; [reflexivity|].
      rewrite Hg, gsum_app, gsum_cons, gsum_nil.
      rewrite (gsum_ext (node_geometry (set_node _ k _)) (node_geometry (nodes_ T)) P).
      - geo.
      - intros x Hx. unfold node_geometry. rewrite node_at_set_node_neq; [reflexivity|].
        intros E. subst x. apply (NoDup_remove_2 P l k Hnd). apply in_or_app. left. exact Hx. }
    destruct HG as [L1 G1].
    destruct (IH (F T k) (P ++ [k])) as [L2 G2].
    + rewrite <- app_assoc. exact Hnd.
    + exact G1.
    + split; [rewrite L2; exact L1|]. rewrite G2, <- app_assoc. reflexivity.
Qed.

Lemma make_global_geometry_consistent_perm t :
  Permutation (bulk_nodes_ids t ++ boundary_nodes_ids_set_ t)
              (map N.of_nat (seq 0 (List.length (nodes_ t)))) ->
  geometry_consistent (make_global_geometry t).
Proof.
  intros Hp. unfold make_global_geometry. cbv zeta.
  assert (Hnd : NoDup (bulk_nodes_ids t ++ boundary_nodes_ids_set_ t)).
  { apply (Permutation_NoDup (Permutation_sym Hp)), NoDup_ids. }
  set (G := fun t' k =>
              update_global_geometry (update_bulk_node_geometry t' k) geometry_zero
                (geometry_of_node (node_at (nodes_ (update_bulk_node_geometry t' k)) k))).
  set (H := fun t' k =>
              update_global_geometry (update_boundary_node_geometry t' k) geometry_zero
                (geometry_of_node (node_at (nodes_ (update_boundary_node_geometry t' k)) k))).
  destruct (fold_global_sum G) with (l := bulk_nodes_ids t) (T := with_global t geometry_zero) (P := @nil N)
    as [L1 G1].
  { intros T k. unfold G. rewrite update_bulk_node_geometry_eq. eexists. split; reflexivity. }
  { exact (NoDup_app_remove_r _ _ Hnd). }
  { reflexivity. }
  destruct (fold_global_sum H) with (l := boundary_nodes_ids_set_ t)
      (T := fold_left G (bulk_nodes_ids t) (with_global t geometry_zero)) (P := bulk_nodes_ids t)
    as [L2 G2].
  { intros T k. unfold H. rewrite update_boundary_node_geometry_eq. eexists. split; reflexivity. }
  { exact Hnd. }
  { exact G1. }
  unfold geometry_consistent. rewrite G2, node_geometry_sum_ids, L2, L1.
  apply gsum_perm. exact Hp.
Qed.

Lemma initiate_advanced_geometry_consistent_perm t :
  Permutation (bulk_nodes_ids t ++ boundary_nodes_ids_set_ t)
              (map N.of_nat (seq 0 (List.length (nodes_ t)))) ->
  geometry_consistent (initiate_advanced_geometry t).
Proof.
  intros Hp. unfold initiate_advanced_geometry. cbv zeta.
  destruct (initiate_distance_vectors_shape t) as (B & Bd & L).
  assert (HT : geometry_consistent (make_global_geometry (initiate_distance_vectors t))).
  { apply make_global_geometry_consistent_perm. rewrite B, Bd, L. exact Hp. }
  set (T := make_global_geometry (initiate_distance_vectors t)) in *.
  destruct (make_verlet_list_geometry (set_verlet_radius T (verlet_radius T))) as [G M].
  unfold geometry_consistent. rewrite G, (node_geometry_sum_map _ _ M). exact HT.
Qed.

Lemma triangulation_planar_consistent triang n_length n_width len wid vr :
  geometry_consistent (triangulation_planar triang n_length n_width len wid vr).
Proof.
  unfold triangulation_planar. apply initiate_advanced_geometry_consistent_perm.
  destruct (orient_plane_shape (triangulate_planar_nodes
       (triangulation_base EXPERIMENTAL_PLANAR_TRIANGULATION vr) triang n_length n_width len wid))
    as (B & Bd & L).
  rewrite B, Bd, L. unfold triangulate_planar_nodes. cbv zeta.
  pose proof (triangulate_planar_prefix vr triang n_length n_width len wid
              (N.to_nat (index_cast (Z.of_N (n_length * n_width))))) as Pr.
  cbv zeta in Pr. destruct Pr as (L' & B' & Bd').
  rewrite L', B', Bd', <- map_app. apply Permutation_map, filter_partition_perm.
Qed.

(** C6. The stored global geometry equals the componentwise sum over all
    nodes of [(area, volume, unit_bending_energy)]: after each of the three
    constructors (for the two spherical ones, the node vector's ids being
    its indices; the planar one, whose bulk and boundary id lists split the
    indices of the nodes it creates, unconditionally), and, when it holds before,
    after [move_node] of a node whose ring has no repetition and does not
    contain it, after [flip_bond] of a bond of such a node with at least
    three neighbours (whether the flip is applied, rolled back or refused),
    and after [unflip_bond] of a flip just applied, under the ring and
    geometry conditions of the flip-unflip lemma. *)
Theorem global_geometry_is_node_sum :
  (forall gen R0 vr, map id gen = map N.of_nat (seq 0 (length gen)) ->
     geometry_consistent (triangulation_sphere gen R0 vr)) /\
  (forall nodes_input vr, map id nodes_input = map N.of_nat (seq 0 (length nodes_input)) ->
     geometry_consistent (triangulation_from_nodes nodes_input vr)) /\
  (forall triang n_length n_width len wid vr,
     geometry_consistent (triangulation_planar triang n_length n_width len wid vr)) /\
  (forall t k d, geometry_consistent t -> NoDup (k :: ring_of t k) ->
     geometry_consistent (move_node t k d)) /\
  (forall t a b mn mx, geometry_consistent t ->
     NoDup (a :: ring_of t a) -> In b (ring_of t a) -> (3 <= length (ring_of t a))%nat ->
     geometry_consistent (fst (flip_bond t a b mn mx))) /\
  (forall (t : Tri) (a b : N) (mn mx : R),
     let nb := previous_and_next_neighbour_global_ids t a b in
     let cm := j_m_1 nb in
     let cp := j_p_1 nb in
     let s := nodes_ t in
     NoDup (a :: ring_of t a) -> In b (ring_of t a) -> (3 <= length (ring_of t a))%nat ->
     NoDup (ring_of t b) -> In a (ring_of t b) ->
     nth (plus_one (find_index a (ring_of t b)) (length (ring_of t b))) (ring_of t b) 0%N = cm ->
     In a (ring_of t cm) -> ~ In cp (ring_of t cm) ->
     In b (ring_of t cp) -> ~ In cm (ring_of t cp) ->
     (forall k, In k [a; b; cm; cp] ->
        length (nn_distances (node_at s k)) = length (nn_ids (node_at s k)) /\
        bulk_node (positions s) (node_at s k) = node_at s k) ->
     flipped (snd (flip_bond t a b mn mx)) = true ->
     geometry_consistent t ->
     geometry_consistent
       (unflip_bond (fst (flip_bond t a b mn mx)) a b (snd (flip_bond t a b mn mx)))).
Proof.
  split; [exact triangulation_sphere_consistent|].
  split; [exact triangulation_from_nodes_consistent|].
  split; [exact triangulation_planar_consistent|].
  split; [exact move_node_consistent|].
  split; [exact flip_bond_consistent|].
  exact unflip_after_flip_consistent.
Qed.

Lemma ico_consistent_flip_0_1_applied : flipped (snd (flip_bond ico_consistent 0 1 0 100)) = true.
Proof.
  unfold ico_consistent.
  apply flip_bond_spherical_applied; cbv zeta;
    change (previous_and_next_neighbour_global_ids (with_global ico ?g) 0 1)
      with (previous_and_next_neighbour_global_ids ico 0 1);
    rewrite ?ico_neighbours_0_1; cbn [j_m_1 j_p_1];
    change (ring_of (with_global ico ?g)) with (ring_of ico);
    change (nodes_ (with_global ico ?g)) with (nodes_ ico).
  - reflexivity.
  - rewrite ring_of_ico. cbv. lia.
  - rewrite ring_of_ico. cbv. lia.
  - rewrite !pos_of_ico by (cbv; lia). simpl. unfold norm_square, dot, vsub; simpl. lra.
  - rewrite !pos_of_ico by (cbv; lia). simpl. unfold norm_square, dot, vsub; simpl. lra.
  - reflexivity.
  - reflexivity.
Qed.

Lemma global_geometry_is_node_sum_witness :
  geometry_consistent ico_consistent /\
  geometry_consistent (triangulation_sphere (mesh_of ico_positions ico_rings) 3 1) /\
  geometry_consistent (triangulation_from_nodes (nodes_ ico) 1) /\
  geometry_consistent (triangulation_planar grid3 3 3 2 2 1) /\
  geometry_consistent (move_node ico_consistent 0 (mkV 1 0 0)) /\
  geometry_consistent (fst (flip_bond ico_consistent 0 1 0 100)) /\
  geometry_consistent
    (unflip_bond (fst (flip_bond ico_consistent 0 1 0 100)) 0 1 (snd (flip_bond ico_consistent 0 1 0 100))).
Proof.
  assert (Hc : geometry_consistent ico_consistent) by reflexivity.
  assert (Hr : forall k, ring_of ico_consistent k = nth (N.to_nat k) ico_rings [])
    by (intros k; apply ring_of_ico).
  destruct global_geometry_is_node_sum as (P1 & P2 & P3 & P4 & P5 & P6).
  split; [exact Hc|].
  split; [apply P1; reflexivity|].
  split; [apply P2; reflexivity|].
  split; [apply P3|].
  split; [apply P4; [exact Hc|rewrite Hr; simpl; repeat constructor; simpl; intuition discriminate]|].
  split; [apply P5; [exact Hc|rewrite Hr; simpl; repeat constructor; simpl; intuition discriminate
                    |rewrite Hr; simpl; tauto|rewrite Hr; simpl; lia]|].
  apply P6; cbv zeta;
    change (previous_and_next_neighbour_global_ids ico_consistent 0 1)
      with (previous_and_next_neighbour_global_ids ico 0 1);
    rewrite ?ico_neighbours_0_1; cbn [j_m_1 j_p_1]; rewrite ?Hr.
  - simpl. repeat constructor; simpl; intuition discriminate.
  - simpl. tauto.
  - simpl. lia.
  - simpl. repeat constructor; simpl; intuition discriminate.
  - simpl. tauto.
  - reflexivity.
  - simpl. tauto.
  - simpl. intuition discriminate.
  - simpl. tauto.
  - simpl. intuition discriminate.
  - intros k Hk. change (nodes_ ico_consistent) with (nodes_ ico). apply ico_coherent.
    simpl in Hk. destruct Hk as [<-|[<-|[<-|[<-|[]]]]]; cbv; lia.
  - exact ico_consistent_flip_0_1_applied.
  - exact Hc.
Defined.

Lemma flip_bond_fst_applied t a b mn mx :
  flipped (snd (flip_bond t a b mn mx)) = true ->
  fst (flip_bond t a b mn mx) =
  let nb := previous_and_next_neighbour_global_ids t a b in
  let cm := j_m_1 nb in
  let cp := j_p_1 nb in
  let t1 := with_pre t (calculate_diamond_geometry t a b cm cp) in
  let t2 := fst (flip_bond_unchecked t1 a b cm cp) in
  let t3 := update_diamond_geometry t2 a b cm cp in
  let t4 := with_post t3 (calculate_diamond_geometry t3 a b cm cp) in
  update_global_geometry t4 (pre_update_geometry t4) (post_update_geometry t4).
Proof.
  intros H. rewrite (flip_bond_flipped t a b mn mx H) in H |- *.
  rewrite (flip_bond_in_quadrilateral_flipped t a b _ mn mx H). reflexivity.
Qed.

(** When the checks before the rewrite pass and the rewritten pair [cm],
    [cp] does not have exactly two common neighbours, [flip_bulk_bond] rolls
    the rewrite back and reports [{false, cm, cp}]. *)
Lemma flip_bond_spherical_rolled_back t a b mn mx :
  triangulation_type t = SPHERICAL_TRIANGULATION ->
  (BOND_DONATION_CUTOFF < length (ring_of t a))%nat ->
  (BOND_DONATION_CUTOFF < length (ring_of t b))%nat ->
  let nb := previous_and_next_neighbour_global_ids t a b in
  let cm := j_m_1 nb in
  let cp := j_p_1 nb in
  let bl := norm_square (vsub (pos_of (nodes_ t) cm) (pos_of (nodes_ t) cp)) in
  bl < mx -> mn < bl ->
  length (common_neighbours t a b) = 2%nat ->
  length (common_neighbours
            (fst (flip_bond_unchecked (with_pre t (calculate_diamond_geometry t a b cm cp)) a b cm cp))
            cm cp) <> 2%nat ->
  snd (flip_bond t a b mn mx) = mkBondFlipData false cm cp.
Proof.
  intros Hty H1 H2 nb cm cp bl Hmx Hmn Hc1 Hc2.
  unfold flip_bond. rewrite Hty. unfold flip_bulk_bond.
  rewrite (proj2 (Nat.ltb_lt _ _) H1), (proj2 (Nat.ltb_lt _ _) H2).
  unfold flip_bond_in_quadrilateral. cbv zeta. fold nb. fold cm cp. fold bl.
  unfold Rltb. destruct (Rlt_dec bl mx) as [_|C]; [|contradiction].
  destruct (Rlt_dec mn bl) as [_|C]; [|contradiction]. cbn [andb].
  rewrite Hc1. cbn [Nat.eqb].
  rewrite (surjective_pairing (flip_bond_unchecked _ a b cm cp)).
  rewrite flip_bond_unchecked_snd. cbn [common_nn_0 common_nn_1].
  rewrite (proj2 (Nat.eqb_neq _ _) Hc2).
  destruct (flip_bond_unchecked _ cm cp b a). reflexivity.
Qed.

Lemma nodes_with_pre t g : nodes_ (with_pre t g) = nodes_ t.
Proof. reflexivity. Qed.

Lemma nodes_with_post t g : nodes_ (with_post t g) = nodes_ t.
Proof. reflexivity. Qed.

Lemma nodes_update_global_geometry t g1 g2 : nodes_ (update_global_geometry t g1 g2) = nodes_ t.
Proof. reflexivity. Qed.

Lemma positions_flip_bond_applied t a b mn mx :
  flipped (snd (flip_bond t a b mn mx)) = true ->
  positions (nodes_ (fst (flip_bond t a b mn mx))) = positions (nodes_ t).
Proof.
  intros H. rewrite (flip_bond_fst_applied t a b mn mx H). cbv zeta.
  rewrite nodes_update_global_geometry, nodes_with_post, update_diamond_geometry_eq, nodes_with_nodes,
    (fold_upd_positions _ bulk_F_pos), positions_flip_bond_unchecked, nodes_with_pre.
  reflexivity.
Qed.

Lemma type_with_nodes t s : triangulation_type (with_nodes t s) = triangulation_type t.
Proof. reflexivity. Qed.

Lemma type_with_pre t g : triangulation_type (with_pre t g) = triangulation_type t.
Proof. reflexivity. Qed.

Lemma type_with_post t g : triangulation_type (with_post t g) = triangulation_type t.
Proof. reflexivity. Qed.

Lemma type_update_global_geometry t g1 g2 :
  triangulation_type (update_global_geometry t g1 g2) = triangulation_type t.
Proof. reflexivity. Qed.

Lemma type_flip_bond_unchecked t a b c d :
  triangulation_type (fst (flip_bond_unchecked t a b c d)) = triangulation_type t.
Proof.
  unfold flip_bond_unchecked, delete_connection_between_nodes_of_old_edge, emplace_before.
  cbn [fst]. rewrite !type_with_nodes. reflexivity.
Qed.

Lemma type_flip_bond_applied t a b mn mx :
  flipped (snd (flip_bond t a b mn mx)) = true ->
  triangulation_type (fst (flip_bond t a b mn mx)) = triangulation_type t.
Proof.
  intros H. rewrite (flip_bond_fst_applied t a b mn mx H). cbv zeta.
  rewrite type_update_global_geometry, type_with_post, update_diamond_geometry_eq, type_with_nodes,
    type_flip_bond_unchecked, type_with_pre.
  reflexivity.
Qed.


Lemma ico_t1_form : ico_t1 =
  (let nb := previous_and_next_neighbour_global_ids ico 0 1 in let cm := j_m_1 nb in let cp := j_p_1 nb in
  let t1 := with_pre ico (calculate_diamond_geometry ico 0 1 cm cp) in
  let t2 := fst (flip_bond_unchecked t1 0 1 cm cp) in
  let t3 := update_diamond_geometry t2 0 1 cm cp in
  let t4 := with_post t3 (calculate_diamond_geometry t3 0 1 cm cp) in
  update_global_geometry t4 (pre_update_geometry t4) (post_update_geometry t4)).
Proof. exact (flip_bond_fst_applied ico 0 1 0 100 ico_flip_0_1_applied). Qed.

Lemma ico_t1_pos k : pos_of (nodes_ ico_t1) k = pos_of (nodes_ ico) k.
Proof.
  unfold ico_t1. rewrite !pos_of_positions, (positions_flip_bond_applied ico 0 1 0 100 ico_flip_0_1_applied).
  reflexivity.
Qed.

Lemma ico_t1_prev_3_7 : previous_and_next_neighbour_global_ids ico_t1 3 7 = mkNeighbors 2 8.
Proof. rewrite ico_t1_form. reflexivity. Qed.

Lemma ico_t1_flip_3_7_applied : flipped (snd (flip_bond ico_t1 3 7 0 100)) = true.
Proof.
  apply flip_bond_spherical_applied; cbv zeta; rewrite ?ico_t1_prev_3_7; cbn [j_m_1 j_p_1];
    rewrite ?ico_t1_pos.
  - unfold ico_t1. rewrite (type_flip_bond_applied ico 0 1 0 100 ico_flip_0_1_applied). reflexivity.
  - apply Nat.ltb_lt. rewrite ico_t1_form. reflexivity.
  - apply Nat.ltb_lt. rewrite ico_t1_form. reflexivity.
  - rewrite !pos_of_ico by (cbv; lia). simpl. unfold norm_square, dot, vsub; simpl. lra.
  - rewrite !pos_of_ico by (cbv; lia). simpl. unfold norm_square, dot, vsub; simpl. lra.
  - rewrite ico_t1_form. reflexivity.
  - rewrite ico_t1_form. reflexivity.
Qed.


Lemma ico_t2_form : ico_t2 =
  (let nb := previous_and_next_neighbour_global_ids ico_t1 3 7 in let cm := j_m_1 nb in let cp := j_p_1 nb in
  let t1 := with_pre ico_t1 (calculate_diamond_geometry ico_t1 3 7 cm cp) in
  let t2 := fst (flip_bond_unchecked t1 3 7 cm cp) in
  let t3 := update_diamond_geometry t2 3 7 cm cp in
  let t4 := with_post t3 (calculate_diamond_geometry t3 3 7 cm cp) in
  update_global_geometry t4 (pre_update_geometry t4) (post_update_geometry t4)).
Proof. exact (flip_bond_fst_applied ico_t1 3 7 0 100 ico_t1_flip_3_7_applied). Qed.

Lemma ico_t2_pos k : pos_of (nodes_ ico_t2) k = pos_of (nodes_ ico) k.
Proof.
  unfold ico_t2. rewrite !pos_of_positions, (positions_flip_bond_applied ico_t1 3 7 0 100 ico_t1_flip_3_7_applied).
  rewrite <- !pos_of_positions. apply ico_t1_pos.
Qed.

Lemma ico_t2_prev_4_9 : previous_and_next_neighbour_global_ids ico_t2 4 9 = mkNeighbors 8 5.
Proof. rewrite ico_t2_form, ico_t1_form. reflexivity. Qed.

Lemma ico_t1_type : triangulation_type ico_t1 = triangulation_type ico.
Proof. unfold ico_t1. apply (type_flip_bond_applied ico 0 1 0 100 ico_flip_0_1_applied). Qed.

Lemma ico_t2_flip_4_9_rolled_back : snd (flip_bond ico_t2 4 9 0 100) = mkBondFlipData false 8 5.
Proof.
  pose proof (flip_bond_spherical_rolled_back ico_t2 4 9 0 100) as R.
  cbv zeta in R. rewrite ico_t2_prev_4_9 in R. cbn [j_m_1 j_p_1] in R. rewrite !ico_t2_pos in R.
  apply R.
  - unfold ico_t2. rewrite (type_flip_bond_applied _ 3 7 0 100 ico_t1_flip_3_7_applied),
      ico_t1_type. reflexivity.
  - apply Nat.ltb_lt. rewrite ico_t2_form, ico_t1_form. reflexivity.
  - apply Nat.ltb_lt. rewrite ico_t2_form, ico_t1_form. reflexivity.
  - rewrite !pos_of_ico by (cbv; lia). simpl. unfold norm_square, dot, vsub; simpl. lra.
  - rewrite !pos_of_ico by (cbv; lia). simpl. unfold norm_square, dot, vsub; simpl. lra.
  - rewrite ico_t2_form, ico_t1_form. reflexivity.
  - apply Nat.eqb_neq. rewrite ico_t2_form, ico_t1_form. reflexivity.
Qed.

(** C4 does not hold for the rolled-back flip. On the icosahedral mesh
    [ico], the flip of the bond [0]-[1] and then the flip of the bond
    [3]-[7] are applied; on the resulting mesh [ico_t2], the flip of the
    bond [4]-[9] passes every check before the rewrite, but the new pair
    [8], [5] then has three common neighbours ([2], [4] and [9]). The
    rewrite is rolled back and the report is [{false, 8, 5}]: its ids are
    real node ids, not the sentinel [vln]. *)
Lemma flip_rollback_reports_real_ids :
  flipped (snd (flip_bond ico 0 1 0 100)) = true /\
  flipped (snd (flip_bond ico_t1 3 7 0 100)) = true /\
  flipped (snd (flip_bond ico_t2 4 9 0 100)) = false /\
  common_nn_0 (snd (flip_bond ico_t2 4 9 0 100)) = 8%N /\
  common_nn_1 (snd (flip_bond ico_t2 4 9 0 100)) = 5%N /\
  common_nn_0 (snd (flip_bond ico_t2 4 9 0 100)) <> vln /\
  common_nn_1 (snd (flip_bond ico_t2 4 9 0 100)) <> vln.
Proof.
  rewrite ico_t2_flip_4_9_rolled_back. cbn [flipped common_nn_0 common_nn_1].
  split; [exact ico_flip_0_1_applied|]. split; [exact ico_t1_flip_3_7_applied|].
  split; [reflexivity|]. split; [reflexivity|]. split; [reflexivity|].
  split; vm_compute; discriminate.
Qed.

(** C1, as the code has it: in spherical mode the flip of the bond
    [a]-[b] is applied exactly when both nodes have more than
    [BOND_DONATION_CUTOFF] (= 4) neighbours, the squared distance between
    the two common neighbours [cm], [cp] lies strictly between the bounds,
    [a] and [b] have exactly two common neighbours, and after the rewrite
    [cm] and [cp] have exactly two common neighbours. *)
Theorem flip_bond_spherical_applied_iff t a b mn mx :
  triangulation_type t = SPHERICAL_TRIANGULATION ->
  let nb := previous_and_next_neighbour_global_ids t a b in
  let cm := j_m_1 nb in
  let cp := j_p_1 nb in
  let bl := norm_square (vsub (pos_of (nodes_ t) cm) (pos_of (nodes_ t) cp)) in
  flipped (snd (flip_bond t a b mn mx)) = true <->
  ((BOND_DONATION_CUTOFF < length (ring_of t a))%nat /\
   (BOND_DONATION_CUTOFF < length (ring_of t b))%nat /\
   bl < mx /\ mn < bl /\
   length (common_neighbours t a b) = 2%nat /\
   length (common_neighbours
             (fst (flip_bond_unchecked (with_pre t (calculate_diamond_geometry t a b cm cp)) a b cm cp))
             cm cp) = 2%nat).
Proof.
  intros Hty nb cm cp bl. split.
  - intros H. unfold flip_bond in H. rewrite Hty in H. unfold flip_bulk_bond in H.
    destruct (Nat.ltb BOND_DONATION_CUTOFF (length (ring_of t a))) eqn:E1;
      [|cbn [snd flipped default_bfd] in H; discriminate H].
    destruct (Nat.ltb BOND_DONATION_CUTOFF (length (ring_of t b))) eqn:E2;
      [|cbn [snd flipped default_bfd] in H; discriminate H].
    unfold flip_bond_in_quadrilateral in H. cbv zeta in H. fold nb cm cp bl in H.
    unfold Rltb in H. destruct (Rlt_dec bl mx) as [H3|_];
      [|cbn [andb snd flipped default_bfd] in H; discriminate H].
    destruct (Rlt_dec mn bl) as [H4|_];
      [|cbn [andb snd flipped default_bfd] in H; discriminate H].
    cbn [andb] in H.
    destruct (Nat.eqb (length (common_neighbours t a b)) 2) eqn:E5;
      [|cbn [snd flipped default_bfd] in H; discriminate H].
    rewrite (surjective_pairing (flip_bond_unchecked _ a b cm cp)) in H.
    rewrite flip_bond_unchecked_snd in H. cbn [common_nn_0 common_nn_1] in H.
    destruct (Nat.eqb (length (common_neighbours
               (fst (flip_bond_unchecked (with_pre t (calculate_diamond_geometry t a b cm cp)) a b cm cp))
               cm cp)) 2) eqn:E6.
    + apply Nat.ltb_lt in E1, E2. apply Nat.eqb_eq in E5, E6. tauto.
    + destruct (flip_bond_unchecked _ cm cp b a). cbn [snd flipped] in H. discriminate H.
  - intros (H1 & H2 & H3 & H4 & H5 & H6).
    exact (flip_bond_spherical_applied t a b mn mx Hty H1 H2 H3 H4 H5 H6).
Qed.

Lemma flip_bond_spherical_applied_iff_witness :
  triangulation_type ico = SPHERICAL_TRIANGULATION /\
  (flipped (snd (flip_bond ico 0 1 0 100)) = true <->
   ((BOND_DONATION_CUTOFF < length (ring_of ico 0))%nat /\
    (BOND_DONATION_CUTOFF < length (ring_of ico 1))%nat /\
    norm_square (vsub (pos_of (nodes_ ico) 5) (pos_of (nodes_ ico) 2)) < 100 /\
    0 < norm_square (vsub (pos_of (nodes_ ico) 5) (pos_of (nodes_ ico) 2)) /\
    length (common_neighbours ico 0 1) = 2%nat /\
    length (common_neighbours
              (fst (flip_bond_unchecked (with_pre ico (calculate_diamond_geometry ico 0 1 5 2)) 0 1 5 2))
              5 2) = 2%nat)).
Proof.
  split; [reflexivity|].
  pose proof (flip_bond_spherical_applied_iff ico 0 1 0 100 eq_refl) as H.
  cbv zeta in H. rewrite ico_neighbours_0_1 in H. cbn [j_m_1 j_p_1] in H. exact H.
Defined.

(** C1 does not hold: [ico] is a spherical mesh with the connectivity of
    the icosahedron, every one of its twelve nodes has exactly five
    neighbours, and the flip of its bond [0]-[1] with the bond-length
    bounds [0] and [100] is applied; a node of degree five can donate a
    bond, since the code only asks for more than [BOND_DONATION_CUTOFF] = 4
    neighbours. *)
Lemma icosahedron_degree_five_flip_applied :
  triangulation_type ico = SPHERICAL_TRIANGULATION /\
  length (nodes_ ico) = 12%nat /\
  (forall k, (N.to_nat k < 12)%nat -> length (ring_of ico k) = 5%nat) /\
  flipped (snd (flip_bond ico 0 1 0 100)) = true.
Proof.
  split; [reflexivity|]. split; [reflexivity|]. split.
  - intros k Hk. rewrite ring_of_ico. remember (N.to_nat k) as n eqn:En. clear En.
    do 12 (destruct n as [|n]; [reflexivity|]). lia.
  - exact ico_flip_0_1_applied.
Qed.

(** * Further properties of the code *)

(** On a ring of [n] entries, [Neighbors::plus_one] and
    [Neighbors::minus_one] stay inside the ring and undo each other. *)
Lemma plus_one_minus_one_inverse (n j : nat) :
  (j < n)%nat ->
  (plus_one j n < n)%nat /\ (minus_one j n < n)%nat /\
  minus_one (plus_one j n) n = j /\ plus_one (minus_one j n) n = j.
Proof.
  intros H. unfold plus_one, minus_one.
  destruct (Nat.ltb_spec j (n - 1)); destruct (Nat.eqb_spec j 0); subst;
    repeat match goal with
    | |- context [Nat.ltb ?a ?b] => destruct (Nat.ltb_spec a b)
    | |- context [Nat.eqb ?a ?b] => destruct (Nat.eqb_spec a b)
    end; cbn; lia.
Qed.

Lemma plus_one_minus_one_inverse_witness :
  (2 < 5)%nat /\
  ((plus_one 2 5 < 5)%nat /\ (minus_one 2 5 < 5)%nat /\
   minus_one (plus_one 2 5) 5 = 2%nat /\ plus_one (minus_one 2 5) 5 = 2%nat).
Proof. split; [lia|]. apply (plus_one_minus_one_inverse 5 2). lia. Defined.

Lemma nth_length_last {A} (x : A) l d : nth (length l) (x :: l) d = last (x :: l) d.
Proof.
  revert x; induction l as [|y l IH]; intros x; [reflexivity|].
  change (nth (length l) (y :: l) d = last (x :: y :: l) d). rewrite IH. reflexivity.
Qed.

Lemma nth_length_app_last {A} (x : A) l m d d' : nth (length l) (x :: l ++ m) d = last (x :: l) d'.
Proof.
  revert x; induction l as [|y l IH]; intros x; [reflexivity|].
  change (nth (length l) (y :: l ++ m) d = last (x :: y :: l) d'). rewrite IH. reflexivity.
Qed.

Lemma nth_pred_length_app_last {A} (l m : list A) d d' :
  l <> [] -> nth (length l - 1) (l ++ m) d = last l d'.
Proof.
  intros H. destruct l as [|x l]; [contradiction|].
  cbn [length]. replace (S (length l) - 1)%nat with (length l) by lia.
  apply nth_length_app_last.
Qed.

(** The previous and next neighbour of [nn] in the ring of [k], read
    cyclically around the first occurrence of [nn]. *)
Lemma previous_and_next_neighbour_cyclic t k nn l1 l2 :
  ring_of t k = l1 ++ nn :: l2 -> ~ In nn l1 ->
  previous_and_next_neighbour_global_ids t k nn =
  mkNeighbors (last l1 (last (nn :: l2) 0%N)) (hd (hd 0%N (l1 ++ [nn])) l2).
Proof.
  intros E H. unfold previous_and_next_neighbour_global_ids. rewrite E.
  rewrite (find_index_app _ _ _ H). rewrite length_app. cbn [length].
  unfold minus_one, plus_one. f_equal.
  - destruct (Nat.eqb_spec (length l1) 0) as [L|L].
    + destruct l1; [|discriminate L]. cbn [app length].
      replace (0 + S (length l2) - 1)%nat with (length l2) by lia.
      apply nth_length_last.
    + apply nth_pred_length_app_last. intros ->. apply L. reflexivity.
  - destruct (Nat.ltb_spec (length l1) (length l1 + S (length l2) - 1)) as [L|L].
    + destruct l2 as [|y l2]; [cbn in L; lia|]. cbn [hd].
      rewrite app_nth2 by lia. replace (S (length l1) - length l1)%nat with 1%nat by lia. reflexivity.
    + destruct l2 as [|y l2]; [|cbn in L; lia]. cbn [hd].
      destruct l1; reflexivity.
Qed.

Lemma previous_and_next_neighbour_cyclic_witness :
  ring_of ico 0 = [] ++ 1%N :: [2; 3; 4; 5]%N /\ ~ In 1%N [] /\
  previous_and_next_neighbour_global_ids ico 0 1 =
  mkNeighbors (last [] (last (1%N :: [2; 3; 4; 5]%N) 0%N)) (hd (hd 0%N ([] ++ [1%N])) [2; 3; 4; 5]%N).
Proof.
  assert (E : ring_of ico 0 = [] ++ 1%N :: [2; 3; 4; 5]%N) by (rewrite ring_of_ico; reflexivity).
  assert (H : ~ In 1%N []) by (intros []).
  split; [exact E|]. split; [exact H|].
  exact (previous_and_next_neighbour_cyclic ico 0 1 [] [2; 3; 4; 5]%N E H).
Defined.

(** For an id absent from the (non-empty) ring of [k], the previous and
    next neighbours are the last and the first entry of the ring. *)
Lemma previous_and_next_neighbour_absent t k nn :
  ring_of t k <> [] -> ~ In nn (ring_of t k) ->
  previous_and_next_neighbour_global_ids t k nn =
  mkNeighbors (last (ring_of t k) 0%N) (hd 0%N (ring_of t k)).
Proof.
  intros Hne H. unfold previous_and_next_neighbour_global_ids.
  rewrite (find_index_absent _ _ H). unfold minus_one, plus_one.
  destruct (ring_of t k) as [|x r] eqn:E; [contradiction|]. cbn [length].
  destruct (Nat.eqb_spec (S (length r)) 0) as [L|_]; [lia|].
  destruct (Nat.ltb_spec (S (length r)) (S (length r) - 1)) as [L|_]; [lia|].
  f_equal. replace (S (length r) - 1)%nat with (length r) by lia.
  apply nth_length_last.
Qed.

Lemma previous_and_next_neighbour_absent_witness :
  ring_of ico 0 <> [] /\ ~ In 0%N (ring_of ico 0) /\
  previous_and_next_neighbour_global_ids ico 0 0 = mkNeighbors 5 1.
Proof.
  assert (H1 : ring_of ico 0 <> []) by (rewrite ring_of_ico; discriminate).
  assert (H2 : ~ In 0%N (ring_of ico 0)) by (rewrite ring_of_ico; cbn; lia).
  split; [exact H1|]. split; [exact H2|].
  rewrite (previous_and_next_neighbour_absent ico 0 0 H1 H2), ring_of_ico. reflexivity.
Defined.

(** [emplace_nn_id] followed by [pop_nn] of the same id gives the node
    back, when the insertion position is inside the ring, the id was not a
    neighbour and the distance list is as long as the ring. *)
Lemma emplace_nn_id_pop_nn n x p i :
  (i < length (nn_ids n))%nat -> length (nn_distances n) = length (nn_ids n) ->
  ~ In x (nn_ids n) ->
  pop_nn (emplace_nn_id n x p i) x = n.
Proof.
  intros Hi Hd Hx. unfold emplace_nn_id. rewrite (proj2 (Nat.ltb_lt _ _) Hi).
  unfold pop_nn. cbn [nn_ids set_nn_lists nn_distances].
  assert (Hf : find_index x (insert_at i x (nn_ids n)) = i).
  { unfold insert_at. rewrite find_index_app.
    - apply firstn_length_le. lia.
    - intros I. apply Hx. rewrite <- (firstn_skipn i (nn_ids n)). apply in_or_app; left; exact I. }
  rewrite Hf, length_insert_at by lia.
  destruct (Nat.ltb_spec i (S (length (nn_ids n)))) as [_|C]; [|lia].
  rewrite set_nn_lists_twice, !erase_at_insert_at by lia.
  destruct n; reflexivity.
Qed.

Lemma emplace_nn_id_pop_nn_witness :
  let n := mkNode 0 0 0 0 vzero vzero [1; 2]%N [vzero; vzero] [] in
  ((1 < length (nn_ids n))%nat /\ length (nn_distances n) = length (nn_ids n) /\
   ~ In 3%N (nn_ids n)) /\
  pop_nn (emplace_nn_id n 3 (mkV 1 2 3) 1) 3 = n.
Proof.
  cbv zeta.
  assert (H1 : (1 < length (nn_ids (mkNode 0 0 0 0 vzero vzero [1; 2]%N [vzero; vzero] [])))%nat)
    by (cbn; lia).
  assert (H2 : length (nn_distances (mkNode 0 0 0 0 vzero vzero [1; 2]%N [vzero; vzero] [])) =
               length (nn_ids (mkNode 0 0 0 0 vzero vzero [1; 2]%N [vzero; vzero] [])))
    by reflexivity.
  assert (H3 : ~ In 3%N (nn_ids (mkNode 0 0 0 0 vzero vzero [1; 2]%N [vzero; vzero] [])))
    by (cbn; lia).
  split; [tauto|]. exact (emplace_nn_id_pop_nn _ 3 (mkV 1 2 3) 1 H1 H2 H3).
Defined.

(** ** Sorting and [std::set_intersection] *)

Lemma insert_sorted_perm x l : Permutation (insert_sorted x l) (x :: l).
Proof.
  induction l as [|y r IH]; cbn; [reflexivity|].
  destruct (N.leb x y); [reflexivity|].
  rewrite IH. apply perm_swap.
Qed.

Lemma sort_ids_perm l : Permutation (sort_ids l) l.
Proof.
  induction l as [|x r IH]; cbn; [reflexivity|].
  rewrite insert_sorted_perm. now apply perm_skip.
Qed.

Lemma insert_sorted_sorted x l : Sorted N.le l -> Sorted N.le (insert_sorted x l).
Proof.
  induction 1 as [|y r Hs IH Hd]; cbn; [repeat constructor|].
  destruct (N.leb_spec x y) as [L|L].
  - constructor; [constructor; auto|constructor; exact L].
  - constructor; [exact IH|].
    destruct r as [|z r]; cbn; [constructor; lia|].
    inversion Hd; subst. destruct (N.leb x z); constructor; lia.
Qed.

Lemma sort_ids_sorted l : Sorted N.le (sort_ids l).
Proof. induction l; cbn; [constructor|]. now apply insert_sorted_sorted. Qed.

Lemma set_intersection_cons x r1 y r2 :
  set_intersection (x :: r1) (y :: r2) =
  if N.ltb x y then set_intersection r1 (y :: r2)
  else if N.ltb y x then set_intersection (x :: r1) r2
  else x :: set_intersection r1 r2.
Proof. reflexivity. Qed.

Lemma set_intersection_nil_r l : set_intersection l [] = [].
Proof. destruct l; reflexivity. Qed.

Lemma set_intersection_In_l z l1 l2 :
  In z (set_intersection l1 l2) -> In z l1 /\ In z l2.
Proof.
  revert l2; induction l1 as [|x r1 IH1]; intros l2; [cbn; tauto|].
  induction l2 as [|y r2 IH2]; [rewrite set_intersection_nil_r; cbn; tauto|].
  rewrite set_intersection_cons.
  destruct (N.ltb_spec x y) as [L1|L1]; [|destruct (N.ltb_spec y x) as [L2|L2]].
  - intros H. destruct (IH1 _ H). cbn; tauto.
  - intros H. destruct (IH2 H). cbn; tauto.
  - intros [E|H]; [subst; cbn; split; [tauto|left; lia]|].
    destruct (IH1 _ H). cbn; tauto.
Qed.

Lemma Sorted_le_head x r z : Sorted N.le (x :: r) -> In z r -> (x <= z)%N.
Proof.
  intros S. apply Sorted_StronglySorted in S; [|intros ? ? ?; lia].
  inversion S; subst. intros I. rewrite Forall_forall in *. auto.
Qed.

Lemma set_intersection_In_r z l1 l2 :
  Sorted N.le l1 -> Sorted N.le l2 -> In z l1 -> In z l2 ->
  In z (set_intersection l1 l2).
Proof.
  revert l2; induction l1 as [|x r1 IH1]; intros l2 S1; [cbn; tauto|].
  induction l2 as [|y r2 IH2]; intros S2; [cbn; tauto|].
  rewrite set_intersection_cons. intros I1 I2.
  pose proof (Sorted_inv S1) as [S1' _]. pose proof (Sorted_inv S2) as [S2' _].
  destruct (N.ltb_spec x y) as [L1|L1]; [|destruct (N.ltb_spec y x) as [L2|L2]].
  - apply IH1; auto. destruct I1 as [E|I1]; auto. subst.
    destruct I2 as [E|I2]; [lia|]. pose proof (Sorted_le_head _ _ _ S2 I2). lia.
  - apply IH2; auto. destruct I2 as [E|I2]; auto. subst.
    destruct I1 as [E|I1]; [lia|]. pose proof (Sorted_le_head _ _ _ S1 I1). lia.
  - assert (x = y) by lia. subst.
    destruct I1 as [E|I1]; [left; exact E|].
    destruct I2 as [E|I2]; [left; exact E|]. right. apply IH1; auto.
Qed.

(** [common_neighbours] holds exactly the ids that are in both rings. *)
Lemma common_neighbours_In t a b z :
  In z (common_neighbours t a b) <-> In z (ring_of t a) /\ In z (ring_of t b).
Proof.
  unfold common_neighbours. split.
  - intros H. apply set_intersection_In_l in H as [H1 H2].
    split; eapply Permutation_in; [apply sort_ids_perm| |apply sort_ids_perm|]; eauto.
  - intros [H1 H2]. apply set_intersection_In_r; try apply sort_ids_sorted;
      eapply Permutation_in; try (symmetry; apply sort_ids_perm); eauto.
Qed.

Lemma set_intersection_NoDup l1 l2 : NoDup l1 -> NoDup (set_intersection l1 l2).
Proof.
  revert l2; induction l1 as [|x r1 IH1]; intros l2 D; [constructor|].
  pose proof D as D'. inversion D' as [|? ? Hx Dr]; subst.
  induction l2 as [|y r2 IH2]; [constructor|].
  rewrite set_intersection_cons.
  destruct (N.ltb x y); [auto|]. destruct (N.ltb y x); [auto|].
  constructor; [|auto]. intros I. apply Hx. exact (proj1 (set_intersection_In_l _ _ _ I)).
Qed.

(** When the ring of [a] has no repeated id, neither has
    [common_neighbours t a b]; its length is then the number of shared
    neighbours. *)
Lemma common_neighbours_NoDup t a b :
  NoDup (ring_of t a) -> NoDup (common_neighbours t a b).
Proof.
  intros D. unfold common_neighbours. apply set_intersection_NoDup.
  eapply Permutation_NoDup; [symmetry; apply sort_ids_perm|exact D].
Qed.

Lemma common_neighbours_NoDup_witness :
  NoDup (ring_of ico 0) /\ NoDup (common_neighbours ico 0 1).
Proof.
  assert (D : NoDup (ring_of ico 0)).
  { rewrite ring_of_ico. repeat constructor; cbn; lia. }
  split; [exact D|]. exact (common_neighbours_NoDup ico 0 1 D).
Defined.

(** ** [two_common_neighbours] *)

Lemma two_common_loop_2 ring1 ring0 res :
  two_common_loop ring1 ring0 res 2 = res.
Proof. destruct ring0; reflexivity. Qed.

Lemma two_common_loop_1 ring1 ring0 res :
  two_common_loop ring1 ring0 res 1 =
  match filter (is_member ring1) ring0 with
  | [] => res
  | u :: _ => (fst res, u)
  end.
Proof.
  induction ring0 as [|x r IH]; [reflexivity|]. cbn [two_common_loop filter Nat.eqb].
  destruct (is_member ring1 x); [apply two_common_loop_2|exact IH].
Qed.

Lemma two_common_loop_0 ring1 ring0 res :
  two_common_loop ring1 ring0 res 0 =
  match filter (is_member ring1) ring0 with
  | [] => res
  | [u] => (u, snd res)
  | u :: v :: _ => (u, v)
  end.
Proof.
  induction ring0 as [|x r IH]; [reflexivity|]. cbn [two_common_loop filter Nat.eqb].
  destruct (is_member ring1 x); [|exact IH].
  rewrite two_common_loop_1. cbn [fst snd].
  destruct (filter (is_member ring1) r); reflexivity.
Qed.

Lemma two_common_neighbours_filter t a b :
  let f := filter (is_member (ring_of t b)) (ring_of t a) in
  two_common_neighbours t a b = (nth 0 f vln, nth 1 f vln).
Proof.
  cbv zeta. unfold two_common_neighbours. rewrite two_common_loop_0.
  destruct (filter _ _) as [|u [|v r]]; reflexivity.
Qed.


Lemma is_member_find_index l x : is_member l x = Nat.ltb (find_index x l) (length l).
Proof.
  induction l as [|y r IH]; [reflexivity|]. unfold is_member in *. cbn [existsb find_index length].
  rewrite IH. destruct (N.eqb_spec x y), (N.eqb_spec y x); subst; try congruence; reflexivity.
Qed.

Lemma two_common_positions_loop_2 ring1 ring0 res :
  two_common_positions_loop ring1 ring0 res 2 = res.
Proof. destruct ring0; reflexivity. Qed.

Lemma two_common_positions_loop_1 ring1 ring0 res :
  two_common_positions_loop ring1 ring0 res 1 =
  match filter (is_member ring1) ring0 with
  | [] => res
  | u :: _ => (fst res, index_cast (Z.of_nat (find_index u ring1)))
  end.
Proof.
  induction ring0 as [|x r IH]; [reflexivity|]. cbn [two_common_positions_loop filter Nat.eqb].
  rewrite is_member_find_index.
  destruct (Nat.ltb _ _); [apply two_common_positions_loop_2|exact IH].
Qed.

Lemma two_common_positions_loop_0 ring1 ring0 res :
  two_common_positions_loop ring1 ring0 res 0 =
  match filter (is_member ring1) ring0 with
  | [] => res
  | [u] => (index_cast (Z.of_nat (find_index u ring1)), snd res)
  | u :: v :: _ => (index_cast (Z.of_nat (find_index u ring1)),
                    index_cast (Z.of_nat (find_index v ring1)))
  end.
Proof.
  induction ring0 as [|x r IH]; [reflexivity|]. cbn [two_common_positions_loop filter Nat.eqb].
  rewrite is_member_find_index.
  destruct (Nat.ltb _ _); [|exact IH].
  rewrite two_common_positions_loop_1. cbn [fst snd].
  destruct (filter (is_member ring1) r); reflexivity.
Qed.

Lemma index_cast_small (n : nat) : (Z.of_nat n < 2 ^ index_bits)%Z -> N.to_nat (index_cast (Z.of_nat n)) = n.
Proof.
  intros H. unfold index_cast. rewrite Z.mod_small by lia. rewrite <- nat_N_Z, N2Z.id. apply Nat2N.id.
Qed.

(** When the ring of [a] has at least two ids that are also in the ring of
    [b] (and the ring of [b] is shorter than [2^32]), the two positions
    returned by [two_common_neighbour_positions t a b] point, in the ring of
    [b], at the two ids returned by [two_common_neighbours t a b]. *)
Lemma two_common_neighbour_positions_point_to_ids t a b :
  (Z.of_nat (length (ring_of t b)) < 2 ^ index_bits)%Z ->
  (2 <= length (filter (is_member (ring_of t b)) (ring_of t a)))%nat ->
  nth (N.to_nat (fst (two_common_neighbour_positions t a b))) (ring_of t b) 0%N =
    fst (two_common_neighbours t a b) /\
  nth (N.to_nat (snd (two_common_neighbour_positions t a b))) (ring_of t b) 0%N =
    snd (two_common_neighbours t a b).
Proof.
  intros Hb H2. rewrite two_common_neighbours_filter. cbv zeta.
  unfold two_common_neighbour_positions. rewrite two_common_positions_loop_0.
  destruct (filter (is_member (ring_of t b)) (ring_of t a)) as [|u [|v r]] eqn:F;
    cbn [length] in H2; try lia.
  assert (Hin : forall x, In x (u :: v :: r) -> In x (ring_of t b)).
  { intros x I. rewrite <- F in I. apply filter_In in I as [_ I]. now apply is_member_In. }
  assert (Hpos : forall x, In x (u :: v :: r) ->
            nth (N.to_nat (index_cast (Z.of_nat (find_index x (ring_of t b))))) (ring_of t b) 0%N = x).
  { intros x I. specialize (Hin x I).
    rewrite index_cast_small by (pose proof (find_index_lt _ _ Hin); lia).
    now apply find_index_nth. }
  cbn [fst snd nth]. split; apply Hpos; cbn; tauto.
Qed.

Lemma two_common_neighbour_positions_point_to_ids_witness :
  ((Z.of_nat (length (ring_of ico 1)) < 2 ^ index_bits)%Z /\
   (2 <= length (filter (is_member (ring_of ico 1)) (ring_of ico 0)))%nat) /\
  (nth (N.to_nat (fst (two_common_neighbour_positions ico 0 1))) (ring_of ico 1) 0%N =
     fst (two_common_neighbours ico 0 1) /\
   nth (N.to_nat (snd (two_common_neighbour_positions ico 0 1))) (ring_of ico 1) 0%N =
     snd (two_common_neighbours ico 0 1)).
Proof.
  assert (H1 : (Z.of_nat (length (ring_of ico 1)) < 2 ^ index_bits)%Z)
    by (rewrite ring_of_ico; reflexivity).
  assert (H2 : (2 <= length (filter (is_member (ring_of ico 1)) (ring_of ico 0)))%nat)
    by (rewrite !ring_of_ico; vm_compute; lia).
  split; [split; assumption|].
  exact (two_common_neighbour_positions_point_to_ids ico 0 1 H1 H2).
Defined.

(** ** [flip_bond] moves no node *)

Lemma positions_flip_bond_in_quadrilateral t a b nb mn mx :
  positions (nodes_ (fst (flip_bond_in_quadrilateral t a b nb mn mx))) = positions (nodes_ t).
Proof.
  unfold flip_bond_in_quadrilateral.
  destruct (_ && _)%bool; [|reflexivity].
  destruct (Nat.eqb _ 2); [|reflexivity].
  destruct (flip_bond_unchecked (with_pre t _) a b (j_m_1 nb) (j_p_1 nb)) as [t2 bfd] eqn:E.
  assert (P2 : positions (nodes_ t2) = positions (nodes_ t)).
  { replace t2 with (fst (flip_bond_unchecked (with_pre t (calculate_diamond_geometry t a b (j_m_1 nb) (j_p_1 nb))) a b (j_m_1 nb) (j_p_1 nb))) by (rewrite E; reflexivity).
    rewrite positions_flip_bond_unchecked, nodes_with_pre. reflexivity. }
  destruct (Nat.eqb _ 2).
  - cbn [fst]. rewrite nodes_update_global_geometry, nodes_with_post, update_diamond_geometry_eq,
      nodes_with_nodes, (fold_upd_positions _ bulk_F_pos). exact P2.
  - destruct (flip_bond_unchecked t2 _ _ b a) as [t3 x] eqn:E3. cbn [fst].
    replace t3 with (fst (flip_bond_unchecked t2 (common_nn_0 bfd) (common_nn_1 bfd) b a))
      by (rewrite E3; reflexivity).
    rewrite positions_flip_bond_unchecked. exact P2.
Qed.

(** [flip_bond] never moves a node nor changes the number of nodes,
    whatever its outcome (applied, rolled back, or refused). *)
Lemma positions_flip_bond t a b mn mx :
  positions (nodes_ (fst (flip_bond t a b mn mx))) = positions (nodes_ t).
Proof.
  unfold flip_bond. destruct (triangulation_type t).
  - unfold flip_bulk_bond.
    destruct (Nat.ltb _ _); [|reflexivity]. destruct (Nat.ltb _ _); [|reflexivity].
    apply positions_flip_bond_in_quadrilateral.
  - destruct (_ || _)%bool; [reflexivity|].
    destruct (_ || _)%bool; [reflexivity|].
    apply positions_flip_bond_in_quadrilateral.
Qed.

Lemma nodes_flip_bond_unchecked_with_pre t g a b c d :
  nodes_ (fst (flip_bond_unchecked (with_pre t g) a b c d)) =
  nodes_ (fst (flip_bond_unchecked t a b c d)).
Proof.
  unfold flip_bond_unchecked, delete_connection_between_nodes_of_old_edge, emplace_before.
  cbn [fst]. rewrite !nodes_with_nodes, !nodes_with_pre. reflexivity.
Qed.

(** An applied [flip_bond] leaves the neighbour rings exactly as the bare
    rewrite [flip_bond_unchecked] on the diamond leaves them: the geometry
    updates that follow the rewrite do not touch any ring. *)
Lemma rings_flip_bond_applied t a b mn mx k :
  flipped (snd (flip_bond t a b mn mx)) = true ->
  let nb := previous_and_next_neighbour_global_ids t a b in
  ring_of (fst (flip_bond t a b mn mx)) k =
  ring_of (fst (flip_bond_unchecked t a b (j_m_1 nb) (j_p_1 nb))) k.
Proof.
  intros H. rewrite (flip_bond_fst_applied t a b mn mx H). cbv zeta. unfold ring_of.
  rewrite nodes_update_global_geometry, nodes_with_post, update_diamond_geometry_eq, nodes_with_nodes,
    nodes_flip_bond_unchecked_with_pre.
  set (s := nodes_ (fst (flip_bond_unchecked t a b _ _))).
  destruct (Compare_dec.lt_dec (N.to_nat k) (length s)) as [Hk|Hk].
  - rewrite (fold_upd_node_at _ bulk_F_pos bulk_F_idem) by exact Hk.
    destruct (is_member _ k); [apply (bulk_node_fields (positions s))|reflexivity].
  - rewrite fold_upd_node_at_out by exact Hk. reflexivity.
Qed.

Lemma rings_flip_bond_applied_witness :
  flipped (snd (flip_bond ico 0 1 0 100)) = true /\
  ring_of (fst (flip_bond ico 0 1 0 100)) 2 =
  ring_of (fst (flip_bond_unchecked ico 0 1
     (j_m_1 (previous_and_next_neighbour_global_ids ico 0 1))
     (j_p_1 (previous_and_next_neighbour_global_ids ico 0 1)))) 2.
Proof.
  split; [exact ico_flip_0_1_applied|].
  exact (rings_flip_bond_applied ico 0 1 0 100 2 ico_flip_0_1_applied).
Defined.


Lemma move_node_positions_rings t k d :
  positions (nodes_ (move_node t k d)) =
    list_set (positions (nodes_ t)) (N.to_nat k) (vadd (pos_of (nodes_ t) k) d) /\
  (forall x, ring_of (move_node t k d) x = ring_of t x).
Proof.
  pose proof (move_node_eq t k d) as E. cbv zeta in E. rewrite E. clear E. split.
  - cbn [nodes_]. rewrite (fold_upd_positions _ (two_ring_F_pos t)), positions_displace,
      pos_of_positions. reflexivity.
  - intros x. unfold ring_of at 1. cbn [nodes_].
    rewrite fold_two_ring_nn_ids, nn_ids_displace. reflexivity.
Qed.

Lemma translate_prefix t v m :
  (m <= length (nodes_ t))%nat ->
  let t' := fold_left (fun t' i => move_node t' (N.of_nat i) v) (seq 0 m) t in
  length (positions (nodes_ t')) = length (positions (nodes_ t)) /\
  (forall j, nth j (positions (nodes_ t')) vzero =
     if Nat.ltb j m then vadd (nth j (positions (nodes_ t)) vzero) v
     else nth j (positions (nodes_ t)) vzero) /\
  (forall x, ring_of t' x = ring_of t x).
Proof.
  induction m as [|m IH]; intros Hm; cbv zeta.
  - cbn. split; [reflexivity|]. split; [intros j; destruct j; reflexivity|reflexivity].
  - rewrite seq_S, fold_left_app. cbn [fold_left].
    destruct (IH ltac:(lia)) as (L & P & Rg). cbv zeta in L, P, Rg.
    set (t' := fold_left _ (seq 0 m) t) in *. rewrite Nat.add_0_l.
    destruct (move_node_positions_rings t' (N.of_nat m) v) as [E Rg'].
    rewrite E, Nat2N.id, pos_of_positions, Nat2N.id. split; [|split].
    + rewrite length_list_set. exact L.
    + intros j. destruct (Nat.eq_dec j m) as [->|Hne].
      * rewrite nth_list_set_eq by (rewrite L; unfold positions; rewrite length_map; lia).
        rewrite P. rewrite (proj2 (Nat.ltb_lt m (S m))) by lia.
        rewrite (proj2 (Nat.ltb_ge m m)) by lia. reflexivity.
      * rewrite nth_list_set_neq by congruence. rewrite P.
        destruct (Nat.ltb_spec j m), (Nat.ltb_spec j (S m)); try reflexivity; lia.
    + intros x. rewrite Rg'. apply Rg.
Qed.

Lemma translate_all_nodes_eq t v :
  positions (nodes_ (translate_all_nodes t v)) = map (fun p => vadd p v) (positions (nodes_ t)) /\
  (forall x, ring_of (translate_all_nodes t v) x = ring_of t x).
Proof.
  destruct (translate_prefix t v (length (nodes_ t)) (le_n _)) as (L & P & Rg).
  cbv zeta in L, P, Rg. unfold translate_all_nodes. split; [|exact Rg].
  apply nth_ext with (d := vzero) (d' := vzero).
  - rewrite L, length_map. reflexivity.
  - intros j Hj. rewrite P. rewrite L in Hj. unfold positions in Hj. rewrite length_map in Hj.
    rewrite (proj2 (Nat.ltb_lt _ _) Hj).
    rewrite (nth_indep (map (fun p => vadd p v) (positions (nodes_ t))) vzero (vadd vzero v))
      by (unfold positions; rewrite !length_map; exact Hj).
    rewrite (map_nth (fun p => vadd p v)). reflexivity.
Qed.

Lemma mass_sum_acc s a w :
  fold_left (fun mc n => vadd mc (pos n)) s (vadd a w) =
  vadd (fold_left (fun mc n => vadd mc (pos n)) s a) w.
Proof.
  revert a; induction s as [|n r IH]; intros a; [reflexivity|]. cbn [fold_left].
  rewrite <- IH. f_equal. apply vec3_eq; cbn; ring.
Qed.

Lemma mass_sum_shift s s' v a :
  positions s' = map (fun p => vadd p v) (positions s) ->
  fold_left (fun mc n => vadd mc (pos n)) s' a =
  vadd (fold_left (fun mc n => vadd mc (pos n)) s a) (vscale (INR (length s)) v).
Proof.
  revert s' a; induction s as [|n r IH]; intros s' a H.
  - destruct s'; [|discriminate]. cbn. apply vec3_eq; cbn; ring.
  - destruct s' as [|n' r']; [discriminate|]. cbn in H. injection H as Hn Hr.
    cbn [fold_left length]. rewrite (IH r' _ Hr), Hn.
    replace (vadd a (vadd (pos n) v)) with (vadd (vadd a (pos n)) v)
      by (apply vec3_eq; cbn; ring).
    rewrite mass_sum_acc. rewrite S_INR. apply vec3_eq; cbn; ring.
Qed.

(** For a non-empty mesh, [translate_all_nodes t v] moves the mass center
    (the mean node position) by [v]. *)
Lemma translate_all_nodes_mass_center t v :
  (0 < length (nodes_ t))%nat ->
  calculate_mass_center (nodes_ (translate_all_nodes t v)) =
  vadd (calculate_mass_center (nodes_ t)) v.
Proof.
  intros Hn. destruct (translate_all_nodes_eq t v) as [P _].
  assert (L : length (nodes_ (translate_all_nodes t v)) = length (nodes_ t)).
  { apply (f_equal (@length _)) in P. unfold positions in P. rewrite !length_map in P. exact P. }
  unfold calculate_mass_center. rewrite L, (mass_sum_shift _ _ v vzero P).
  assert (Hr : INR (length (nodes_ t)) <> 0) by (apply not_0_INR; lia).
  apply vec3_eq; cbn; field; exact Hr.
Qed.

Lemma translate_all_nodes_mass_center_witness :
  (0 < length (nodes_ ico))%nat /\
  calculate_mass_center (nodes_ (translate_all_nodes ico (mkV 1 0 0))) =
  vadd (calculate_mass_center (nodes_ ico)) (mkV 1 0 0).
Proof.
  assert (H : (0 < length (nodes_ ico))%nat) by (cbn; lia).
  split; [exact H|]. exact (translate_all_nodes_mass_center ico (mkV 1 0 0) H).
Defined.

(** [translate_all_nodes t v] shifts every node's position by [v] and
    changes no neighbour ring. *)
Lemma translate_all_nodes_spec t v :
  positions (nodes_ (translate_all_nodes t v)) = map (fun p => vadd p v) (positions (nodes_ t)) /\
  (forall x, ring_of (translate_all_nodes t v) x = ring_of t x).
Proof. exact (translate_all_nodes_eq t v). Qed.

(** [move_node t k d] adds [d] to the position of node [k], leaves every
    other position where it is, and changes no neighbour ring. *)
Lemma move_node_positions_and_rings t k d :
  positions (nodes_ (move_node t k d)) =
    list_set (positions (nodes_ t)) (N.to_nat k) (vadd (pos_of (nodes_ t) k) d) /\
  (forall x, ring_of (move_node t k d) x = ring_of t x).
Proof. exact (move_node_positions_rings t k d). Qed.


Lemma two_ring_F_id t k ps n : id (two_ring_F t k ps n) = id n.
Proof.
  unfold two_ring_F. destruct (triangulation_type t); [|destruct (is_boundary t k)];
    first [apply (bulk_node_fields ps n) | apply (refresh_node_fields ps n)].
Qed.

Lemma ids_fold_two_ring t ks s :
  map id (fold_left (upd_store (two_ring_F t)) ks s) = map id s.
Proof.
  revert s; induction ks as [|k ks IH]; intros s; [reflexivity|]. cbn [fold_left].
  rewrite IH. unfold upd_store, set_node. apply (list_set_nth_map_same _ _ _ _ default_node).
  rewrite two_ring_F_id. reflexivity.
Qed.

Lemma ids_move_node t k d : map id (nodes_ (move_node t k d)) = map id (nodes_ t).
Proof.
  pose proof (move_node_eq t k d) as E. cbv zeta in E. rewrite E. clear E. cbn [nodes_].
  rewrite ids_fold_two_ring. unfold displace, set_node. apply (list_set_nth_map_same _ _ _ _ default_node). reflexivity.
Qed.

Lemma nth_positions s j : nth j (positions s) vzero = pos (nth j s default_node).
Proof.
  change vzero with (pos default_node). unfold positions. apply map_nth.
Qed.


Lemma scale_prefix t xs ys zs m :
  map id (nodes_ t) = map N.of_nat (seq 0 (length (nodes_ t))) ->
  (m <= length (nodes_ t))%nat ->
  let t' := fold_left (fun t' i =>
      let node := nth i (nodes_ t') default_node in
      let displ := mkV (vx (pos node) * (xs - 1)) (vy (pos node) * (ys - 1))
                       (vz (pos node) * (zs - 1)) in
      move_node t' (id node) displ) (seq 0 m) t in
  map id (nodes_ t') = map id (nodes_ t) /\
  (forall j, nth j (positions (nodes_ t')) vzero =
     if Nat.ltb j m then stretch xs ys zs (nth j (positions (nodes_ t)) vzero)
     else nth j (positions (nodes_ t)) vzero) /\
  (forall x, ring_of t' x = ring_of t x).
Proof.
  intros Hid. induction m as [|m IH]; intros Hm; cbv zeta.
  - cbn. split; [reflexivity|]. split; [intros j; destruct j; reflexivity|reflexivity].
  - rewrite seq_S, fold_left_app. cbn [fold_left]. rewrite Nat.add_0_l.
    destruct (IH ltac:(lia)) as (I & P & Rg). cbv zeta in I, P, Rg.
    set (t' := fold_left _ (seq 0 m) t) in *.
    assert (Hidm : id (nth m (nodes_ t') default_node) = N.of_nat m).
    { assert (Hm' : (m < length (nodes_ t'))%nat).
      { apply (f_equal (@length _)) in I. rewrite !length_map in I. lia. }
      rewrite <- (map_nth id (nodes_ t') default_node m), I, Hid.
      change (id default_node) with (N.of_nat 0).
      rewrite map_nth, seq_nth by lia. reflexivity. }
    rewrite Hidm.
    destruct (move_node_positions_rings t' (N.of_nat m)
                (mkV (vx (pos (nth m (nodes_ t') default_node)) * (xs - 1))
                     (vy (pos (nth m (nodes_ t') default_node)) * (ys - 1))
                     (vz (pos (nth m (nodes_ t') default_node)) * (zs - 1)))) as [E Rg'].
    split; [|split].
    + rewrite ids_move_node. exact I.
    + intros j. rewrite E, Nat2N.id, pos_of_positions, Nat2N.id.
      assert (Lp : length (positions (nodes_ t')) = length (nodes_ t)).
      { apply (f_equal (@length _)) in I. unfold positions. rewrite !length_map in *. exact I. }
      destruct (Nat.eq_dec j m) as [->|Hne].
      * rewrite nth_list_set_eq by lia.
        rewrite <- nth_positions, P.
        rewrite (proj2 (Nat.ltb_lt m (S m))) by lia.
        rewrite (proj2 (Nat.ltb_ge m m)) by lia.
        unfold stretch. apply vec3_eq; cbn; ring.
      * rewrite nth_list_set_neq by congruence. rewrite P.
        destruct (Nat.ltb_spec j m), (Nat.ltb_spec j (S m)); try reflexivity; lia.
    + intros x. rewrite Rg'. apply Rg.
Qed.

(** When the nodes' ids are their indices, [scale_node_coordinates t xs ys zs]
    multiplies the three coordinates of every node's position by [xs], [ys]
    and [zs], and changes no neighbour ring. *)
Lemma scale_node_coordinates_stretches t xs ys zs :
  map id (nodes_ t) = map N.of_nat (seq 0 (length (nodes_ t))) ->
  positions (nodes_ (scale_node_coordinates t xs ys zs)) =
    map (stretch xs ys zs) (positions (nodes_ t)) /\
  (forall x, ring_of (scale_node_coordinates t xs ys zs) x = ring_of t x).
Proof.
  intros Hid. destruct (scale_prefix t xs ys zs (length (nodes_ t)) Hid (le_n _)) as (I & P & Rg).
  cbv zeta in I, P, Rg. unfold scale_node_coordinates. cbv zeta. split; [|exact Rg].
  match goal with |- context [fold_left ?f ?l t] => set (T := fold_left f l t) in * end.
  assert (Lp : length (positions (nodes_ T)) = length (nodes_ t)).
  { apply (f_equal (@length _)) in I. unfold positions. rewrite !length_map in *. exact I. }
  apply nth_ext with (d := vzero) (d' := vzero).
  - rewrite Lp. unfold positions. rewrite !length_map. reflexivity.
  - intros j Hj. rewrite Lp in Hj. rewrite P. rewrite (proj2 (Nat.ltb_lt _ _) Hj).
    rewrite (nth_indep (map (stretch xs ys zs) (positions (nodes_ t))) vzero (stretch xs ys zs vzero))
      by (unfold positions; rewrite !length_map; exact Hj).
    rewrite map_nth. reflexivity.
Qed.

Lemma ico_ids_indices : map id (nodes_ ico) = map N.of_nat (seq 0 (length (nodes_ ico))).
Proof.
  unfold ico. cbn [nodes_]. rewrite map_map, length_map.
  transitivity (map id (mesh_of ico_positions ico_rings));
    [apply map_ext; intros n; apply (bulk_node_fields ico_positions n)|reflexivity].
Qed.

Lemma scale_node_coordinates_stretches_witness :
  map id (nodes_ ico) = map N.of_nat (seq 0 (length (nodes_ ico))) /\
  positions (nodes_ (scale_node_coordinates ico 2 1 1)) =
    map (stretch 2 1 1) (positions (nodes_ ico)).
Proof.
  pose proof ico_ids_indices as H.
  split; [exact H|]. exact (proj1 (scale_node_coordinates_stretches ico 2 1 1 H)).
Defined.


(** After [update_nn_distance_vectors t k] (for a node [k] of the store
    whose distance list is at least as long as its ring),
    [get_distance_vector_to] on node [k] returns [pos nn - pos k] for every
    neighbour [nn] and terminates (exit 12) for any other id. *)
Lemma get_distance_vector_to_after_update t k nn :
  (N.to_nat k < length (nodes_ t))%nat ->
  (length (ring_of t k) <= length (nn_distances (node_at (nodes_ t) k)))%nat ->
  get_distance_vector_to (node_at (nodes_ (update_nn_distance_vectors t k)) k) nn =
  if is_member (ring_of t k) nn
  then Some (vsub (pos_of (nodes_ t) nn) (pos_of (nodes_ t) k))
  else None.
Proof.
  intros Hk Hd. unfold update_nn_distance_vectors. rewrite nodes_with_nodes, refresh_loop_eq.
  rewrite node_at_set_node_eq by exact Hk.
  unfold get_distance_vector_to. cbn [nn_ids nn_distances set_nn_lists].
  fold (ring_of t k). rewrite is_member_find_index.
  destruct (Nat.ltb_spec (find_index nn (ring_of t k)) (length (ring_of t k))) as [L|L];
    [|reflexivity].
  rewrite write_distances_split by (cbn; exact Hd). cbn [firstn app].
  rewrite app_nth1 by (rewrite length_map; exact L).
  set (f := fun nn0 => vsub (nth (N.to_nat nn0) (positions (nodes_ t)) vzero) (pos_of (nodes_ t) k)).
  rewrite (nth_indep _ vzero (f 0%N)) by (rewrite length_map; exact L).
  rewrite map_nth. unfold f. rewrite find_index_nth.
  - rewrite <- pos_of_positions. reflexivity.
  - destruct (In_dec N.eq_dec nn (ring_of t k)) as [I|I]; [exact I|].
    rewrite find_index_absent in L by exact I. lia.
Qed.

Lemma get_distance_vector_to_after_update_witness :
  ((N.to_nat 0 < length (nodes_ ico))%nat /\
   (length (ring_of ico 0) <= length (nn_distances (node_at (nodes_ ico) 0)))%nat) /\
  get_distance_vector_to (node_at (nodes_ (update_nn_distance_vectors ico 0)) 0) 1 =
  Some (vsub (pos_of (nodes_ ico) 1) (pos_of (nodes_ ico) 0)).
Proof.
  assert (H1 : (N.to_nat 0 < length (nodes_ ico))%nat) by (cbn; lia).
  assert (H2 : (length (ring_of ico 0) <= length (nn_distances (node_at (nodes_ ico) 0)))%nat).
  { rewrite ring_of_ico. unfold node_at, ico. cbn [nodes_].
    rewrite (nth_indep _ default_node (bulk_node ico_positions default_node)) by (cbn; lia).
    rewrite map_nth, (proj2 (proj2 (proj2 (proj2 (bulk_node_fields _ _))))).
    cbn. lia. }
  split; [split; assumption|].
  rewrite (get_distance_vector_to_after_update ico 0 1 H1 H2), ring_of_ico. reflexivity.
Defined.


Lemma norm_square_vsub_comm a b : norm_square (vsub a b) = norm_square (vsub b a).
Proof. unfold norm_square, dot, vsub. cbn. ring. Qed.

Lemma verlet_close_comm s r2 k j : verlet_close s r2 k j = verlet_close s r2 j k.
Proof. unfold verlet_close. rewrite norm_square_vsub_comm. reflexivity. Qed.

Lemma verlet_close_ext s s' r2 k j :
  positions s' = positions s -> verlet_close s' r2 k j = verlet_close s r2 k j.
Proof. intros P. unfold verlet_close. rewrite !pos_of_positions, P. reflexivity. Qed.

Lemma id_node_at_ext s s' q : map id s' = map id s -> id (node_at s' q) = id (node_at s q).
Proof.
  intros I. unfold node_at. rewrite <- !(map_nth id _ default_node), I. reflexivity.
Qed.

Lemma push_verlet_positions s k x : positions (push_verlet s k x) = positions s.
Proof. unfold push_verlet. apply positions_set_node. reflexivity. Qed.

Lemma push_verlet_ids s k x : map id (push_verlet s k x) = map id s.
Proof. unfold push_verlet, set_node. apply (list_set_nth_map_same _ _ _ _ default_node). reflexivity. Qed.

Lemma push_verlet_list s k x q :
  (N.to_nat k < length s)%nat ->
  verlet_list (node_at (push_verlet s k x) q) =
  if N.eqb k q then verlet_list (node_at s k) ++ [x] else verlet_list (node_at s q).
Proof.
  intros Hk. unfold push_verlet. rewrite node_at_set_node by exact Hk.
  destruct (N.eqb k q); reflexivity.
Qed.

Lemma length_ids_eq s s' : map id s' = map id s -> length s' = length s.
Proof. intros I. apply (f_equal (@length _)) in I. rewrite !length_map in I. exact I. Qed.

Lemma filter_seq_S f m : filter f (seq 0 (S m)) = filter f (seq 0 m) ++ (if f m then [m] else []).
Proof. rewrite seq_S, filter_app. cbn. destruct (f m); reflexivity. Qed.

Section VerletList.

Variable s : list Node.
Variable r2 : R.


Lemma verlet_inner m q s' :
  (m < length s)%nat -> (q <= m)%nat ->
  positions s' = positions s -> map id s' = map id s ->
  let s'' := fold_left (verlet_step r2 m) (seq 0 q) s' in
  positions s'' = positions s /\ map id s'' = map id s /\
  forall k, (k < length s)%nat ->
    verlet_list (node_at s'' (N.of_nat k)) =
    verlet_list (node_at s' (N.of_nat k)) ++
    (if Nat.eqb k m then map (fun j => id (node_at s (N.of_nat j))) (filter (verlet_close s r2 m) (seq 0 q))
     else if (Nat.ltb k q && verlet_close s r2 m k)%bool then [id (node_at s (N.of_nat m))] else []).
Proof.
  intros Hm. induction q as [|q IH]; intros Hq P I; cbv zeta.
  - cbn. split; [exact P|]. split; [exact I|]. intros k _.
    destruct (Nat.eqb k m); rewrite app_nil_r; reflexivity.
  - rewrite seq_S, fold_left_app. cbn [fold_left]. rewrite Nat.add_0_l.
    destruct (IH ltac:(lia) P I) as (P1 & I1 & V1). cbv zeta in P1, I1, V1.
    set (s1 := fold_left (verlet_step r2 m) (seq 0 q) s') in *.
    assert (L1 : length s1 = length s) by (apply length_ids_eq; exact I1).
    unfold verlet_step.
    replace (Rltb (norm_square (vsub (pos_of s1 (N.of_nat m)) (pos_of s1 (N.of_nat q)))) r2)
      with (verlet_close s r2 m q) by (symmetry; apply verlet_close_ext; exact P1).
    destruct (verlet_close s r2 m q) eqn:C.
    + set (s2 := push_verlet s1 (N.of_nat m) (id (node_at s1 (N.of_nat q)))).
      split; [|split].
      * unfold s2. rewrite !push_verlet_positions. exact P1.
      * unfold s2. rewrite !push_verlet_ids. exact I1.
      * intros k Hk.
        assert (L2 : length s2 = length s) by (unfold s2; apply length_ids_eq; rewrite push_verlet_ids; exact I1).
        rewrite push_verlet_list by (rewrite L2, Nat2N.id; lia).
        unfold s2. rewrite !push_verlet_list by (rewrite L1, Nat2N.id; lia).
        rewrite !(id_node_at_ext _ _ _ I1).
        rewrite (id_node_at_ext _ _ _ (eq_trans (push_verlet_ids _ _ _) I1)).
        rewrite filter_app. cbn [filter]. rewrite C.
        destruct (Nat.eqb_spec k m) as [->|Hkm].
        -- rewrite (proj2 (N.eqb_neq (N.of_nat q) (N.of_nat m))) by lia.
           rewrite N.eqb_refl, (V1 m Hk). rewrite Nat.eqb_refl.
           rewrite <- app_assoc, map_app. reflexivity.
        -- rewrite (proj2 (N.eqb_neq (N.of_nat m) (N.of_nat k))) by lia.
           destruct (Nat.eqb_spec q k) as [->|Hqk].
           ++ rewrite N.eqb_refl, (proj2 (N.eqb_neq (N.of_nat m) (N.of_nat k))) by lia.
              rewrite (V1 k Hk).
              rewrite (proj2 (Nat.eqb_neq k m)) by exact Hkm.
              rewrite (proj2 (Nat.ltb_ge k k)) by lia. rewrite (proj2 (Nat.ltb_lt k (S k))) by lia.
              cbn [andb]. rewrite C, !app_nil_r. reflexivity.
           ++ rewrite (proj2 (N.eqb_neq (N.of_nat q) (N.of_nat k))) by lia.
              rewrite (V1 k Hk). rewrite (proj2 (Nat.eqb_neq k m)) by exact Hkm.
              destruct (Nat.ltb_spec k q), (Nat.ltb_spec k (S q)); try lia; reflexivity.
    + split; [exact P1|]. split; [exact I1|]. intros k Hk. rewrite V1 by exact Hk.
      rewrite filter_app. cbn [filter]. rewrite C, app_nil_r.
      destruct (Nat.eqb_spec k m) as [->|Hkm]; [reflexivity|].
      destruct (Nat.eqb_spec k q) as [->|Hkq].
      * rewrite C, !Bool.andb_false_r. reflexivity.
      * destruct (Nat.ltb_spec k q), (Nat.ltb_spec k (S q)); try lia; reflexivity.
Qed.

Lemma verlet_outer m s0 :
  (m <= length s)%nat ->
  positions s0 = positions s -> map id s0 = map id s ->
  (forall k, (k < length s)%nat -> verlet_list (node_at s0 (N.of_nat k)) = []) ->
  let s'' := fold_left (fun s' i => fold_left (verlet_step r2 i) (seq 0 i) s') (seq 0 m) s0 in
  positions s'' = positions s /\ map id s'' = map id s /\
  forall k, (k < length s)%nat ->
    verlet_list (node_at s'' (N.of_nat k)) =
    if Nat.ltb k m
    then map (fun j => id (node_at s (N.of_nat j)))
           (filter (fun j => negb (Nat.eqb j k) && verlet_close s r2 k j)%bool (seq 0 m))
    else [].
Proof.
  intros Hm P I E. induction m as [|m IH]; cbv zeta.
  - cbn. split; [exact P|]. split; [exact I|]. exact E.
  - rewrite seq_S, fold_left_app. cbn [fold_left]. rewrite Nat.add_0_l.
    destruct (IH ltac:(lia)) as (P1 & I1 & V1). cbv zeta in P1, I1, V1.
    set (s1 := fold_left _ (seq 0 m) s0) in *.
    destruct (verlet_inner m m s1 ltac:(lia) (le_n _) P1 I1) as (P2 & I2 & V2).
    cbv zeta in P2, I2, V2.
    split; [exact P2|]. split; [exact I2|]. intros k Hk.
    rewrite (V2 k Hk), (V1 k Hk). rewrite filter_app. cbn [filter].
    destruct (Nat.eqb_spec k m) as [->|Hkm].
    + rewrite (proj2 (Nat.ltb_ge m m)), (proj2 (Nat.ltb_lt m (S m))), Nat.eqb_refl by lia.
      cbn [negb andb app]. rewrite app_nil_r. f_equal.
      apply filter_ext_in. intros j Hj. apply in_seq in Hj.
      rewrite (proj2 (Nat.eqb_neq j m)) by lia. reflexivity.
    + destruct (Nat.ltb_spec k m) as [Lk|Lk].
      * rewrite (proj2 (Nat.ltb_lt k (S m))) by lia.
        rewrite (proj2 (Nat.eqb_neq m k)) by lia. cbn [negb andb].
        rewrite verlet_close_comm, map_app. destruct (verlet_close s r2 k m); reflexivity.
      * rewrite (proj2 (Nat.ltb_ge k (S m))) by lia. reflexivity.
Qed.

End VerletList.

Lemma make_verlet_list_eq t :
  nodes_ (make_verlet_list t) =
  fold_left (fun s' i => fold_left (verlet_step (verlet_radius_squared t) i) (seq 0 i) s')
    (seq 0 (length (nodes_ t))) (map (fun n => set_verlet_node n []) (nodes_ t)).
Proof. unfold make_verlet_list. rewrite nodes_with_nodes, length_map. reflexivity. Qed.

Lemma make_verlet_list_filter t k :
  (k < length (nodes_ t))%nat ->
  verlet_list (node_at (nodes_ (make_verlet_list t)) (N.of_nat k)) =
  map (fun j => id (node_at (nodes_ t) (N.of_nat j)))
    (filter (fun j => negb (Nat.eqb j k) && verlet_close (nodes_ t) (verlet_radius_squared t) k j)%bool
       (seq 0 (length (nodes_ t)))).
Proof.
  intros Hk. rewrite make_verlet_list_eq.
  assert (P0 : positions (map (fun n => set_verlet_node n []) (nodes_ t)) = positions (nodes_ t))
    by (unfold positions; rewrite map_map; reflexivity).
  assert (I0 : map id (map (fun n => set_verlet_node n []) (nodes_ t)) = map id (nodes_ t))
    by (rewrite map_map; reflexivity).
  assert (E0 : forall j, (j < length (nodes_ t))%nat ->
            verlet_list (node_at (map (fun n => set_verlet_node n []) (nodes_ t)) (N.of_nat j)) = []).
  { intros j Hj. unfold node_at. rewrite Nat2N.id.
    rewrite (nth_indep _ _ (set_verlet_node default_node [])) by (rewrite length_map; exact Hj).
    rewrite (map_nth (fun n => set_verlet_node n [])). reflexivity. }
  destruct (verlet_outer (nodes_ t) (verlet_radius_squared t) (length (nodes_ t)) _ (le_n _) P0 I0 E0)
    as (_ & _ & V).
  cbv zeta in V. rewrite (V k Hk), (proj2 (Nat.ltb_lt _ _) Hk). reflexivity.
Qed.

Lemma id_node_at_indices s x :
  map id s = map N.of_nat (seq 0 (length s)) -> (x < length s)%nat ->
  id (node_at s (N.of_nat x)) = N.of_nat x.
Proof.
  intros Hid Hx. unfold node_at. rewrite Nat2N.id.
  rewrite <- (map_nth id s default_node x), Hid.
  change (id default_node) with (N.of_nat 0). rewrite map_nth, seq_nth by exact Hx. reflexivity.
Qed.

(** When the nodes' ids are their indices, after [make_verlet_list] the id
    [j] is in the Verlet list of [i] exactly when [i <> j] and the two nodes
    are closer than the Verlet radius; the lists are therefore symmetric. *)
Lemma make_verlet_list_symmetric t i j :
  map id (nodes_ t) = map N.of_nat (seq 0 (length (nodes_ t))) ->
  (i < length (nodes_ t))%nat -> (j < length (nodes_ t))%nat ->
  (In (N.of_nat j) (verlet_list (node_at (nodes_ (make_verlet_list t)) (N.of_nat i))) <->
   i <> j /\ verlet_close (nodes_ t) (verlet_radius_squared t) i j = true) /\
  (In (N.of_nat j) (verlet_list (node_at (nodes_ (make_verlet_list t)) (N.of_nat i))) <->
   In (N.of_nat i) (verlet_list (node_at (nodes_ (make_verlet_list t)) (N.of_nat j)))).
Proof.
  intros Hid Hi Hj.
  assert (Mem : forall a b, (a < length (nodes_ t))%nat -> (b < length (nodes_ t))%nat ->
            In (N.of_nat b) (verlet_list (node_at (nodes_ (make_verlet_list t)) (N.of_nat a))) <->
            a <> b /\ verlet_close (nodes_ t) (verlet_radius_squared t) a b = true).
  { intros a b Ha Hb. rewrite (make_verlet_list_filter t a Ha), in_map_iff. split.
    - intros (x & Ex & Ix). apply filter_In in Ix as [Ix Cx]. apply in_seq in Ix.
      rewrite (id_node_at_indices _ _ Hid) in Ex by lia. apply Nat2N.inj in Ex. subst x.
      apply andb_prop in Cx as [Nx Cx]. apply Bool.negb_true_iff, Nat.eqb_neq in Nx. auto.
    - intros [Nab Cab]. exists b. split; [apply (id_node_at_indices _ _ Hid); exact Hb|].
      apply filter_In. split; [apply in_seq; lia|].
      rewrite Cab, (proj2 (Nat.eqb_neq b a)) by auto. reflexivity. }
  split; [apply Mem; assumption|].
  rewrite (Mem i j Hi Hj), (Mem j i Hj Hi), verlet_close_comm. intuition.
Qed.

Lemma make_verlet_list_symmetric_witness :
  (map id (nodes_ ico) = map N.of_nat (seq 0 (length (nodes_ ico))) /\
   (0 < length (nodes_ ico))%nat /\ (1 < length (nodes_ ico))%nat) /\
  (In (N.of_nat 1) (verlet_list (node_at (nodes_ (make_verlet_list ico)) (N.of_nat 0))) <->
   In (N.of_nat 0) (verlet_list (node_at (nodes_ (make_verlet_list ico)) (N.of_nat 1)))).
Proof.
  pose proof ico_ids_indices as H.
  assert (H0 : (0 < length (nodes_ ico))%nat) by (cbn; lia).
  assert (H1 : (1 < length (nodes_ ico))%nat) by (cbn; lia).
  split; [tauto|]. exact (proj2 (make_verlet_list_symmetric ico 0 1 H H0 H1)).
Defined.


Lemma move_needs_undoing_counters u m :
  let m' := snd (move_needs_undoing u m) in
  move_attempt m' = move_attempt m /\ bond_length_move_rejection m' = bond_length_move_rejection m /\
  move_back m' = move_back m /\
  triangulation m' = triangulation m /\ kBT_ m' = kBT_ m /\
  min_bond_length_square m' = min_bond_length_square m /\
  max_bond_length_square m' = max_bond_length_square m.
Proof.
  unfold move_needs_undoing. cbv zeta.
  destruct (Rltb 0 (kBT_ m)); [destruct (Rltb _ 0)|]; cbn; repeat split.
Qed.

(** [move_MC_updater] counts one more attempt, and at most one of a
    bond-length rejection and an undone move; so the number of rejected
    plus undone moves never exceeds the number of attempts. *)
Lemma move_MC_updater_counters ef u m node_ref d :
  (move_back m + bond_length_move_rejection m <= move_attempt m)%nat ->
  let m' := move_MC_updater ef u m node_ref d in
  move_attempt m' = S (move_attempt m) /\
  (move_back m' + bond_length_move_rejection m' <= move_attempt m')%nat.
Proof.
  intros H. cbv zeta. unfold move_MC_updater. cbv zeta.
  destruct (new_neighbour_distances_are_between_min_and_max_length _ _ _); [|cbn; lia].
  match goal with |- context [move_needs_undoing u ?m1] =>
    destruct (move_needs_undoing_counters u m1) as (A & B & C & _);
    destruct (move_needs_undoing u m1) as [undo m2] end.
  cbn [snd] in A, B, C. cbn in A, B, C.
  destruct undo; cbn; rewrite ?A, ?B, ?C; lia.
Qed.

(** [flip_MC_updater] counts one more flip attempt, and at most one of a
    refused flip and an undone flip; the number of refused plus undone flips
    never exceeds the number of flip attempts, and the move counters are not
    touched. *)
Lemma flip_MC_updater_counters ef u m c node_ref nn :
  (flip_back c + bond_length_flip_rejection c <= flip_attempt c)%nat ->
  let r := flip_MC_updater ef u m c node_ref nn in
  flip_attempt (snd r) = S (flip_attempt c) /\
  (flip_back (snd r) + bond_length_flip_rejection (snd r) <= flip_attempt (snd r))%nat /\
  move_attempt (fst r) = move_attempt m /\
  bond_length_move_rejection (fst r) = bond_length_move_rejection m /\
  move_back (fst r) = move_back m.
Proof.
  intros H. cbv zeta. unfold flip_MC_updater. cbv zeta.
  destruct (flip_bond _ _ _ _ _) as [t1 bfd].
  destruct (flipped bfd); [|cbn; repeat split; lia].
  match goal with |- context [move_needs_undoing u ?m1] =>
    destruct (move_needs_undoing_counters u m1) as (A & B & C & _);
    destruct (move_needs_undoing u m1) as [undo m2] end.
  cbn [snd] in A, B, C. cbn in A, B, C.
  destruct undo; cbn; rewrite ?A, ?B, ?C; repeat split; lia.
Qed.

Lemma move_MC_updater_counters_witness :
  let m := mkMC ico 0 0 0 1 0 100 0 0 0 0 in
  (move_back m + bond_length_move_rejection m <= move_attempt m)%nat /\
  move_attempt (move_MC_updater (fun _ _ => 0) (fun _ => 0) m 0 vzero) = 1%nat.
Proof.
  cbv zeta.
  assert (H : (move_back (mkMC ico 0 0 0 1 0 100 0 0 0 0) +
               bond_length_move_rejection (mkMC ico 0 0 0 1 0 100 0 0 0 0) <=
               move_attempt (mkMC ico 0 0 0 1 0 100 0 0 0 0))%nat) by (cbn; lia).
  split; [exact H|].
  exact (proj1 (move_MC_updater_counters (fun _ _ => 0) (fun _ => 0) _ 0 vzero H)).
Defined.

Lemma flip_MC_updater_counters_witness :
  let m := mkMC ico 0 0 0 1 0 100 0 0 0 0 in
  let c := mkFlipCounters 0 0 0 in
  (flip_back c + bond_length_flip_rejection c <= flip_attempt c)%nat /\
  flip_attempt (snd (flip_MC_updater (fun _ _ => 0) (fun _ => 0) m c 0 1)) = 1%nat.
Proof.
  cbv zeta.
  assert (H : (flip_back (mkFlipCounters 0 0 0) + bond_length_flip_rejection (mkFlipCounters 0 0 0) <=
               flip_attempt (mkFlipCounters 0 0 0))%nat) by (cbn; lia).
  split; [exact H|].
  exact (proj1 (flip_MC_updater_counters (fun _ _ => 0) (fun _ => 0) (mkMC ico 0 0 0 1 0 100 0 0 0 0)
                  (mkFlipCounters 0 0 0) 0 1 H)).
Defined.

Lemma length_resize_vec l n : length (resize_vec l n) = n.
Proof. unfold resize_vec. rewrite length_app, length_firstn, repeat_length. lia. Qed.

Lemma ids_set_node s k n : id n = id (node_at s k) -> map id (set_node s k n) = map id s.
Proof. intros H. unfold set_node. apply (list_set_nth_map_same _ _ _ _ default_node). exact H. Qed.

Lemma nn_ids_set_node s k n x :
  nn_ids n = nn_ids (node_at s k) -> nn_ids (node_at (set_node s k n) x) = nn_ids (node_at s x).
Proof.
  intros H. destruct (Compare_dec.lt_dec (N.to_nat k) (length s)) as [Hk|Hk].
  - rewrite node_at_set_node by exact Hk. destruct (N.eqb_spec k x) as [<-|_]; [exact H|reflexivity].
  - rewrite set_node_out by exact Hk. reflexivity.
Qed.

Lemma initiate_prefix t m :
  map id (nodes_ t) = map N.of_nat (seq 0 (length (nodes_ t))) ->
  (m <= length (nodes_ t))%nat ->
  let T := fold_left (fun t' i =>
      let s := nodes_ t' in
      let nd := node_at s (N.of_nat i) in
      let t'' := with_nodes t' (set_node s (N.of_nat i)
                   (set_nn_lists nd (nn_ids nd) (resize_vec (nn_distances nd) (length (nn_ids nd))))) in
      update_nn_distance_vectors t'' (id nd)) (seq 0 m) t in
  positions (nodes_ T) = positions (nodes_ t) /\ map id (nodes_ T) = map id (nodes_ t) /\
  (forall x, ring_of T x = ring_of t x) /\
  (forall k, (k < m)%nat ->
     nn_distances (node_at (nodes_ T) (N.of_nat k)) =
     map (fun nn => vsub (pos_of (nodes_ t) nn) (pos_of (nodes_ t) (N.of_nat k))) (ring_of t (N.of_nat k))).
Proof.
  intros Hid. induction m as [|m IH]; intros Hm; cbv zeta.
  - cbn. split; [reflexivity|]. split; [reflexivity|]. split; [reflexivity|]. intros k Hk; lia.
  - rewrite seq_S, fold_left_app. cbn [fold_left]. rewrite Nat.add_0_l.
    destruct (IH ltac:(lia)) as (P & I & Rg & D). cbv zeta in P, I, Rg, D.
    set (T := fold_left _ (seq 0 m) t) in *.
    set (s := nodes_ T).
    assert (Ls : length s = length (nodes_ t)) by (apply length_ids_eq; exact I).
    assert (Hidm : id (node_at s (N.of_nat m)) = N.of_nat m).
    { rewrite (id_node_at_ext _ _ _ I). apply id_node_at_indices; [exact Hid|lia]. }
    rewrite Hidm, update_nn_distance_vectors_eq. cbn [nodes_ with_nodes].
    set (nd := node_at s (N.of_nat m)).
    set (nd1 := set_nn_lists nd (nn_ids nd) (resize_vec (nn_distances nd) (length (nn_ids nd)))).
    set (s1 := set_node s (N.of_nat m) nd1).
    assert (Hm' : (N.to_nat (N.of_nat m) < length s)%nat) by (rewrite Nat2N.id; lia).
    assert (Hm1 : (N.to_nat (N.of_nat m) < length s1)%nat) by (unfold s1; rewrite length_set_node; exact Hm').
    assert (P1 : positions s1 = positions s) by (apply positions_set_node; reflexivity).
    assert (E1 : node_at s1 (N.of_nat m) = nd1) by (apply node_at_set_node_eq; exact Hm').
    rewrite E1. split; [|split; [|split]].
    + rewrite positions_set_node; [exact (eq_trans P1 P)|].
      rewrite E1. apply (refresh_node_fields (positions s1) nd1).
    + rewrite ids_set_node; [unfold s1; rewrite ids_set_node by reflexivity; exact I|].
      rewrite E1. apply (refresh_node_fields (positions s1) nd1).
    + intros x. unfold ring_of at 1. cbn [nodes_ with_nodes].
      rewrite nn_ids_set_node by (rewrite E1; apply (refresh_node_fields (positions s1) nd1)).
      unfold s1. rewrite nn_ids_set_node by reflexivity. apply Rg.
    + intros k Hk. destruct (Nat.eq_dec k m) as [->|Hkm].
      * rewrite node_at_set_node_eq by exact Hm1.
        unfold refresh_node. cbn [nn_distances nn_ids set_nn_lists].
        rewrite write_distances_full
          by (unfold nd1; cbn [nn_distances nn_ids set_nn_lists]; apply length_resize_vec).
        assert (R1 : nn_ids nd1 = ring_of t (N.of_nat m)) by (rewrite <- Rg; reflexivity).
        assert (Q1 : pos nd1 = pos_of (nodes_ t) (N.of_nat m)).
        { change (pos nd1) with (pos_of s (N.of_nat m)). rewrite !pos_of_positions.
          unfold s. rewrite P. reflexivity. }
        rewrite R1, Q1, P1. unfold s. rewrite P.
        apply map_ext. intros nn. rewrite !pos_of_positions. reflexivity.
      * rewrite node_at_set_node_neq by lia. unfold s1. rewrite node_at_set_node_neq by lia.
        apply D. lia.
Qed.

(** When the nodes' ids are their indices, [initiate_distance_vectors]
    changes no position and no ring, and leaves every node's distance list
    equal to the vectors from the node to its neighbours, in ring order. *)
Lemma initiate_distance_vectors_consistent t :
  map id (nodes_ t) = map N.of_nat (seq 0 (length (nodes_ t))) ->
  let t' := initiate_distance_vectors t in
  positions (nodes_ t') = positions (nodes_ t) /\
  (forall x, ring_of t' x = ring_of t x) /\
  (forall k, (k < length (nodes_ t'))%nat ->
     nn_distances (node_at (nodes_ t') (N.of_nat k)) =
     map (fun nn => vsub (pos_of (nodes_ t') nn) (pos_of (nodes_ t') (N.of_nat k)))
       (ring_of t' (N.of_nat k))).
Proof.
  intros Hid. destruct (initiate_prefix t (length (nodes_ t)) Hid (le_n _)) as (P & I & Rg & D).
  cbv zeta in *. unfold initiate_distance_vectors.
  match goal with |- context [fold_left ?f ?l t] => set (T := fold_left f l t) in * end.
  split; [exact P|]. split; [exact Rg|].
  intros k Hk. rewrite (length_ids_eq _ _ I) in Hk. rewrite (D k Hk), Rg.
  apply map_ext. intros nn. rewrite !pos_of_positions, P. reflexivity.
Qed.

Lemma initiate_distance_vectors_consistent_witness :
  map id (nodes_ ico) = map N.of_nat (seq 0 (length (nodes_ ico))) /\
  positions (nodes_ (initiate_distance_vectors ico)) = positions (nodes_ ico).
Proof.
  split; [exact ico_ids_indices|].
  exact (proj1 (initiate_distance_vectors_consistent ico ico_ids_indices)).
Defined.

Lemma positions_set_pos s k p : positions (set_pos s k p) = list_set (positions s) (N.to_nat k) p.
Proof. unfold set_pos, set_node, positions. rewrite map_list_set. reflexivity. Qed.

Lemma scale_R_init_prefix t m :
  (m <= length (nodes_ t))%nat ->
  let mc := calculate_mass_center (nodes_ t) in
  let s' := fold_left (fun s i =>
        let diff := vsub (pos_of s (N.of_nat i)) mc in
        let diff' := vadd (vscale (R_initial t / norm diff) diff) mc in
        set_pos s (N.of_nat i) diff') (seq 0 m) (nodes_ t) in
  length (positions s') = length (positions (nodes_ t)) /\
  forall j, nth j (positions s') vzero =
    if Nat.ltb j m
    then vadd (vscale (R_initial t / norm (vsub (nth j (positions (nodes_ t)) vzero) mc))
                 (vsub (nth j (positions (nodes_ t)) vzero) mc)) mc
    else nth j (positions (nodes_ t)) vzero.
Proof.
  induction m as [|m IH]; intros Hm; cbv zeta.
  - cbn. split; [reflexivity|]. intros j; destruct j; reflexivity.
  - rewrite seq_S, fold_left_app. cbn [fold_left]. rewrite Nat.add_0_l.
    destruct (IH ltac:(lia)) as (L & P). cbv zeta in L, P.
    match goal with |- context [set_pos ?s0 _ _] => set (s := s0) in * end.
    rewrite positions_set_pos, Nat2N.id, pos_of_positions, Nat2N.id. split.
    + rewrite length_list_set. exact L.
    + intros j. destruct (Nat.eq_dec j m) as [->|Hne].
      * rewrite nth_list_set_eq by (rewrite L; unfold positions; rewrite length_map; lia).
        rewrite P. rewrite (proj2 (Nat.ltb_lt m (S m))) by lia.
        rewrite (proj2 (Nat.ltb_ge m m)) by lia. reflexivity.
      * rewrite nth_list_set_neq by congruence. rewrite P.
        destruct (Nat.ltb_spec j m), (Nat.ltb_spec j (S m)); try reflexivity; lia.
Qed.

Lemma norm_vscale a v : norm (vscale a v) = Rabs a * norm v.
Proof.
  unfold norm. replace (norm_square (vscale a v)) with (Rsqr a * norm_square v)
    by (unfold norm_square, dot, vscale, Rsqr; cbn; ring).
  rewrite sqrt_mult_alt by apply Rle_0_sqr. rewrite sqrt_Rsqr_abs. reflexivity.
Qed.

(** [scale_all_nodes_to_R_init] puts every node that is not at the mass
    center at distance [|R_initial|] from the mass center computed before
    the rescaling. *)
Lemma scale_all_nodes_to_R_init_radius t k :
  (k < length (nodes_ t))%nat ->
  0 < norm (vsub (pos_of (nodes_ t) (N.of_nat k)) (calculate_mass_center (nodes_ t))) ->
  norm (vsub (pos_of (nodes_ (scale_all_nodes_to_R_init t)) (N.of_nat k))
             (calculate_mass_center (nodes_ t))) = Rabs (R_initial t).
Proof.
  intros Hk Hn. destruct (scale_R_init_prefix t (length (nodes_ t)) (le_n _)) as (_ & P).
  cbv zeta in P. unfold scale_all_nodes_to_R_init. cbv zeta. rewrite nodes_with_nodes.
  rewrite pos_of_positions, Nat2N.id, P, (proj2 (Nat.ltb_lt _ _) Hk).
  rewrite pos_of_positions, Nat2N.id in Hn.
  set (d := vsub (nth k (positions (nodes_ t)) vzero) (calculate_mass_center (nodes_ t))) in *.
  replace (vsub (vadd (vscale (R_initial t / norm d) d) (calculate_mass_center (nodes_ t)))
                (calculate_mass_center (nodes_ t)))
    with (vscale (R_initial t / norm d) d) by (apply vec3_eq; cbn; ring).
  rewrite norm_vscale. unfold Rdiv. rewrite Rabs_mult, Rabs_inv, (Rabs_right (norm d)) by lra.
  field. lra.
Qed.

Lemma scale_all_nodes_to_R_init_radius_witness :
  ((0 < length (nodes_ octahedron))%nat /\
   0 < norm (vsub (pos_of (nodes_ octahedron) (N.of_nat 0)) (calculate_mass_center (nodes_ octahedron)))) /\
  norm (vsub (pos_of (nodes_ (scale_all_nodes_to_R_init octahedron)) (N.of_nat 0))
             (calculate_mass_center (nodes_ octahedron))) = Rabs (R_initial octahedron).
Proof.
  assert (H0 : (0 < length (nodes_ octahedron))%nat) by (cbn; lia).
  assert (H1 : 0 < norm (vsub (pos_of (nodes_ octahedron) (N.of_nat 0))
                              (calculate_mass_center (nodes_ octahedron)))).
  { unfold norm. apply sqrt_lt_R0.
    unfold norm_square, dot, vsub, calculate_mass_center, vdiv. cbn.
    replace (1 + 1 + 1 + 1 + 1 + 1) with 6 by ring. lra. }
  split; [split; assumption|].
  exact (scale_all_nodes_to_R_init_radius octahedron 0 H0 H1).
Defined.

(** [two_common_neighbours t a b] returns the first two ids of the ring of
    [a] (in ring order) that are also in the ring of [b]; a missing one is
    left at [static_cast<Index>(VERY_LARGE_NUMBER_)]. *)
Lemma two_common_neighbours_first_two t a b :
  let f := filter (is_member (ring_of t b)) (ring_of t a) in
  two_common_neighbours t a b = (nth 0 f vln, nth 1 f vln).
Proof. exact (two_common_neighbours_filter t a b). Qed.

(** After [make_verlet_list], the Verlet list of the node at index [k]
    holds, in increasing index order, the ids of all other nodes closer to
    it than the Verlet radius, and nothing else. *)
Lemma make_verlet_list_contents t k :
  (k < length (nodes_ t))%nat ->
  verlet_list (node_at (nodes_ (make_verlet_list t)) (N.of_nat k)) =
  map (fun j => id (node_at (nodes_ t) (N.of_nat j)))
    (filter (fun j => negb (Nat.eqb j k) && verlet_close (nodes_ t) (verlet_radius_squared t) k j)%bool
       (seq 0 (length (nodes_ t)))).
Proof. exact (make_verlet_list_filter t k). Qed.

Lemma make_verlet_list_contents_witness :
  (0 < length (nodes_ ico))%nat /\
  verlet_list (node_at (nodes_ (make_verlet_list ico)) (N.of_nat 0)) =
  map (fun j => id (node_at (nodes_ ico) (N.of_nat j)))
    (filter (fun j => negb (Nat.eqb j 0) && verlet_close (nodes_ ico) (verlet_radius_squared ico) 0 j)%bool
       (seq 0 (length (nodes_ ico)))).
Proof.
  assert (H : (0 < length (nodes_ ico))%nat) by (cbn; lia).
  split; [exact H|]. exact (make_verlet_list_contents ico 0 H).
Defined.

Module JsonReadFacts.
Import String Ascii JsonRead.
Local Open Scope string_scope.
Local Open Scope Z_scope.

Lemma find_last_of_from_app s c chars i acc :
  find_last_of_from (s ++ String c EmptyString) chars i acc =
  if is_one_of c chars then i + Z.of_nat (String.length s)
  else find_last_of_from s chars i acc.
Proof.
  revert i acc; induction s as [|d r IH]; intros i acc; cbn [append find_last_of_from String.length].
  - destruct (is_one_of c chars); [lia|reflexivity].
  - rewrite IH. destruct (is_one_of c chars); [lia|reflexivity].
Qed.

Lemma find_last_of_from_range s chars i acc :
  find_last_of_from s chars i acc = acc \/
  (i <= find_last_of_from s chars i acc < i + Z.of_nat (String.length s)).
Proof.
  revert i acc; induction s as [|d r IH]; intros i acc; cbn [find_last_of_from String.length]; [left; reflexivity|].
  destruct (IH (i + 1) (if is_one_of d chars then i else acc)) as [E|E]; rewrite ?E.
  - destruct (is_one_of d chars); [right; lia|left; reflexivity].
  - right. lia.
Qed.

(** [json_read] appends [".json"] to a non-empty file name exactly when
    its last character is none of [.], [j], [s], [o], [n] (so [run] is opened
    as is, and [data] as [data.json]); an empty name is opened as is. *)
Lemma json_read_file_name_suffix s c :
  Z.of_nat (String.length s) < npos ->
  json_read_file_name (s ++ String c EmptyString) =
    (if is_one_of c ".json" then s ++ String c EmptyString
     else (s ++ String c EmptyString) ++ ".json") /\
  json_read_file_name EmptyString = EmptyString.
Proof.
  intros Hs. split; [|reflexivity].
  unfold json_read_file_name, find_last_of. rewrite find_last_of_from_app.
  assert (Hl : String.length (s ++ String c EmptyString) = S (String.length s)).
  { clear Hs. induction s as [|d r IH]; cbn; [reflexivity|]. rewrite IH. reflexivity. }
  rewrite Hl. unfold npos in Hs.
  replace ((Z.of_nat (S (String.length s)) - 1) mod 2 ^ 64) with (Z.of_nat (String.length s))
    by (rewrite Z.mod_small; lia).
  destruct (is_one_of c ".json").
  - rewrite Z.eqb_refl. reflexivity.
  - destruct (find_last_of_from_range s ".json" 0 npos) as [E|E].
    + rewrite E. unfold npos. rewrite (proj2 (Z.eqb_neq _ _)) by lia. reflexivity.
    + rewrite (proj2 (Z.eqb_neq _ _)) by lia. reflexivity.
Qed.

Lemma json_read_file_name_suffix_witness :
  Z.of_nat (String.length "ru") < npos /\
  json_read_file_name ("ru" ++ String "n" EmptyString) = "run".
Proof.
  assert (H : Z.of_nat (String.length "ru") < npos) by (cbv; reflexivity).
  split; [exact H|]. rewrite (proj1 (json_read_file_name_suffix "ru" "n" H)). reflexivity.
Defined.

End JsonReadFacts.

(** * The witness of C2 *)

(** Witness of C2 on a one-node mesh with the energy [x] of the node and the
    displacement [(1, 0, 0)], so that [dE = 1]: at [kBT = 1] the move is
    undone for the draw [1 > exp (-1)] and kept for the draw [0]; at
    [kBT = 0] (greedy) it is undone. *)
Lemma move_MC_updater_undo_rule_witness :
  let t := mkTri SPHERICAL_TRIANGULATION 0 [default_node] [] geometry_zero geometry_zero
                 geometry_zero 0 0 [] in
  let E := fun (n : Node) (_ : Tri) => vx (pos n) in
  let d := mkV 1 0 0 in
  let m := fun k => mkMC t 0 0 0 k 0 1 0 0 0 0 in
  move_back (move_MC_updater E (fun _ => 1) (m 1) 0 d) = 1%nat /\
  triangulation (move_MC_updater E (fun _ => 1) (m 1) 0 d) =
    move_node (move_node t 0 d) 0 (vneg d) /\
  move_back (move_MC_updater E (fun _ => 0) (m 1) 0 d) = 0%nat /\
  triangulation (move_MC_updater E (fun _ => 0) (m 1) 0 d) = move_node t 0 d /\
  move_back (move_MC_updater E (fun _ => 0) (m 0) 0 d) = 1%nat.
Proof.
  intros t E d m.
  assert (HdE : E (node_at (nodes_ (move_node t (id (node_at (nodes_ t) 0)) d)) 0)
                  (move_node t (id (node_at (nodes_ t) 0)) d) - E (node_at (nodes_ t) 0) t = 1).
  { unfold E. change (id (node_at (nodes_ t) 0)) with 0%N.
    change (vx (pos (node_at (nodes_ (move_node t 0 d)) 0))) with (vx (pos_of (nodes_ (move_node t 0 d)) 0)).
    rewrite pos_of_positions, (proj1 (move_node_positions_rings t 0 d)).
    rewrite nth_list_set_eq by (unfold t; cbn; lia). unfold t; cbn. ring. }
  assert (Hg : forall k, new_neighbour_distances_are_between_min_and_max_length (m k)
                 (node_at (nodes_ (triangulation (m k))) 0) d = true) by (intros; reflexivity).
  pose proof (move_MC_updater_undo_rule E (fun _ => 1) (m 1) 0 d ltac:(cbn; lra) (Hg 1)) as U1.
  pose proof (move_MC_updater_undo_rule E (fun _ => 0) (m 1) 0 d ltac:(cbn; lra) (Hg 1)) as U2.
  pose proof (move_MC_updater_undo_rule E (fun _ => 0) (m 0) 0 d ltac:(cbn; lra) (Hg 0)) as U3.
  cbv zeta in U1, U2, U3.
  change (m 1) with (mkMC t 0 0 0 1 0 1 0 0 0 0) in *.
  change (m 0) with (mkMC t 0 0 0 0 0 1 0 0 0 0) in *.
  cbn [triangulation kBT_ rng_draws move_back] in U1, U2, U3.
  rewrite HdE in U1, U2, U3.
  destruct U1 as [U1 _]. destruct U1 as [B1 T1].
  { left. split; [lra|]. split; [lra|].
    apply (Rlt_le_trans _ (exp 0)); [apply exp_increasing; lra | rewrite exp_0; lra]. }
  destruct U2 as [_ U2]. destruct U2 as [B2 T2].
  { intros [(_ & _ & H)|(H & _)]; [|lra].
    pose proof (exp_pos (- (1) / 1)). lra. }
  destruct U3 as [U3 _]. destruct U3 as [B3 _]; [right; split; [reflexivity|lra]|].
  rewrite B1, B2, B3, T1, T2. repeat split; reflexivity.
Defined.
